(** * agext/email: a shallow embedding of the composer and its codecs

    The development follows the Go sources file by file:
    - [encoding.go]: [QuotedPrintableEncode], [QEncode], [QEncodeIfNeeded],
      [Base64Encode];
    - [address.go]: [Address], [SeemsValidAddr], [Address_encode];
    - [buffer.go]: the append-only [buffer], [NewSender] and [Send];
    - [message.go]: the [Message] builder, [Message_prepare],
      [Message_Compose], [Message_RecipientAddrs], [NewMessage].

    Go's [[]byte] and [string] are both sequences of bytes and are modelled
    as [list byte]; Go's [int] is a 64-bit two's complement integer,
    modelled as [Z] with the wrap-around written out in [int_add]. *)

From Stdlib Require Import ZArith NArith Lia.
From Stdlib Require Import Strings.Byte Strings.String Numbers.DecimalString.
From stdpp Require Import base option list gmap.

Local Open Scope Z_scope.

(** ** Bytes, strings and machine integers *)

#[global] Instance byte_eq_dec : EqDecision Byte.byte := Byte.byte_eq_dec.
#[global] Instance byte_countable : Countable Byte.byte :=
  inj_countable Byte.to_N Byte.of_N Byte.of_to_N.


Abbreviation byte := Byte.byte.
Abbreviation bytes := (list Byte.byte).

(** A string literal as the bytes of a Go string constant. *)
Definition B (s : string) : bytes := list_byte_of_string s.

Definition CR : byte := x0d.
Definition LF : byte := x0a.
Definition TAB : byte := x09.
Definition DQUOTE : byte := x22.
Definition BSLASH : byte := x5c.
Definition CRLF : bytes := [CR; LF].

(** The numeric value of a byte, and byte arithmetic as Go does it
    (results truncated to eight bits). *)
Definition bval (c : byte) : N := Byte.to_N c.
Definition byte_shr (c : byte) (n : N) : N := N.shiftr (bval c) n.
Definition byte_shl (c : byte) (n : N) : N := (N.shiftl (bval c) n mod 256)%N.
Definition byte_and (c : byte) (m : N) : N := N.land (bval c) m.
Definition byte_le (a b : byte) : bool := (bval a <=? bval b)%N.

(** [t[i]] for a constant table; every index used below is masked into
    range (see [hex_index_in_range], [b64_index_in_range]). *)
Definition index (t : bytes) (i : N) : byte := nth (N.to_nat i) t x00.

(** Go's [int]: addition wraps around at 64 bits. *)
Definition wrap64 (z : Z) : Z := (z + 2 ^ 63) mod 2 ^ 64 - 2 ^ 63.
Definition int_add (a b : Z) : Z := wrap64 (a + b).
Definition len {A} (l : list A) : Z := Z.of_nat (length l).

(** ** encoding.go *)

Definition hextable : bytes := B "0123456789ABCDEF".
Definition base64table : bytes :=
  B "ABCDEFGHIJKLMNOPQRSTUVWXYZabcdefghijklmnopqrstuvwxyz0123456789+/".

(** ['=', hextable[c>>4], hextable[c&0x0f]] *)
Definition hex3 (c : byte) : bytes :=
  ["="%byte; index hextable (byte_shr c 4); index hextable (byte_and c 0x0f)].

Definition is_lead (c : byte) : bool := (byte_and c 0xC0 =? 0xC0)%N.
Definition is_cont (c : byte) : bool := (byte_and c 0xC0 =? 0x80)%N.

(** The inner loop [for i++; i < srcLen; i++] shared by both text encoders:
    it keeps appending the escapes of continuation bytes to [enc] and stops
    at the first byte that is not one; it returns [enc] and the bytes from
    that position on. *)
Fixpoint rune_tail (enc : bytes) (src : bytes) : bytes * bytes :=
  match src with
  | [] => (enc, [])
  | c :: rest =>
      if negb (is_cont c) then (enc, src)
      else rune_tail (enc ++ hex3 c) rest
  end.

(** One pass through the [switch] of [QuotedPrintableEncode] at [src[i] = c]:
    the encoded unit [enc], the flag [eis] and the source left after it. *)
Definition qp_unit (c : byte) (rest : bytes) : bytes * bool * bytes :=
  if Byte.eqb c TAB || Byte.eqb c " " then ([c], true, rest)
  else if byte_le "!" c && byte_le c "~" && negb (Byte.eqb c "=") then ([c], false, rest)
  else if is_lead c then
    let '(enc, rest') := rune_tail (hex3 c) rest in (enc, false, rest')
  else (hex3 c, false, rest).

(** The outer [for] loop of [QuotedPrintableEncode].  Each iteration consumes
    at least one byte, so [length src] iterations are enough. *)
Fixpoint qp_loop (fuel : nat) (src : bytes) (pos : Z) (dst : bytes) (eis : bool)
  : bytes * bool :=
  match fuel, src with
  | S fuel', c :: rest =>
      let '(enc, eis', rest') := qp_unit c rest in
      let le := len enc in
      let pos1 := int_add pos le in
      if pos1 >? 75
      then qp_loop fuel' rest' le ((dst ++ B "=" ++ CRLF) ++ enc) eis'
      else qp_loop fuel' rest' pos1 (dst ++ enc) eis'
  | _, _ => (dst, eis)
  end.

Definition QuotedPrintableEncode (src : bytes) : bytes :=
  if len src =? 0 then []
  else
    let '(dst, eis) := qp_loop (length src) src 0 [] false in
    if eis then dst ++ ["="%byte] else dst.

(** The [switch] of [QEncode]. *)
Definition q_unit (c : byte) (rest : bytes) : bytes * bytes :=
  if Byte.eqb c " " then (["_"%byte], rest)
  else if byte_le "!" c && byte_le c "~" && negb (Byte.eqb c "=")
          && negb (Byte.eqb c "?") && negb (Byte.eqb c "_") then ([c], rest)
  else if is_lead c then rune_tail (hex3 c) rest
  else (hex3 c, rest).

Definition q_open : bytes := B "=?utf-8?q?".
Definition q_close : bytes := B "?=".
(** ["?=\r\n =?utf-8?q?"] and ["\r\n =?utf-8?q?"] *)
Definition q_fold : bytes := B "?=" ++ CRLF ++ B " =?utf-8?q?".
Definition q_fold_first : bytes := CRLF ++ B " =?utf-8?q?".

Fixpoint q_loop (fuel : nat) (src : bytes) (pos : Z) (dst : bytes) : bytes * Z :=
  match fuel, src with
  | S fuel', c :: rest =>
      let '(enc, rest') := q_unit c rest in
      let le := len enc in
      let pos1 := int_add pos le in
      if pos1 >? 74 then
        if len dst >? 0
        then q_loop fuel' rest' (int_add le 11) ((dst ++ q_fold) ++ enc)
        else q_loop fuel' rest' (int_add le 11) ((dst ++ q_fold_first) ++ enc)
      else
        if len dst =? 0
        then q_loop fuel' rest' pos1 ((dst ++ q_open) ++ enc)
        else q_loop fuel' rest' pos1 (dst ++ enc)
  | _, _ => (dst, pos)
  end.

Definition QEncode (src : bytes) (offset : Z) : bytes * Z :=
  if len src =? 0 then ([], offset)
  else
    let offset := if offset <? 1 then 1 else offset in
    let '(dst, pos) := q_loop (length src) src (int_add 10 offset) [] in
    (dst ++ ["?"%byte; "="%byte], int_add pos 2).

(** The scan [for i, sl := 0, len(src); i < sl && safe; i++] used by
    [QEncodeIfNeeded] and by [Address_encode]: it stops at the first byte
    outside [' ' .. '~']. *)
Definition printable (c : byte) : bool := byte_le " " c && byte_le c "~".

Fixpoint all_safe (src : bytes) : bool :=
  match src with
  | [] => true
  | c :: rest => if printable c then all_safe rest else false
  end.

Definition QEncodeIfNeeded (src : bytes) (offset : Z) : bytes :=
  if all_safe src then src else fst (QEncode src offset).

(** *** Base64Encode

    [dst] is allocated at its final length and written by index; a write
    outside it panics, which the model records as [None]. *)
Definition set_at (dst : bytes) (i : Z) (v : byte) : option bytes :=
  if (0 <=? i) && (i <? len dst) then Some (<[Z.to_nat i := v]> dst) else None.

(** The length computed for [dst].  The operands of [/] are not negative
    here, where Go's truncating division and [Z.div] agree. *)
Definition b64_dstLen (n : Z) : Z :=
  let dstLen := (n + 2) / 3 * 4 in
  dstLen + (dstLen - 1) / 76 * 2.

(** The first [switch]: where the four characters of this group go, the
    CRLF written between them, and the new [pos] and [lpos]. *)
Definition b64_place (dst : bytes) (pos lpos : Z)
  : option (bytes * (Z * Z * Z * Z) * Z * Z) :=
  match 76 - lpos with
  | 0 =>
      dst ← set_at dst pos CR; dst ← set_at dst (pos + 1) LF;
      Some (dst, (pos + 2, pos + 3, pos + 4, pos + 5), pos + 6, 4)
  | 1 =>
      dst ← set_at dst (pos + 1) CR; dst ← set_at dst (pos + 2) LF;
      Some (dst, (pos, pos + 3, pos + 4, pos + 5), pos + 6, 3)
  | 2 =>
      dst ← set_at dst (pos + 2) CR; dst ← set_at dst (pos + 3) LF;
      Some (dst, (pos, pos + 1, pos + 4, pos + 5), pos + 6, 2)
  | 3 =>
      dst ← set_at dst (pos + 3) CR; dst ← set_at dst (pos + 4) LF;
      Some (dst, (pos, pos + 1, pos + 2, pos + 5), pos + 6, 1)
  | _ =>
      Some (dst, (pos, pos + 1, pos + 2, pos + 3), pos + 4, lpos + 4)
  end.

Definition b64c (i : N) : byte := index base64table i.

Fixpoint b64_loop (src : bytes) (dst : bytes) (pos lpos : Z) : option bytes :=
  match src with
  | [] => Some dst
  | s0 :: tl =>
      '(dst, p, pos, lpos) ← b64_place dst pos lpos;
      let '(p0, p1, p2, p3) := p in
      match tl with
      | [] =>
          dst ← set_at dst p3 "="; dst ← set_at dst p2 "=";
          dst ← set_at dst p1 (b64c (N.land (byte_shl s0 4) 0x3F));
          set_at dst p0 (b64c (byte_shr s0 2))
      | [s1] =>
          dst ← set_at dst p3 "=";
          dst ← set_at dst p2 (b64c (N.land (byte_shl s1 2) 0x3F));
          dst ← set_at dst p1
            (b64c (N.lor (byte_shr s1 4) (N.land (byte_shl s0 4) 0x3F)));
          set_at dst p0 (b64c (byte_shr s0 2))
      | s1 :: s2 :: rest =>
          dst ← set_at dst p3 (b64c (byte_and s2 0x3F));
          dst ← set_at dst p2
            (b64c (N.lor (byte_shr s2 6) (N.land (byte_shl s1 2) 0x3F)));
          dst ← set_at dst p1
            (b64c (N.lor (byte_shr s1 4) (N.land (byte_shl s0 4) 0x3F)));
          dst ← set_at dst p0 (b64c (byte_shr s0 2));
          b64_loop rest dst pos lpos
      end
  end.

Definition Base64Encode (src : bytes) : option bytes :=
  if len src =? 0 then Some []
  else b64_loop src (replicate (Z.to_nat (b64_dstLen (len src))) x00) 0 0.

(** ** address.go *)

Record Address := { Name : bytes; Addr : bytes }.

(** The four flags of [SeemsValidAddr]. *)
Record sva_flags := { seenAt : bool; seenDom : bool; seenDot : bool; seenTld : bool }.

(** The loop [for _, char := range addr] ranges over runes.  A rune that is
    not a single ASCII byte has a value above ['~'], falls into the [default]
    case and makes the function return false at once; a byte of value
    [>= 0x80] does the same here, so the loop is written over the bytes. *)
Fixpoint sva_loop (st : sva_flags) (addr : bytes) : bool :=
  match addr with
  | [] => seenTld st
  | char :: rest =>
      if Byte.eqb char "@" then
        if seenAt st then false
        else sva_loop {| seenAt := true; seenDom := seenDom st;
                         seenDot := seenDot st; seenTld := seenTld st |} rest
      else if Byte.eqb char "." then
        sva_loop {| seenAt := seenAt st; seenDom := seenDom st;
                    seenDot := seenAt st && seenDom st; seenTld := seenTld st |} rest
      else if negb (byte_le "!" char) || negb (byte_le char "~") then false
      else if seenAt st then
        if Byte.eqb char "[" || Byte.eqb char "]" || Byte.eqb char BSLASH then false
        else sva_loop {| seenAt := seenAt st; seenDom := negb (seenDot st);
                         seenDot := seenDot st; seenTld := seenDot st |} rest
      else sva_loop st rest
  end.

Definition SeemsValidAddr (addr : bytes) : bool :=
  sva_loop {| seenAt := false; seenDom := false; seenDot := false; seenTld := false |} addr.

(** [NewAddress]: the address or the error text. *)
Definition NewAddress (name addr : bytes) : Address + bytes :=
  if negb (SeemsValidAddr addr) then inr (B "invalid address: " ++ addr)
  else inl {| Name := name; Addr := addr |}.

(** [Clone] of an [Address] pointer, which may be nil. *)
Definition Address_Clone (a : option Address) : option Address :=
  match a with
  | None => None
  | Some a => Some {| Name := Name a; Addr := Addr a |}
  end.

(** [Domain] of an [Address]: what follows the last ['@'], or the empty string. *)
Fixpoint after_last_at (addr : bytes) : option bytes :=
  match addr with
  | [] => None
  | c :: rest =>
      match after_last_at rest with
      | Some d => Some d
      | None => if Byte.eqb c "@" then Some rest else None
      end
  end.

Definition Address_Domain (a : Address) : bytes := default [] (after_last_at (Addr a)).

(** The scan of the display name in [encode]: the count [nq] of quotes and
    backslashes seen and whether every byte was printable; the scan stops
    after the first byte that is not. *)
Fixpoint name_scan (name : bytes) (nq : Z) : Z * bool :=
  match name with
  | [] => (nq, true)
  | c :: rest =>
      let safe := printable c in
      let nq := if Byte.eqb c BSLASH || Byte.eqb c DQUOTE then int_add nq 1 else nq in
      if safe then name_scan rest nq else (nq, false)
  end.

(** The second loop of the quoted branch: a backslash before each quote or
    backslash. *)
Fixpoint quote_name (dst : bytes) (name : bytes) : bytes :=
  match name with
  | [] => dst
  | c :: rest =>
      let dst := if Byte.eqb c BSLASH || Byte.eqb c DQUOTE then dst ++ [BSLASH] else dst in
      quote_name (dst ++ [c]) rest
  end.

Definition Address_encode (a : Address) (offset : Z) : bytes * Z :=
  let la := len (Addr a) in
  let ln := len (Name a) in
  let '(dst, offset) :=
    if ln >? 0 then
      let '(nq, safe) := name_scan (Name a) 0 in
      if safe then
        let dst := quote_name [DQUOTE] (Name a) in
        let offset := int_add offset (int_add (int_add ln nq) 3) in
        if int_add offset la <=? 74 then (dst ++ [DQUOTE; " "%byte], offset)
        else (dst ++ [DQUOTE; CR; LF; " "%byte], 1)
      else
        let '(buf, offset) := QEncode (Name a) offset in
        let offset := int_add offset 1 in
        if int_add offset la <=? 74 then (buf ++ [" "%byte], offset)
        else (buf ++ [CR; LF; " "%byte], 1)
    else
      if int_add offset la <=? 74 then ([], offset)
      else ([CR; LF; " "%byte], 1)
  in
  (((dst ++ ["<"%byte]) ++ Addr a) ++ [">"%byte], int_add offset (int_add la 2)).

(** [addrList.Clone] *)
Definition addrList_Clone (al : list Address) : list Address :=
  if len al =? 0 then []
  else map (fun a => {| Name := Name a; Addr := Addr a |}) al.

(** ** buffer.go *)

Definition byte_of_N (n : N) : byte := default x00 (Byte.of_N n).

(** [string(r)] for a rune: its UTF-8 encoding, U+FFFD for an invalid one. *)
Definition utf8_of_rune (r : Z) : bytes :=
  let n := Z.to_N r in
  if (r <? 0) || (0x10FFFF <? r) || ((0xD800 <=? r) && (r <=? 0xDFFF))
  then [xef; xbf; xbd]
  else if r <? 0x80 then [byte_of_N n]
  else if r <? 0x800 then
    [byte_of_N (N.lor 0xC0 (N.shiftr n 6)); byte_of_N (N.lor 0x80 (N.land n 0x3F))]
  else if r <? 0x10000 then
    [byte_of_N (N.lor 0xE0 (N.shiftr n 12));
     byte_of_N (N.lor 0x80 (N.land (N.shiftr n 6) 0x3F));
     byte_of_N (N.lor 0x80 (N.land n 0x3F))]
  else
    [byte_of_N (N.lor 0xF0 (N.shiftr n 18));
     byte_of_N (N.lor 0x80 (N.land (N.shiftr n 12) 0x3F));
     byte_of_N (N.lor 0x80 (N.land (N.shiftr n 6) 0x3F));
     byte_of_N (N.lor 0x80 (N.land n 0x3F))].

(** The dynamic types [buffer.Write] switches on. *)
Inductive wvalue :=
| WString (s : bytes)
| WBytes (b : bytes)
| WByte (c : byte)
| WRune (r : Z).

Definition buffer := bytes.

Definition Write1 (b : buffer) (v : wvalue) : buffer :=
  match v with
  | WString s => b ++ s
  | WBytes s => b ++ s
  | WByte c => b ++ [c]
  | WRune r => b ++ utf8_of_rune r
  end.

Definition Write (b : buffer) (data : list wvalue) : buffer := foldl Write1 b data.

Record Sender := {
  host : bytes; port : Z; username : bytes; password : bytes;
  address : option Address }.

(** Go's [int] multiplication, wrapping like the addition. *)
Definition int_mul (a b : Z) : Z := wrap64 (a * b).

(** The inner loop of [NewSender] over the runes after the first [':'];
    [None] is the return with "invalid port number".  A rune outside
    ['0' .. '9'] is refused whatever its encoding, so the loop is written
    over the bytes. *)
Fixpoint parse_port (digits : bytes) (port : Z) : option Z :=
  match digits with
  | [] => Some port
  | digit :: rest =>
      if negb (byte_le "0" digit) || negb (byte_le digit "9") then None
      else parse_port rest (int_add (int_mul port 10) (Z.of_N (bval digit) - 48))
  end.

(** The outer loop: the host up to the first [':'] and the port after it;
    without a [':'] the host is unchanged and the port is 0. *)
Fixpoint split_host_port (host : bytes) : option (bytes * Z) :=
  match host with
  | [] => Some ([], 0)
  | c :: rest =>
      if Byte.eqb c ":" then
        port ← parse_port rest 0; Some ([], port)
      else
        '(h, port) ← split_host_port rest; Some (c :: h, port)
  end.

(** [NewSender]: the sender or the error text.  [addr] is the variadic
    argument. *)
Definition NewSender (host user pass : bytes) (addr : list bytes) : Sender + bytes :=
  match split_host_port host with
  | None => inr (B "NewSender: invalid port number: " ++ host)
  | Some (host', port) =>
      let port := if port =? 0 then 25 else port in
      if len user =? 0 then inr (B "NewSender: empty username: " ++ user)
      else if len pass =? 0 then inr (B "NewSender: empty password: " ++ pass)
      else
        let res : option Address + bytes :=
          match addr with
          | [a0; a1] =>
              match NewAddress a0 a1 with inl a => inl (Some a) | inr e => inr e end
          | [a0] =>
              match NewAddress [] a0 with inl a => inl (Some a) | inr e => inr e end
          | _ => inl None
          end in
        match res with
        | inr err => inr (B "NewSender: " ++ err)
        | inl address =>
            inl {| host := host'; port := port; username := user; password := pass;
                   address := address |}
        end
  end.

(** What [smtp.SendMail] is called with. *)
Record smtp_call := {
  smtp_addr : bytes; smtp_username : bytes; smtp_password : bytes; smtp_host : bytes;
  smtp_from : bytes; smtp_to : list bytes; smtp_body : bytes }.

(** ** message.go *)

Inductive CTE := AutoCTE | QuotedPrintable | Base64.

(** [sha256.Sum256] returns a [[32]byte]. *)
Record hash32 := { hash_bytes : bytes; hash_length : length hash_bytes = 32%nat }.

(** What the composer asks of the packages it imports: the two template
    engines, the file system, [mime], [path/filepath], [crypto/sha256] and
    the regular expressions behind [htmlToText].  [Execute] returns what it
    wrote to the buffer and its error, if any; [ReadFile] the content or the
    error text. *)
Class Collaborators := {
  tpl_data : Type;
  ttpl : Type;
  htpl : Type;
  ttpl_Parse : bytes -> ttpl + bytes;
  htpl_Parse : bytes -> htpl + bytes;
  ttpl_Execute : ttpl -> tpl_data -> bytes * option bytes;
  htpl_Execute : htpl -> tpl_data -> bytes * option bytes;
  ReadFile : bytes -> bytes + bytes;
  filepath_Base : bytes -> bytes;
  filepath_Ext : bytes -> bytes;
  mime_TypeByExtension : bytes -> bytes;
  sha256_Sum256 : bytes -> hash32;
  htmlToText : bytes -> bytes }.

(** [strconv.Itoa] *)
Definition Itoa (n : Z) : bytes := B (NilZero.string_of_int (Z.to_int n)).

Record Related := {
  rel_id : bytes; rel_ctype : bytes; rel_fileName : bytes; rel_data : bytes }.

Definition RelatedFile (id ctype file : bytes) : Related :=
  {| rel_id := id; rel_ctype := ctype; rel_fileName := file; rel_data := [] |}.

Definition RelatedObject (id ctype data : bytes) : Related :=
  {| rel_id := id; rel_ctype := ctype; rel_fileName := []; rel_data := data |}.

Record attachment := {
  att_name : bytes; att_ctype : bytes; att_fileName : bytes; att_data : bytes }.

(** A [Message] holds its attachments as [[]*attachment], and [NewMessage]
    copies the pointers, so the attachment structs live in a store shared by
    a message and its clones.  [cells] is total: Go has no dangling pointer. *)
Definition loc := nat.
Record heap := { cells : loc -> attachment; next : loc }.

Definition heap_set (h : heap) (l : loc) (a : attachment) : heap :=
  {| cells := fun l' => if Nat.eqb l' l then a else cells h l'; next := next h |}.

Definition heap_new (h : heap) (a : attachment) : loc * heap :=
  (next h, {| cells := fun l' => if Nat.eqb l' (next h) then a else cells h l';
              next := S (next h) |}).

Section message.
Context `{Collaborators}.

Record part := {
  part_ctype : bytes;
  part_cte : CTE;
  part_bytes : bytes;
  part_tplSrc : bytes;
  part_tpl : option ttpl;
  part_htmlTplSrc : bytes;
  part_htmlTpl : option htpl;
  part_related : list Related }.

Definition zero_part : part :=
  {| part_ctype := []; part_cte := AutoCTE; part_bytes := []; part_tplSrc := [];
     part_tpl := None; part_htmlTplSrc := []; part_htmlTpl := None;
     part_related := [] |}.

Definition part_set_bytes (b : bytes) (p : part) : part :=
  {| part_ctype := part_ctype p; part_cte := part_cte p; part_bytes := b;
     part_tplSrc := part_tplSrc p; part_tpl := part_tpl p;
     part_htmlTplSrc := part_htmlTplSrc p; part_htmlTpl := part_htmlTpl p;
     part_related := part_related p |}.

(** The parts of a message are owned by it ([NewMessage] allocates new ones),
    so they are kept by value; the pointers [text] and [html] always point at
    an element of [parts] and are kept as its position.  The error list
    holds the error texts. *)
Record Message := {
  m_domain : bytes;
  m_subject : bytes;
  m_subjectTplSrc : bytes;
  m_subjectTpl : option ttpl;
  m_sender : option Sender;
  m_from : option Address;
  m_replyTo : option Address;
  m_to : list Address;
  m_cc : list Address;
  m_bcc : list Address;
  m_parts : list part;
  m_text : option nat;
  m_html : option nat;
  m_attachments : list loc;
  m_errors : list bytes;
  m_prepared : bool }.

Definition set_domain (v : bytes) (m : Message) : Message :=
  Build_Message v (m_subject m) (m_subjectTplSrc m) (m_subjectTpl m) (m_sender m) (m_from m) (m_replyTo m) (m_to m) (m_cc m) (m_bcc m) (m_parts m) (m_text m) (m_html m) (m_attachments m) (m_errors m) (m_prepared m).
Definition set_subject (v : bytes) (m : Message) : Message :=
  Build_Message (m_domain m) v (m_subjectTplSrc m) (m_subjectTpl m) (m_sender m) (m_from m) (m_replyTo m) (m_to m) (m_cc m) (m_bcc m) (m_parts m) (m_text m) (m_html m) (m_attachments m) (m_errors m) (m_prepared m).
Definition set_subjectTplSrc (v : bytes) (m : Message) : Message :=
  Build_Message (m_domain m) (m_subject m) v (m_subjectTpl m) (m_sender m) (m_from m) (m_replyTo m) (m_to m) (m_cc m) (m_bcc m) (m_parts m) (m_text m) (m_html m) (m_attachments m) (m_errors m) (m_prepared m).
Definition set_subjectTpl (v : option ttpl) (m : Message) : Message :=
  Build_Message (m_domain m) (m_subject m) (m_subjectTplSrc m) v (m_sender m) (m_from m) (m_replyTo m) (m_to m) (m_cc m) (m_bcc m) (m_parts m) (m_text m) (m_html m) (m_attachments m) (m_errors m) (m_prepared m).
Definition set_sender (v : option Sender) (m : Message) : Message :=
  Build_Message (m_domain m) (m_subject m) (m_subjectTplSrc m) (m_subjectTpl m) v (m_from m) (m_replyTo m) (m_to m) (m_cc m) (m_bcc m) (m_parts m) (m_text m) (m_html m) (m_attachments m) (m_errors m) (m_prepared m).
Definition set_from (v : option Address) (m : Message) : Message :=
  Build_Message (m_domain m) (m_subject m) (m_subjectTplSrc m) (m_subjectTpl m) (m_sender m) v (m_replyTo m) (m_to m) (m_cc m) (m_bcc m) (m_parts m) (m_text m) (m_html m) (m_attachments m) (m_errors m) (m_prepared m).
Definition set_replyTo (v : option Address) (m : Message) : Message :=
  Build_Message (m_domain m) (m_subject m) (m_subjectTplSrc m) (m_subjectTpl m) (m_sender m) (m_from m) v (m_to m) (m_cc m) (m_bcc m) (m_parts m) (m_text m) (m_html m) (m_attachments m) (m_errors m) (m_prepared m).
Definition set_to (v : list Address) (m : Message) : Message :=
  Build_Message (m_domain m) (m_subject m) (m_subjectTplSrc m) (m_subjectTpl m) (m_sender m) (m_from m) (m_replyTo m) v (m_cc m) (m_bcc m) (m_parts m) (m_text m) (m_html m) (m_attachments m) (m_errors m) (m_prepared m).
Definition set_cc (v : list Address) (m : Message) : Message :=
  Build_Message (m_domain m) (m_subject m) (m_subjectTplSrc m) (m_subjectTpl m) (m_sender m) (m_from m) (m_replyTo m) (m_to m) v (m_bcc m) (m_parts m) (m_text m) (m_html m) (m_attachments m) (m_errors m) (m_prepared m).
Definition set_bcc (v : list Address) (m : Message) : Message :=
  Build_Message (m_domain m) (m_subject m) (m_subjectTplSrc m) (m_subjectTpl m) (m_sender m) (m_from m) (m_replyTo m) (m_to m) (m_cc m) v (m_parts m) (m_text m) (m_html m) (m_attachments m) (m_errors m) (m_prepared m).
Definition set_parts (v : list part) (m : Message) : Message :=
  Build_Message (m_domain m) (m_subject m) (m_subjectTplSrc m) (m_subjectTpl m) (m_sender m) (m_from m) (m_replyTo m) (m_to m) (m_cc m) (m_bcc m) v (m_text m) (m_html m) (m_attachments m) (m_errors m) (m_prepared m).
Definition set_text (v : option nat) (m : Message) : Message :=
  Build_Message (m_domain m) (m_subject m) (m_subjectTplSrc m) (m_subjectTpl m) (m_sender m) (m_from m) (m_replyTo m) (m_to m) (m_cc m) (m_bcc m) (m_parts m) v (m_html m) (m_attachments m) (m_errors m) (m_prepared m).
Definition set_html (v : option nat) (m : Message) : Message :=
  Build_Message (m_domain m) (m_subject m) (m_subjectTplSrc m) (m_subjectTpl m) (m_sender m) (m_from m) (m_replyTo m) (m_to m) (m_cc m) (m_bcc m) (m_parts m) (m_text m) v (m_attachments m) (m_errors m) (m_prepared m).
Definition set_attachments (v : list loc) (m : Message) : Message :=
  Build_Message (m_domain m) (m_subject m) (m_subjectTplSrc m) (m_subjectTpl m) (m_sender m) (m_from m) (m_replyTo m) (m_to m) (m_cc m) (m_bcc m) (m_parts m) (m_text m) (m_html m) v (m_errors m) (m_prepared m).
Definition set_errors (v : list bytes) (m : Message) : Message :=
  Build_Message (m_domain m) (m_subject m) (m_subjectTplSrc m) (m_subjectTpl m) (m_sender m) (m_from m) (m_replyTo m) (m_to m) (m_cc m) (m_bcc m) (m_parts m) (m_text m) (m_html m) (m_attachments m) v (m_prepared m).
Definition set_prepared (v : bool) (m : Message) : Message :=
  Build_Message (m_domain m) (m_subject m) (m_subjectTplSrc m) (m_subjectTpl m) (m_sender m) (m_from m) (m_replyTo m) (m_to m) (m_cc m) (m_bcc m) (m_parts m) (m_text m) (m_html m) (m_attachments m) (m_errors m) v.

Definition zero_Message : Message :=
  Build_Message [] [] [] None None None None [] [] [] [] None None [] [] false.

Definition add_error (e : bytes) (m : Message) : Message :=
  set_errors (m_errors m ++ [e]) m.

Definition Message_Domain (domain : bytes) (m : Message) : Message := set_domain domain m.

Definition Message_setSender (s : option Sender) (m : Message) : Message := set_sender s m.

Definition Message_Subject (subject : bytes) (m : Message) : Message := set_subject subject m.

Definition Message_SubjectTemplate (tpl : bytes) (m : Message) : Message :=
  if negb (len tpl =? 0) then
    match ttpl_Parse tpl with
    | inr err =>
        add_error (B "invalid subject template:" ++ [LF] ++ tpl ++ [LF] ++ B "error: " ++ err) m
    | inl t => set_subjectTpl (Some t) (set_subjectTplSrc tpl m)
    end
  else set_subjectTpl None (set_subjectTplSrc tpl m).

(** The address setters take [*Address] arguments, which may be nil. *)
Definition Message_From (addr : option Address) (m : Message) : Message :=
  let addr :=
    match addr with
    | Some a => if negb (SeemsValidAddr (Addr a)) then None else Some a
    | None => None
    end in
  set_from addr m.

Fixpoint keep_valid (lst : list Address) (addr : list (option Address)) : list Address :=
  match addr with
  | [] => lst
  | a :: rest =>
      match a with
      | Some a' => if SeemsValidAddr (Addr a') then keep_valid (lst ++ [a']) rest
                   else keep_valid lst rest
      | None => keep_valid lst rest
      end
  end.

Definition Message_To (addr : list (option Address)) (m : Message) : Message :=
  set_to (keep_valid [] addr) m.

Definition Message_Cc (addr : list (option Address)) (m : Message) : Message :=
  set_cc (keep_valid [] addr) m.

Definition Message_Bcc (addr : list (option Address)) (m : Message) : Message :=
  set_bcc (keep_valid [] addr) m.

Definition Message_ReplyTo (addr : option Address) (m : Message) : Message :=
  let addr :=
    match addr with
    | Some a => if negb (SeemsValidAddr (Addr a)) then None else Some a
    | None => None
    end in
  set_replyTo addr m.

Definition Message_Part (ctype : bytes) (cte : CTE) (b : bytes) (related : list Related)
    (m : Message) : Message :=
  set_prepared false
    (set_parts (m_parts m ++
       [{| part_ctype := ctype; part_cte := cte; part_bytes := b; part_tplSrc := [];
           part_tpl := None; part_htmlTplSrc := []; part_htmlTpl := None;
           part_related := related |}]) m).

(** [if m.text == nil { m.text = &part{}; m.parts = append(m.parts, m.text) }]
    followed by the assignment through the pointer. *)
Definition Message_Text (text : bytes) (m : Message) : Message :=
  let m := match m_text m with
           | None => set_parts (m_parts m ++ [zero_part]) (set_text (Some (length (m_parts m))) m)
           | Some _ => m
           end in
  set_parts (<[default 0%nat (m_text m) :=
      {| part_ctype := B "text/plain; charset=utf-8"; part_cte := QuotedPrintable;
         part_bytes := text; part_tplSrc := []; part_tpl := None;
         part_htmlTplSrc := []; part_htmlTpl := None; part_related := [] |}]> (m_parts m)) m.

Definition Message_Html (html : bytes) (related : list Related) (m : Message) : Message :=
  let m := match m_html m with
           | None => set_parts (m_parts m ++ [zero_part]) (set_html (Some (length (m_parts m))) m)
           | Some _ => m
           end in
  set_prepared false
    (set_parts (<[default 0%nat (m_html m) :=
      {| part_ctype := B "text/html; charset=utf-8"; part_cte := QuotedPrintable;
         part_bytes := html; part_tplSrc := []; part_tpl := None;
         part_htmlTplSrc := []; part_htmlTpl := None; part_related := related |}]> (m_parts m)) m).

Definition Message_TextTemplate (tpl : bytes) (m : Message) : Message :=
  let parsed : option ttpl + bytes :=
    if negb (len tpl =? 0) then
      match ttpl_Parse tpl with inl t => inl (Some t) | inr err => inr err end
    else inl None in
  match parsed with
  | inr err =>
      add_error (B "invalid text template:" ++ [LF] ++ tpl ++ [LF] ++ B "error: " ++ err) m
  | inl t =>
      let m := match m_text m with
               | None => set_parts (m_parts m ++ [zero_part])
                           (set_text (Some (length (m_parts m))) m)
               | Some _ => m
               end in
      set_parts (<[default 0%nat (m_text m) :=
          {| part_ctype := B "text/plain; charset=utf-8"; part_cte := QuotedPrintable;
             part_bytes := []; part_tplSrc := tpl; part_tpl := t;
             part_htmlTplSrc := []; part_htmlTpl := None; part_related := [] |}]> (m_parts m)) m
  end.

Definition Message_HtmlTemplate (tpl : bytes) (related : list Related) (m : Message)
  : Message :=
  let parsed : option htpl + bytes :=
    if negb (len tpl =? 0) then
      match htpl_Parse tpl with inl t => inl (Some t) | inr err => inr err end
    else inl None in
  match parsed with
  | inr err =>
      add_error (B "invalid html template:" ++ [LF] ++ tpl ++ [LF] ++ B "error: " ++ err) m
  | inl t =>
      let m := match m_html m with
               | None => set_parts (m_parts m ++ [zero_part])
                           (set_html (Some (length (m_parts m))) m)
               | Some _ => m
               end in
      set_prepared false
        (set_parts (<[default 0%nat (m_html m) :=
          {| part_ctype := B "text/html; charset=utf-8"; part_cte := QuotedPrintable;
             part_bytes := []; part_tplSrc := []; part_tpl := None;
             part_htmlTplSrc := tpl; part_htmlTpl := t; part_related := related |}]>
            (m_parts m)) m)
  end.

Fixpoint Attach_loop (file : list bytes) (m : Message) (h : heap) : Message * heap :=
  match file with
  | [] => (m, h)
  | fileName :: rest =>
      let '(l, h) := heap_new h {| att_name := []; att_ctype := [];
                                   att_fileName := fileName; att_data := [] |} in
      Attach_loop rest (set_attachments (m_attachments m ++ [l]) m) h
  end.

Definition Message_Attach (file : list bytes) (m : Message) (h : heap) : Message * heap :=
  let '(m, h) := Attach_loop file m h in (set_prepared false m, h).

Definition Message_AttachFile (name ctype file : bytes) (m : Message) (h : heap)
  : Message * heap :=
  let '(l, h) := heap_new h {| att_name := name; att_ctype := ctype;
                               att_fileName := file; att_data := [] |} in
  (set_prepared false (set_attachments (m_attachments m ++ [l]) m), h).

Definition Message_AttachObject (name ctype data : bytes) (m : Message) (h : heap)
  : Message * heap :=
  let '(l, h) := heap_new h {| att_name := name; att_ctype := ctype;
                               att_fileName := []; att_data := data |} in
  (set_attachments (m_attachments m ++ [l]) m, h).

(** *** prepare

    In [for _, r := range p.related] the variable [r] is a copy of the
    element, so the assignment [r.data = file] is lost when the iteration
    ends: the loops over the related items only collect errors. *)
Fixpoint prepare_related (force : bool) (rs : list Related) (errs : list bytes) (allOk : bool)
  : list bytes * bool :=
  match rs with
  | [] => (errs, allOk)
  | r :: rest =>
      if negb (len (rel_fileName r) =? 0) && (force || (len (rel_data r) =? 0)) then
        match ReadFile (rel_fileName r) with
        | inl file => prepare_related force rest errs allOk
        | inr err =>
            prepare_related force rest
              (errs ++ [B "cannot read file: " ++ rel_fileName r ++ B ": " ++ err]) false
        end
      else prepare_related force rest errs allOk
  end.

Fixpoint prepare_parts (force : bool) (ps : list part) (errs : list bytes) (allOk : bool)
  : list bytes * bool :=
  match ps with
  | [] => (errs, allOk)
  | p :: rest =>
      let '(errs, allOk) := prepare_related force (part_related p) errs allOk in
      prepare_parts force rest errs allOk
  end.

(** The attachments are reached through their pointers: the writes to
    [a.data], [a.name] and [a.ctype] go to the store. *)
Fixpoint prepare_attachments (force : bool) (ls : list loc) (h : heap)
    (errs : list bytes) (allOk : bool) : heap * list bytes * bool :=
  match ls with
  | [] => (h, errs, allOk)
  | l :: rest =>
      let a := cells h l in
      if negb (len (att_fileName a) =? 0) && (force || (len (att_data a) =? 0)) then
        match ReadFile (att_fileName a) with
        | inl file =>
            let name := if len (att_name a) =? 0 then filepath_Base (att_fileName a)
                        else att_name a in
            let ctype := if len (att_ctype a) =? 0
                         then mime_TypeByExtension (filepath_Ext (att_fileName a))
                         else att_ctype a in
            prepare_attachments force rest
              (heap_set h l {| att_name := name; att_ctype := ctype;
                               att_fileName := att_fileName a; att_data := file |})
              errs allOk
        | inr err =>
            prepare_attachments force rest h
              (errs ++ [B "cannot read file: " ++ att_fileName a ++ B ": " ++ err]) false
        end
      else prepare_attachments force rest h errs allOk
  end.

Definition Message_prepare (force : bool) (m : Message) (h : heap) : Message * heap :=
  if m_prepared m && negb force then (m, h)
  else
    let '(errs, allOk) := prepare_parts force (m_parts m) (m_errors m) true in
    let '(h, errs, allOk) := prepare_attachments force (m_attachments m) h errs allOk in
    (set_prepared allOk (set_errors errs m), h).

Definition Message_Prepare (m : Message) (h : heap) : Message * heap :=
  Message_prepare false m h.

Definition Message_PrepareFresh (m : Message) (h : heap) : Message * heap :=
  Message_prepare true m h.

(** *** Compose *)

(** The [switch] that resolves the From address; [dflt] is the package
    variable [defaultSender]. *)
Definition resolve_from (dflt : option Sender) (m : Message) : option Address :=
  match m_from m with
  | Some a => Some a
  | None =>
      match m_sender m ≫= address with
      | Some a => Some a
      | None => dflt ≫= address
      end
  end.

(** The loop that executes the templates of the parts. *)
Fixpoint execute_parts (d : tpl_data) (partNo : Z) (ps : list part) (errs : list bytes)
  : list part * list bytes :=
  match ps with
  | [] => ([], errs)
  | partData :: rest =>
      let '(partData, errs) :=
        match part_tpl partData with
        | Some t =>
            let '(out, err) := ttpl_Execute t d in
            (part_set_bytes out partData,
             match err with
             | Some e => errs ++ [B "failed Execute on part[" ++ Itoa partNo
                                    ++ B "] template: " ++ e]
             | None => errs
             end)
        | None =>
            match part_htmlTpl partData with
            | Some t =>
                let '(out, err) := htpl_Execute t d in
                (part_set_bytes out partData,
                 match err with
                 | Some e => errs ++ [B "failed Execute on part[" ++ Itoa partNo
                                        ++ B "] html template: " ++ e]
                 | None => errs
                 end)
            | None => (partData, errs)
            end
        end in
      let '(rest, errs) := execute_parts d (partNo + 1) rest errs in
      (partData :: rest, errs)
  end.

(** The closure [listAddrs]. *)
Fixpoint listAddrs_loop (i : Z) (list : list Address) (offset : Z) (addrs : buffer) : buffer :=
  match list with
  | [] => addrs
  | item :: rest =>
      let '(addrs, offset) :=
        if i >? 0 then
          if offset <? 75 then (Write addrs [WString (B ", ")], int_add offset 2)
          else if offset <? 76 then (Write addrs [WString (B "," ++ CRLF ++ B " ")], 1)
          else (Write addrs [WString (CRLF ++ B " , ")], 3)
        else (addrs, offset) in
      let '(addr, offset) := Address_encode item offset in
      listAddrs_loop (i + 1) rest offset (Write addrs [WBytes addr])
  end.

Definition listAddrs (list : list Address) (offset : Z) : bytes := listAddrs_loop 0 list offset [].

(** [Base64Encode(hash[:])[:43]]; slicing beyond the capacity panics. *)
Definition slice_to (n : Z) (b : bytes) : option bytes :=
  if n <=? len b then Some (take (Z.to_nat n) b) else None.

Definition make_uid (ts subject : bytes) : option bytes :=
  b ← Base64Encode (hash_bytes (sha256_Sum256 (ts ++ subject)));
  slice_to 43 b.

Fixpoint write_related (pn uid : bytes) (rs : list Related) (msg : buffer) : option buffer :=
  match rs with
  | [] => Some msg
  | relData :: rest =>
      let msg := Write msg [WString (CRLF ++ B "--=_r"); WString pn; WBytes uid; WString CRLF] in
      b ← Base64Encode (rel_data relData);
      let msg := Write msg [WString (B "Content-Type: "); WString (rel_ctype relData);
                            WString (CRLF ++ B "Content-Transfer-Encoding: base64" ++ CRLF ++ CRLF);
                            WBytes b; WString CRLF] in
      write_related pn uid rest msg
  end.

Fixpoint write_parts (alt : bool) (uid : bytes) (partNo : Z) (ps : list part) (msg : buffer)
  : option buffer :=
  match ps with
  | [] => Some msg
  | partData :: rest =>
      let msg := if alt then Write msg [WString (CRLF ++ B "--=_a"); WBytes uid; WString CRLF]
                 else msg in
      let pn := Itoa partNo in
      let msg :=
        if len (part_related partData) >? 0 then
          Write msg [WString (B "Content-Type: multipart/related;" ++ CRLF ++ [TAB] ++ B "boundary==_r");
                     WString pn; WBytes uid;
                     WString (CRLF ++ CRLF ++ B "--=_r"); WString pn; WBytes uid; WString CRLF]
        else msg in
      msg ←
        match part_cte partData with
        | Base64 =>
            b ← Base64Encode (part_bytes partData);
            Some (Write msg [WString (B "Content-Type: "); WString (part_ctype partData);
                             WString (CRLF ++ B "Content-Transfer-Encoding: base64" ++ CRLF ++ CRLF);
                             WBytes b; WString CRLF])
        | _ =>
            Some (Write msg [WString (B "Content-Type: "); WString (part_ctype partData);
                             WString (CRLF ++ B "Content-Transfer-Encoding: quoted-printable"
                                           ++ CRLF ++ CRLF);
                             WBytes (QuotedPrintableEncode (part_bytes partData)); WString CRLF])
        end;
      msg ← write_related pn uid (part_related partData) msg;
      let msg := if len (part_related partData) >? 0
                 then Write msg [WString (CRLF ++ B "--=_r"); WString pn; WBytes uid;
                                 WString (B "--" ++ CRLF)]
                 else msg in
      write_parts alt uid (partNo + 1) rest msg
  end.

Fixpoint write_attachments (uid : bytes) (h : heap) (ls : list loc) (msg : buffer)
  : option buffer :=
  match ls with
  | [] => Some msg
  | l :: rest =>
      let attData := cells h l in
      let msg := Write msg [WString (CRLF ++ B "--=_m"); WBytes uid; WString CRLF] in
      b ← Base64Encode (att_data attData);
      let msg := Write msg [WString (B "Content-Type: "); WString (att_ctype attData);
                            WString (CRLF ++ B "Content-Disposition: attachment;" ++ CRLF
                                          ++ [TAB] ++ B "filename=");
                            WString (att_name attData);
                            WString (CRLF ++ B "Content-Transfer-Encoding: base64" ++ CRLF ++ CRLF);
                            WBytes b; WString CRLF] in
      write_attachments uid h rest msg
  end.

(** Everything after the gate [if len(m.errors) != 0], in the two blocks of
    the source: the header lines up to [MIME-Version], then the body. *)
Definition write_headers (uid domain ts : bytes) (from : Address) (m : Message)
    (msg : buffer) : buffer :=
  let msg := Write msg [WString (B "Message-ID: <"); WBytes uid; WRune 64; WBytes domain;
                        WString (B ">" ++ CRLF)] in
  let msg := Write msg [WString (B "Date: "); WBytes ts; WString CRLF] in
  let msg := Write msg [WString (B "Subject: "); WBytes (QEncodeIfNeeded (m_subject m) 9);
                        WString CRLF] in
  let '(addr, _) := Address_encode from 6 in
  let msg := Write msg [WString (B "From: "); WBytes addr; WString CRLF] in
  let msg :=
    match m_replyTo m with
    | Some r =>
        if negb (len (Addr r) =? 0) && negb (bool_decide (Addr r = Addr from)) then
          let '(addr, _) := Address_encode r 10 in
          Write msg [WString (B "Reply-To: "); WBytes addr; WString CRLF]
        else msg
    | None => msg
    end in
  let recpts := m_to m in
  let recpts := if len recpts =? 0 then [from] else recpts in
  let msg := Write msg [WString (B "To: "); WBytes (listAddrs recpts 4); WString CRLF] in
  let msg := if len (m_cc m) >? 0
             then Write msg [WString (B "Cc: "); WBytes (listAddrs (m_cc m) 4); WString CRLF]
             else msg in
  Write msg [WString (B "MIME-Version: 1.0" ++ CRLF)].

Definition write_body (uid : bytes) (m : Message) (h : heap) (msg : buffer)
  : option buffer :=
  let msg :=
    if len (m_attachments m) >? 0 then
      Write msg [WString (B "Content-Type: multipart/mixed;" ++ CRLF ++ [TAB] ++ B "boundary==_m");
                 WBytes uid; WString (CRLF ++ CRLF ++ B "--=_m"); WBytes uid; WString CRLF]
    else msg in
  let alt := bool_decide (m_html m <> None) || (len (m_parts m) >? 1) in
  let msg :=
    if alt then
      Write msg [WString (B "Content-Type: multipart/alternative;" ++ CRLF ++ [TAB]
                            ++ B "boundary==_a"); WBytes uid; WString CRLF]
    else msg in
  let msg :=
    match m_html m, m_text m with
    | Some hi, None =>
        let msg := if alt then Write msg [WString (CRLF ++ B "--=_a"); WBytes uid; WString CRLF]
                   else msg in
        Write msg [WString (B "Content-Type: text/plain; charset=utf-8" ++ CRLF
                              ++ B "Content-Transfer-Encoding: quoted-printable" ++ CRLF ++ CRLF);
                   WBytes (QuotedPrintableEncode
                             (htmlToText (part_bytes (nth hi (m_parts m) zero_part))));
                   WString CRLF]
    | _, _ => msg
    end in
  msg ← write_parts alt uid 0 (m_parts m) msg;
  let msg := if alt then Write msg [WString (CRLF ++ B "--=_a"); WBytes uid; WString (B "--" ++ CRLF)]
             else msg in
  msg ← write_attachments uid h (m_attachments m) msg;
  let msg := if len (m_attachments m) >? 0
             then Write msg [WString (CRLF ++ B "--=_m"); WBytes uid; WString (B "--" ++ CRLF)]
             else msg in
  Some msg.

Definition compose_message (ts : bytes) (from : Address) (m : Message) (h : heap)
  : option bytes :=
  let domain := m_domain m in
  let domain := if len domain =? 0 then Address_Domain from else domain in
  uid ← make_uid ts (m_subject m);
  let msg : buffer := [] in
  let msg := write_headers uid domain ts from m msg in
  write_body uid m h msg.

(** The template step of [Compose]: the subject template, the templates of
    the parts, and the check that there is a part at all. *)
Definition render_templates (d : tpl_data) (m : Message) : Message :=
  let m :=
    match m_subjectTpl m with
    | Some t =>
        let '(out, err) := ttpl_Execute t d in
        let m := match err with
                 | Some e => add_error (B "failed Execute on subject template: " ++ e) m
                 | None => m
                 end in
        set_subject out m
    | None => m
    end in
  let '(ps, errs) := execute_parts d 0 (m_parts m) (m_errors m) in
  let m := set_errors errs (set_parts ps m) in
  if len (m_parts m) =? 0 then add_error (B "message has no parts") m else m.

(** [Compose]: the bytes returned, the message and the store afterwards;
    [None] is a panic.  [ts] is [now().In(time.UTC).Format(time.RFC1123Z)]. *)
Definition Message_Compose (dflt : option Sender) (ts : bytes) (d : tpl_data)
    (m : Message) (h : heap) : option (bytes * Message * heap) :=
  match resolve_from dflt m with
  | None => Some ([], add_error (B "no From address") m, h)
  | Some from =>
      let m := render_templates d m in
      let '(m, h) := Message_prepare false m h in
      if negb (len (m_errors m) =? 0) then Some ([], m, h)
      else
        out ← compose_message ts from m h;
        Some (out, m, h)
  end.

Definition Message_FromAddr (dflt : option Sender) (m : Message) : bytes :=
  match resolve_from dflt m with
  | Some from => Addr from
  | None => []
  end.

(** The three loops of [RecipientAddrs] over [m.to], [m.cc] and [m.bcc]. *)
Fixpoint add_unseen (vals : list Address) (to : list bytes) (seen : gset bytes)
  : list bytes * gset bytes :=
  match vals with
  | [] => (to, seen)
  | val :: rest =>
      let addr := Addr val in
      if bool_decide (addr ∈ seen) then add_unseen rest to seen
      else add_unseen rest (to ++ [addr]) ({[addr]} ∪ seen)
  end.

Definition Message_RecipientAddrs (dflt : option Sender) (m : Message) : list bytes :=
  let '(to, seen) :=
    if len (m_to m) =? 0 then
      let addr := Message_FromAddr dflt m in ([addr], ({[addr]} : gset bytes))
    else ([], ∅) in
  let '(to, seen) := add_unseen (m_to m) to seen in
  let '(to, seen) := add_unseen (m_cc m) to seen in
  let '(to, seen) := add_unseen (m_bcc m) to seen in
  to.

Definition Message_HasErrors (m : Message) : bool := len (m_errors m) >? 0.

Definition Message_Errors (m : Message) : list bytes * Message := (m_errors m, set_errors [] m).

(** *** NewMessage *)

Definition clone_part (partData : part) : part :=
  {| part_ctype := part_ctype partData;
     part_cte := part_cte partData;
     part_bytes := if len (part_bytes partData) >? 0 then part_bytes partData else [];
     part_tplSrc := part_tplSrc partData;
     part_tpl := if negb (len (part_tplSrc partData) =? 0)
                 then match ttpl_Parse (part_tplSrc partData) with
                      | inl t => Some t | inr _ => None end
                 else None;
     part_htmlTplSrc := part_htmlTplSrc partData;
     part_htmlTpl := if negb (len (part_htmlTplSrc partData) =? 0)
                     then match htpl_Parse (part_htmlTplSrc partData) with
                          | inl t => Some t | inr _ => None end
                     else None;
     part_related := if len (part_related partData) >? 0 then part_related partData else [] |}.

(** The role pointers are carried over when they are found among the parts:
    [if msg.text == partData { m.text = p }]. *)
Definition clone_role (n : nat) (r : option nat) : option nat :=
  match r with
  | Some i => if (i <? n)%nat then Some i else None
  | None => None
  end.

Definition NewMessage (msg : option Message) : Message :=
  match msg with
  | None => set_prepared true zero_Message
  | Some msg =>
      {| m_domain := m_domain msg;
         m_subject := m_subject msg;
         m_subjectTplSrc := m_subjectTplSrc msg;
         m_subjectTpl := if negb (len (m_subjectTplSrc msg) =? 0)
                         then match ttpl_Parse (m_subjectTplSrc msg) with
                              | inl t => Some t | inr _ => None end
                         else None;
         m_sender := m_sender msg;
         m_from := Address_Clone (m_from msg);
         m_replyTo := Address_Clone (m_replyTo msg);
         m_to := addrList_Clone (m_to msg);
         m_cc := addrList_Clone (m_cc msg);
         m_bcc := addrList_Clone (m_bcc msg);
         m_parts := map clone_part (m_parts msg);
         m_text := clone_role (length (m_parts msg)) (m_text msg);
         m_html := clone_role (length (m_parts msg)) (m_html msg);
         m_attachments := m_attachments msg;
         m_errors := [];
         m_prepared := m_prepared msg |}
  end.

Definition QuickMessage (subject : bytes) (body : list bytes) : Message :=
  let msg := set_prepared true (set_subject subject zero_Message) in
  let msg := match body with b0 :: _ => Message_Text b0 msg | [] => msg end in
  match body with _ :: b1 :: _ => Message_Html b1 [] msg | _ => msg end.

(** *** Send (buffer.go)

    [Sender.Send]: the error returned, the message and the store afterwards,
    and the call to [smtp.SendMail] the goroutine is started with, if any.
    The arguments of the [go] statement are evaluated before it starts. *)
Definition Sender_Send (dflt : option Sender) (ts : bytes) (s : Sender)
    (msg : option Message) (d : tpl_data) (h : heap)
  : option (option bytes * option (Message * heap) * option smtp_call) :=
  match msg with
  | None => Some (Some (B "Sender.Send: no message to send"), None, None)
  | Some msg =>
      '(body, msg, h) ← Message_Compose dflt ts d (Message_setSender (Some s) msg) h;
      if Message_HasErrors msg
      then Some (Some (B "Sender.Send: failed to compose message"), Some (msg, h), None)
      else
        Some (None, Some (msg, h),
              Some {| smtp_addr := host s ++ B ":" ++ Itoa (port s);
                      smtp_username := username s; smtp_password := password s;
                      smtp_host := host s;
                      smtp_from := Message_FromAddr dflt msg;
                      smtp_to := Message_RecipientAddrs dflt msg;
                      smtp_body := body |})
  end.

(** The package function [Send], which uses [defaultSender]. *)
Definition Send (dflt : option Sender) (ts : bytes) (msg : option Message)
    (d : tpl_data) (h : heap)
  : option (option bytes * option (Message * heap) * option smtp_call) :=
  match dflt with
  | None => Some (Some (B "Send: no default sender"), None, None)
  | Some sender => Sender_Send dflt ts sender msg d h
  end.

End message.

(** * Reference definitions

    What the properties below are stated against: decoders, the standard
    base64, the layout of a message, and a small world for the examples. *)

(** ** Reference definitions for the base64 claim *)
(** The standard alphabet of RFC 4648. *)
Definition std_alphabet : bytes :=
  B "ABCDEFGHIJKLMNOPQRSTUVWXYZabcdefghijklmnopqrstuvwxyz0123456789+/".

Definition std_char (i : N) : byte := nth (N.to_nat i) std_alphabet x00.

(** The four sextets of a group of three bytes. *)
Definition sextet_a (a : byte) : N := (bval a / 4)%N.

Definition sextet_ab (a b : byte) : N := (bval a mod 4 * 16 + bval b / 16)%N.

Definition sextet_bc (b c : byte) : N := (bval b mod 16 * 4 + bval c / 64)%N.

Definition sextet_c (c : byte) : N := (bval c mod 64)%N.

(** Standard base64 with padding: three bytes give four characters; one or
    two bytes left over are completed with zero bits and padded with ['=']. *)
Fixpoint std_base64 (src : bytes) : bytes :=
  match src with
  | [] => []
  | [a] =>
      [std_char (sextet_a a); std_char (sextet_ab a x00); "="%byte; "="%byte]
  | [a; b] =>
      [std_char (sextet_a a); std_char (sextet_ab a b); std_char (sextet_bc b x00); "="%byte]
  | a :: b :: c :: rest =>
      [std_char (sextet_a a); std_char (sextet_ab a b);
       std_char (sextet_bc b c); std_char (sextet_c c)] ++ std_base64 rest
  end.

(** Breaking a string into lines of at most 76 characters separated by CRLF:
    while more than 76 characters are left, take 76 and a CRLF. *)
Fixpoint wrap76_loop (fuel : nat) (b64 : bytes) : bytes :=
  match fuel with
  | O => b64
  | S fuel' =>
      if len b64 >? 76 then (take 76 b64 ++ CRLF) ++ wrap76_loop fuel' (drop 76 b64)
      else b64
  end.

Definition wrap76 (b64 : bytes) : bytes := wrap76_loop (length b64) b64.

(** The same wrapping, one character at a time, [col] characters being
    already on the line. *)
Fixpoint wrap_col (col : Z) (s : bytes) : bytes :=
  match s with
  | [] => []
  | c :: rest =>
      if col >=? 76 then CR :: LF :: c :: wrap_col 1 rest
      else c :: wrap_col (col + 1) rest
  end.

Definition below (n : nat) (P : N -> bool) : bool :=
  forallb (fun i => P (N.of_nat i)) (seq 0 n).

(** What the loop of [Base64Encode] leaves in [dst] from [pos] on, written
    with appends; [lpos] characters are on the current line. *)
Fixpoint b64_lines (lpos : Z) (src : bytes) : bytes :=
  match src with
  | [] => []
  | s0 :: tl =>
      let brk := if lpos =? 76 then CRLF else [] in
      match tl with
      | [] =>
          brk ++ [std_char (sextet_a s0); std_char (sextet_ab s0 x00); "="%byte; "="%byte]
      | [s1] =>
          brk ++ [std_char (sextet_a s0); std_char (sextet_ab s0 s1);
                  std_char (sextet_bc s1 x00); "="%byte]
      | s1 :: s2 :: rest =>
          brk ++ [std_char (sextet_a s0); std_char (sextet_ab s0 s1);
                  std_char (sextet_bc s1 s2); std_char (sextet_c s2)]
              ++ b64_lines (if lpos =? 76 then 4 else lpos + 4) rest
      end
  end.

(** [lpos] only takes the values 0, 4, ..., 76. *)
Definition line_pos (lpos : Z) : Prop := lpos = 76 \/ (0 <= lpos <= 72 /\ lpos mod 4 = 0).

(** ** Reference definitions for the two text encodings *)
Fixpoint is_prefix (p s : bytes) : bool :=
  match p, s with
  | [], _ => true
  | x :: p', y :: s' => Byte.eqb x y && is_prefix p' s'
  | _ :: _, [] => false
  end.

(** Removing every occurrence of the marker [mk], left to right; [skip]
    counts the bytes of a marker still to be dropped. *)
Fixpoint remove_marker_from (mk : bytes) (skip : nat) (s : bytes) : bytes :=
  match s with
  | [] => []
  | c :: rest =>
      match skip with
      | S k => remove_marker_from mk k rest
      | O => if is_prefix mk s then remove_marker_from mk (length mk - 1) rest
             else c :: remove_marker_from mk 0 rest
      end
  end.

Definition remove_marker (mk s : bytes) : bytes := remove_marker_from mk 0 s.

Definition hex_val (c : byte) : option N :=
  if byte_le "0" c && byte_le c "9" then Some (bval c - 48)%N
  else if byte_le "A" c && byte_le c "F" then Some (bval c - 55)%N
  else None.

(** Un-escaping every [=XX]. *)
Fixpoint unescape_hex (s : bytes) : bytes :=
  match s with
  | [] => []
  | c :: rest =>
      match rest with
      | h1 :: h2 :: rest' =>
          match (if Byte.eqb c "=" then (hex_val h1, hex_val h2) else (None, None)) with
          | (Some a, Some b) => byte_of_N (a * 16 + b) :: unescape_hex rest'
          | _ => c :: unescape_hex rest
          end
      | _ => c :: unescape_hex rest
      end
  end.

(** The soft line break of quoted-printable, [=CRLF]. *)
Definition soft_break : bytes := B "=" ++ CRLF.

(** Decoding quoted-printable as the specification words it: remove the
    soft breaks, then un-escape. *)
Definition qp_decode (s : bytes) : bytes := unescape_hex (remove_marker soft_break s).

Definition strip_prefix (p s : bytes) : bytes :=
  if is_prefix p s then drop (length p) s else s.

Definition strip_suffix (p s : bytes) : bytes :=
  if is_prefix (rev p) (rev s) then take (length s - length p) s else s.

Definition underscore_to_space (c : byte) : byte := if Byte.eqb c "_" then " "%byte else c.

(** Decoding a Q-encoded header value: drop the fold in front of the first
    encoded-word if there is one, take the text between [=?utf-8?q?] and
    [?=], remove the fold markers [?=CRLF SP =?utf-8?q?], turn [_] into a
    space and un-escape. *)
Definition q_decode (s : bytes) : bytes :=
  let s := strip_prefix (CRLF ++ B " ") s in
  let s := strip_suffix q_close (strip_prefix q_open s) in
  unescape_hex (map underscore_to_space (remove_marker q_fold s)).

(** The escapes of single bytes, with no line break. *)
Definition qp_byte (c : byte) : bytes :=
  if Byte.eqb c TAB || Byte.eqb c " "
     || (byte_le "!" c && byte_le c "~" && negb (Byte.eqb c "=")) then [c]
  else hex3 c.

Definition q_byte (c : byte) : bytes :=
  if Byte.eqb c " " then ["_"%byte]
  else if byte_le "!" c && byte_le c "~" && negb (Byte.eqb c "=")
          && negb (Byte.eqb c "?") && negb (Byte.eqb c "_") then [c]
  else hex3 c.

Definition qp_escape (s : bytes) : bytes := concat (map qp_byte s).

Definition q_escape (s : bytes) : bytes := concat (map q_byte s).

(** Lines joined by a separator. *)
Fixpoint join (sep : bytes) (ls : list bytes) : bytes :=
  match ls with
  | [] => []
  | l :: rest => match rest with [] => l | _ => l ++ sep ++ join sep rest end
  end.

(** Whether a sequence of bytes ends inside a multi-byte sequence: a lead
    byte [11xxxxxx] followed by continuation bytes [10xxxxxx] only. *)
Definition rune_state (st : bool) (c : byte) : bool :=
  if is_lead c then true else if is_cont c then st else false.

Definition in_rune (s : bytes) : bool := foldl rune_state false s.

Definition starts_cont (s : bytes) : bool :=
  match s with c :: _ => is_cont c | [] => false end.

(** Cutting the input between [before] and [after] separates a lead byte
    (and the continuation bytes after it) from a continuation byte. *)
Definition splits_rune (before after : bytes) : bool := in_rune before && starts_cont after.

(** The source is cut into the segments [segs], the first of them coming
    after [before]; no cut splits a multi-byte sequence. *)
Fixpoint good_breaks (before : bytes) (segs : list bytes) : bool :=
  match segs with
  | [] => true
  | s :: rest =>
      match rest with
      | [] => true
      | _ => negb (splits_rune (before ++ s) (concat rest)) && good_breaks (before ++ s) rest
      end
  end.

Definition ends_in_space (src : bytes) : bool :=
  match last src with
  | Some c => Byte.eqb c TAB || Byte.eqb c " "
  | None => false
  end.

(** Every byte of an escape, seen by the decoders. *)
Definition hex_ok (c : byte) : bool :=
  let h1 := index hextable (byte_shr c 4) in
  let h2 := index hextable (byte_and c 0x0f) in
  negb (Byte.eqb "=" h1) && negb (Byte.eqb "=" h2)
  && negb (Byte.eqb CR h1) && negb (Byte.eqb "?" h1) && negb (Byte.eqb "?" h2)
  && negb (Byte.eqb h1 "_") && negb (Byte.eqb h2 "_")
  && bool_decide (hex_val h1 = Some (byte_shr c 4))
  && bool_decide (hex_val h2 = Some (byte_and c 0x0f))
  && bool_decide (byte_of_N (byte_shr c 4 * 16 + byte_and c 0x0f) = c).

(** * The units of the text encoders *)
Definition high_byte (c : byte) : bool := is_lead c || is_cont c.

(** A unit is one byte that is not a lead byte, or a lead byte with all the
    continuation bytes after it. *)
Definition unit_of (c : byte) (rest u rest' : bytes) : Prop :=
  c :: rest = u ++ rest' /\ u <> []
  /\ forall st, st && is_cont c = false -> foldl rune_state st u && starts_cont rest' = false.

(** ** Reference definitions for the address claims *)
(** A control character (below [0x20], or [0x7F]) or a byte [>= 0x80]. *)
Definition control_or_high (c : byte) : bool := (bval c <? 0x20)%N || (0x7F <=? bval c)%N.

(** Printable ASCII that needs no escape inside a quoted string. *)
Definition plain_name_byte (c : byte) : bool :=
  (0x20 <=? bval c)%N && (bval c <=? 0x7E)%N
  && negb (Byte.eqb c DQUOTE) && negb (Byte.eqb c BSLASH).

(** ** The layout of a composed message

    The wire format the specification describes, built from the pieces it
    names: header lines, boundaries, delimiters and parts. *)
(** Base64 as a content transfer encoding: standard base64 in lines of 76. *)
Definition b64_body (data : bytes) : bytes := wrap76 (std_base64 data).

Definition boundary_mixed (token : bytes) : bytes := B "=_m" ++ token.

Definition boundary_alternative (token : bytes) : bytes := B "=_a" ++ token.

Definition boundary_related (partNo : Z) (token : bytes) : bytes :=
  B "=_r" ++ Itoa partNo ++ token.

(** [--boundary] and the closing [--boundary--]. *)
Definition delimiter (boundary : bytes) : bytes := B "--" ++ boundary ++ CRLF.

Definition close_delimiter (boundary : bytes) : bytes := B "--" ++ boundary ++ B "--" ++ CRLF.

Definition multipart_header (kind boundary : bytes) : bytes :=
  B "Content-Type: multipart/" ++ kind ++ B ";" ++ CRLF ++ [TAB] ++ B "boundary=" ++ boundary
    ++ CRLF.

Definition header_line (name value : bytes) : bytes := name ++ B ": " ++ value ++ CRLF.

Definition related_block (partNo : Z) (token : bytes) (r : Related) : bytes :=
  CRLF ++ delimiter (boundary_related partNo token)
    ++ header_line (B "Content-Type") (rel_ctype r)
    ++ header_line (B "Content-Transfer-Encoding") (B "base64") ++ CRLF
    ++ b64_body (rel_data r) ++ CRLF.

Definition attachment_block (token : bytes) (a : attachment) : bytes :=
  CRLF ++ delimiter (boundary_mixed token)
    ++ header_line (B "Content-Type") (att_ctype a)
    ++ B "Content-Disposition: attachment;" ++ CRLF ++ [TAB] ++ B "filename=" ++ att_name a
    ++ CRLF
    ++ header_line (B "Content-Transfer-Encoding") (B "base64") ++ CRLF
    ++ b64_body (att_data a) ++ CRLF.

Definition token_of (hash : bytes) : bytes := take 43 (std_base64 hash).

Section reference_1.
Context `{Collaborators}.

Definition part_content (p : part) : bytes :=
  header_line (B "Content-Type") (part_ctype p)
    ++ match part_cte p with
       | Base64 =>
           header_line (B "Content-Transfer-Encoding") (B "base64") ++ CRLF
             ++ b64_body (part_bytes p)
       | _ =>
           header_line (B "Content-Transfer-Encoding") (B "quoted-printable") ++ CRLF
             ++ QuotedPrintableEncode (part_bytes p)
       end
    ++ CRLF.

(** One body part: its delimiter inside a [multipart/alternative], and the
    [multipart/related] around it when it has related items. *)
Definition part_block (alt : bool) (token : bytes) (partNo : Z) (p : part) : bytes :=
  (if alt then CRLF ++ delimiter (boundary_alternative token) else [])
    ++ (if bool_decide (part_related p = []) then []
        else multipart_header (B "related") (boundary_related partNo token)
               ++ CRLF ++ delimiter (boundary_related partNo token))
    ++ part_content p
    ++ concat (map (related_block partNo token) (part_related p))
    ++ (if bool_decide (part_related p = []) then []
        else CRLF ++ close_delimiter (boundary_related partNo token)).

Fixpoint part_blocks (alt : bool) (token : bytes) (partNo : Z) (ps : list part) : bytes :=
  match ps with
  | [] => []
  | p :: rest => part_block alt token partNo p ++ part_blocks alt token (partNo + 1) rest
  end.

(** The plain text made from the HTML part when there is no text part. *)
Definition synthesized_text (alt : bool) (token : bytes) (html : bytes) : bytes :=
  (if alt then CRLF ++ delimiter (boundary_alternative token) else [])
    ++ header_line (B "Content-Type") (B "text/plain; charset=utf-8")
    ++ header_line (B "Content-Transfer-Encoding") (B "quoted-printable") ++ CRLF
    ++ QuotedPrintableEncode (htmlToText html) ++ CRLF.

(** The alternatives: the synthesized text, if any, and the parts. *)
Definition alternatives (alt : bool) (token : bytes) (parts : list part)
    (text html : option nat) : bytes :=
  match html, text with
  | Some hi, None => synthesized_text alt token (part_bytes (nth hi parts zero_part))
  | _, _ => []
  end ++ part_blocks alt token 0 parts.

Definition is_alternative (parts : list part) (html : option nat) : bool :=
  bool_decide (html <> None) || (len parts >? 1).

Definition mime_body (token : bytes) (parts : list part) (text html : option nat)
    (atts : list attachment) : bytes :=
  let alt := is_alternative parts html in
  (if bool_decide (atts = []) then []
   else multipart_header (B "mixed") (boundary_mixed token) ++ CRLF
          ++ delimiter (boundary_mixed token))
    ++ (if alt then multipart_header (B "alternative") (boundary_alternative token) else [])
    ++ alternatives alt token parts text html
    ++ (if alt then CRLF ++ close_delimiter (boundary_alternative token) else [])
    ++ concat (map (attachment_block token) atts)
    ++ (if bool_decide (atts = []) then []
        else CRLF ++ close_delimiter (boundary_mixed token)).

(** Whether the Reply-To header is written. *)
Definition wants_reply_to (from : Address) (replyTo : option Address) : option Address :=
  match replyTo with
  | Some r => if bool_decide (Addr r <> []) && bool_decide (Addr r <> Addr from)
              then Some r else None
  | None => None
  end.

Definition subject_value (subject : bytes) : bytes :=
  if forallb printable subject then subject else fst (QEncode subject 9).

Definition message_id_line (token domain : bytes) : bytes :=
  header_line (B "Message-ID") (B "<" ++ token ++ B "@" ++ domain ++ B ">").

(** The header lines after Message-ID, in the order they are written. *)
Definition later_headers (ts subject : bytes) (from : Address)
    (replyTo : option Address) (to cc : list Address) : bytes :=
  header_line (B "Date") ts
    ++ header_line (B "Subject") (subject_value subject)
    ++ header_line (B "From") (fst (Address_encode from 6))
    ++ match wants_reply_to from replyTo with
       | Some r => header_line (B "Reply-To") (fst (Address_encode r 10))
       | None => []
       end
    ++ header_line (B "To") (listAddrs (match to with [] => [from] | _ => to end) 4)
    ++ match cc with
       | [] => []
       | _ => header_line (B "Cc") (listAddrs cc 4)
       end
    ++ header_line (B "MIME-Version") (B "1.0").

Definition headers (token domain ts subject : bytes) (from : Address)
    (replyTo : option Address) (to cc : list Address) : bytes :=
  message_id_line token domain ++ later_headers ts subject from replyTo to cc.

Definition message_domain (m : Message) (from : Address) : bytes :=
  match m_domain m with [] => Address_Domain from | d => d end.

Definition message_token (ts : bytes) (m : Message) : bytes :=
  token_of (hash_bytes (sha256_Sum256 (ts ++ m_subject m))).

(** What [prepare] and the template step leave alone. *)
Definition same_envelope (m m' : Message) : Prop :=
  m_domain m' = m_domain m /\ m_sender m' = m_sender m /\ m_from m' = m_from m
  /\ m_replyTo m' = m_replyTo m /\ m_to m' = m_to m /\ m_cc m' = m_cc m
  /\ m_bcc m' = m_bcc m /\ m_text m' = m_text m /\ m_html m' = m_html m
  /\ m_attachments m' = m_attachments m /\ length (m_parts m') = length (m_parts m).

(** The address setters *)
Definition valid_address (a : Address) : bool := SeemsValidAddr (Addr a).

Definition valid_pointer (a : option Address) : bool :=
  match a with Some a => valid_address a | None => true end.

(** Every address stored in the message passes [SeemsValidAddr]. *)
Definition addresses_valid (m : Message) : bool :=
  valid_pointer (m_from m) && valid_pointer (m_replyTo m)
  && forallb valid_address (m_to m) && forallb valid_address (m_cc m)
  && forallb valid_address (m_bcc m).

(** What a setter keeps of its arguments: the non-nil, valid ones, in order. *)
Fixpoint kept (addr : list (option Address)) : list Address :=
  match addr with
  | [] => []
  | Some a :: rest => if valid_address a then a :: kept rest else kept rest
  | None :: rest => kept rest
  end.

End reference_1.

(** ** A small world for the examples *)
Definition zero_hash : hash32 := {| hash_bytes := replicate 32 x00; hash_length := eq_refl |}.

(** Templates are literal text, the readable files are those with a name of
    nine bytes, such as [notes.txt], and the hash is constant. *)
Definition example_world : Collaborators := {|
  tpl_data := unit;
  ttpl := bytes;
  htpl := bytes;
  ttpl_Parse := fun s => inl s;
  htpl_Parse := fun s => inl s;
  ttpl_Execute := fun t _ => (t, None);
  htpl_Execute := fun t _ => (t, None);
  ReadFile := fun f => if Nat.eqb (length f) 9 then inl (B "remember the milk")
                       else inr (B "no such file");
  filepath_Base := fun f => f;
  filepath_Ext := fun f => B ".txt";
  mime_TypeByExtension := fun _ => B "text/plain; charset=utf-8";
  sha256_Sum256 := fun _ => zero_hash;
  htmlToText := fun s => s |}.

Definition empty_heap : heap :=
  {| cells := fun _ => {| att_name := []; att_ctype := []; att_fileName := []; att_data := [] |};
     next := 0%nat |}.

Definition example_ts : bytes := B "Fri, 30 Aug 2013 09:10:11 +0000".

Definition example_from : Address := {| Name := B "test name"; Addr := B "test@example.com" |}.

(** A message with a text and an HTML body, a Cc and a Bcc recipient, and
    one in-memory attachment. *)
Definition example_message : @Message example_world * heap :=
  let m := NewMessage (H := example_world) None in
  let m := Message_Subject (B "Test #1") m in
  let m := Message_From (Some example_from) m in
  let m := Message_Cc [Some {| Name := []; Addr := B "cc@example.com" |}] m in
  let m := Message_Bcc [Some {| Name := []; Addr := B "bcc@example.com" |}] m in
  let m := Message_Text (B "Short test message") m in
  let m := Message_Html (B "<b>Short</b> test message") [] m in
  Message_AttachObject (B "a.bin") (B "application/octet-stream") (B "xyz") m empty_heap.

(** A message with one attachment still to be read from [notes.txt]. *)
Definition example_original : @Message example_world * heap :=
  let m := NewMessage (H := example_world) None in
  let m := Message_Text (B "see attachment") m in
  Message_Attach [B "notes.txt"] m empty_heap.

(** ** Reference definitions for address lists *)
(** What stands between two addresses of a list: a comma and a space, with
    the line folded after or before the comma when it is full. *)
Definition list_separator (s : bytes) : bool :=
  bool_decide (s = B ", ") || bool_decide (s = B "," ++ CRLF ++ B " ")
  || bool_decide (s = CRLF ++ B " , ").

(** Addresses, each after its separator and encoded at its column. *)
Fixpoint address_items (items : list (bytes * Z * Address)) : bytes :=
  match items with
  | [] => []
  | (sep, column, a) :: rest => sep ++ fst (Address_encode a column) ++ address_items rest
  end.

(** Whether [needle] occurs in [s]. *)
Fixpoint occurs (needle s : bytes) : bool :=
  is_prefix needle s || match s with [] => false | _ :: rest => occurs needle rest end.

(** A message whose only body part is HTML added with [Part], with one
    in-memory attachment. *)
Definition example_html_part : @Message example_world * heap :=
  let m := NewMessage (H := example_world) None in
  let m := Message_Subject (B "Test #2") m in
  let m := Message_From (Some example_from) m in
  let m := Message_Part (B "text/html; charset=utf-8") QuotedPrintable
             (B "<b>Short</b> test message") [] m in
  Message_AttachObject (B "a.bin") (B "application/octet-stream") (B "xyz") m empty_heap.

(** ** Lines *)
(** The lines of a text, cut at every CRLF; [cur] is the line being read. *)
Fixpoint lines_from (cur : bytes) (s : bytes) : list bytes :=
  match s with
  | [] => [cur]
  | c :: rest =>
      match rest with
      | d :: rest' =>
          if Byte.eqb c CR && Byte.eqb d LF then cur :: lines_from [] rest'
          else lines_from (cur ++ [c]) rest
      | [] => [cur ++ [c]]
      end
  end.

Definition lines (s : bytes) : list bytes := lines_from [] s.

(** A character of base64 text: one of the alphabet, or the padding. *)
Definition b64_text_byte (c : byte) : bool :=
  bool_decide (c ∈ base64table) || Byte.eqb c "=".

(** ** Reference definitions for addresses *)
(** A byte of the local part: printable, not a space, not ['@']. *)
Definition local_byte (c : byte) : bool :=
  byte_le "!" c && byte_le c "~" && negb (Byte.eqb c "@").

(** A byte of a domain label: as above, and none of [. [ ] \]. *)
Definition label_byte (c : byte) : bool :=
  local_byte c && negb (Byte.eqb c ".") && negb (Byte.eqb c "[") && negb (Byte.eqb c "]")
  && negb (Byte.eqb c BSLASH).

(** Reading a quoted string back: a backslash stands for the byte after it. *)
Fixpoint unquote (s : bytes) : bytes :=
  match s with
  | [] => []
  | c :: rest =>
      if Byte.eqb c BSLASH then
        match rest with
        | d :: rest' => d :: unquote rest'
        | [] => [c]
        end
      else c :: unquote rest
  end.

(** Whether a double quote occurs that no backslash escapes. *)
Fixpoint has_bare_quote (s : bytes) : bool :=
  match s with
  | [] => false
  | c :: rest =>
      if Byte.eqb c BSLASH then
        match rest with
        | _ :: rest' => has_bare_quote rest'
        | [] => false
        end
      else Byte.eqb c DQUOTE || has_bare_quote rest
  end.

(** ** The invariant of the template fields *)
(** A template field and its source: no template and no source, or the
    template is what parsing the source gives. *)
Definition parsed_from {T} (parse : bytes -> T + bytes) (src : bytes) (tpl : option T) : Prop :=
  match tpl with
  | None => src = []
  | Some t => src <> [] /\ parse src = inl t
  end.

(** A role pointer points at one of the parts. *)
Definition role_in_range (n : nat) (r : option nat) : Prop :=
  match r with
  | Some i => (i < n)%nat
  | None => True
  end.

Section reference_2.
Context `{Collaborators}.

Definition part_wf (p : part) : Prop :=
  parsed_from ttpl_Parse (part_tplSrc p) (part_tpl p)
  /\ parsed_from htpl_Parse (part_htmlTplSrc p) (part_htmlTpl p).

Definition Message_wf (m : Message) : Prop :=
  parsed_from ttpl_Parse (m_subjectTplSrc m) (m_subjectTpl m)
  /\ Forall part_wf (m_parts m)
  /\ role_in_range (length (m_parts m)) (m_text m)
  /\ role_in_range (length (m_parts m)) (m_html m).

End reference_2.

(** ** Reference definitions for the port of a Sender *)
(** The number a string of decimal digits denotes. *)
Definition decimal_value (digits : bytes) : Z :=
  fold_left (fun acc d => acc * 10 + (Z.of_N (bval d) - 48)) digits 0.

Definition is_digit (c : byte) : bool := byte_le "0" c && byte_le c "9".

Definition no_colon (s : bytes) : bool := forallb (fun c => negb (Byte.eqb c ":")) s.

(** ** Reference definitions for the lines of encoded text *)
Definition no_cr (s : bytes) : bool := forallb (fun c => negb (Byte.eqb c CR)) s.

(** Complete lines, each ended by CRLF, and the line being written. *)
Definition unlines (ls : list bytes) (cur : bytes) : bytes :=
  concat (map (fun l => l ++ CRLF) ls) ++ cur.

(** The number of continuation bytes a text starts with. *)
Fixpoint cont_run (s : bytes) : nat :=
  match s with
  | c :: rest => if is_cont c then S (cont_run rest) else 0
  | [] => 0
  end.

(** No lead byte is followed by more than three continuation bytes, as in
    every UTF-8 text. *)
Fixpoint short_runes (s : bytes) : bool :=
  match s with
  | [] => true
  | c :: rest => (negb (is_lead c) || (cont_run rest <=? 3)%nat) && short_runes rest
  end.

(** What a line of quoted-printable text is made of. *)
Definition qp_text_byte (c : byte) : bool := printable c || Byte.eqb c TAB.

(** What an encoded-word is made of: printable, no space, and ['?'] only in
    its delimiters. *)
Definition q_text_byte (c : byte) : bool := byte_le "!" c && byte_le c "~".

(** * QuotedPrintableEncode *)
Definition qp_line (l : bytes) : Prop := forallb qp_text_byte l = true /\ len l <= 76.

(** * QEncode *)
Definition q_line (l : bytes) : Prop := forallb printable l = true /\ len l <= 76.

(** A world like [example_world] in which a template that starts with a
    brace does not parse. *)
Definition strict_world : Collaborators := {|
  tpl_data := unit;
  ttpl := bytes;
  htpl := bytes;
  ttpl_Parse := fun s => match s with
                         | "{"%byte :: _ => inr (B "unexpected EOF")
                         | _ => inl s
                         end;
  htpl_Parse := fun s => match s with
                         | "{"%byte :: _ => inr (B "unexpected EOF")
                         | _ => inl s
                         end;
  ttpl_Execute := fun t _ => (t, None);
  htpl_Execute := fun t _ => (t, None);
  ReadFile := fun f => if Nat.eqb (length f) 9 then inl (B "remember the milk")
                       else inr (B "no such file");
  filepath_Base := fun f => f;
  filepath_Ext := fun f => B ".txt";
  mime_TypeByExtension := fun _ => B "text/plain; charset=utf-8";
  sha256_Sum256 := fun _ => zero_hash;
  htmlToText := fun s => s |}.

(** A message that carries an error from a setter. *)
Definition example_rejected : @Message example_world :=
  add_error (B "invalid subject template") (fst example_message).

(** A message with a From address and nothing else. *)
Definition example_empty : @Message example_world :=
  Message_From (Some example_from) (NewMessage (H := example_world) None).

(** * Properties *)

Example std_Man : std_base64 (B "Man") = B "TWFu" /\ std_base64 (B "Ma") = B "TWE="
  /\ std_base64 (B "M") = B "TQ==".
Proof. vm_compute. auto. Qed.

(** * base64 *)
Lemma bval_lt (c : byte) : (bval c < 256)%N.
Proof. destruct c; vm_compute; reflexivity. Qed.

Lemma below_spec n P : below n P = true -> forall x, (x < N.of_nat n)%N -> P x = true.
Proof.
  unfold below. rewrite forallb_forall. intros Hall x Hx.
  specialize (Hall (N.to_nat x)). rewrite N2Nat.id in Hall. apply Hall.
  apply in_seq. lia.
Qed.

Lemma sextet0 a : byte_shr a 2 = sextet_a a.
Proof. unfold byte_shr. rewrite N.shiftr_div_pow2. reflexivity. Qed.

Lemma sextet3 c : byte_and c 0x3F = sextet_c c.
Proof. unfold byte_and. change 0x3F%N with (N.ones 6). rewrite N.land_ones. reflexivity. Qed.

Lemma sextet1_pad a : N.land (byte_shl a 4) 0x3F = sextet_ab a x00.
Proof.
  unfold sextet_ab. change (bval x00 / 16)%N with 0%N. rewrite N.add_0_r.
  unfold byte_shl. generalize (bval_lt a). generalize (bval a). intros x Hx.
  apply N.eqb_eq.
  apply (below_spec 256 (fun x => N.land (N.shiftl x 4 mod 256) 63 =? x mod 4 * 16)%N); [|exact Hx].
  vm_compute. reflexivity.
Qed.

Lemma sextet2_pad b : N.land (byte_shl b 2) 0x3F = sextet_bc b x00.
Proof.
  unfold sextet_bc. change (bval x00 / 64)%N with 0%N. rewrite N.add_0_r.
  unfold byte_shl. generalize (bval_lt b). generalize (bval b). intros x Hx.
  apply N.eqb_eq.
  apply (below_spec 256 (fun x => N.land (N.shiftl x 2 mod 256) 63 =? x mod 16 * 4)%N); [|exact Hx].
  vm_compute. reflexivity.
Qed.

Lemma sextet1 a b :
  N.lor (byte_shr b 4) (N.land (byte_shl a 4) 0x3F) = sextet_ab a b.
Proof.
  unfold sextet_ab.
  unfold byte_shl, byte_shr.
  generalize (bval_lt a) (bval_lt b). generalize (bval a) (bval b). intros x y Hx Hy.
  apply N.eqb_eq.
  apply (below_spec 256 (fun y =>
      N.lor (N.shiftr y 4) (N.land (N.shiftl x 4 mod 256) 63) =? x mod 4 * 16 + y / 16)%N);
    [|exact Hy].
  revert x Hx. apply (below_spec 256 (fun x => below 256 (fun y =>
      N.lor (N.shiftr y 4) (N.land (N.shiftl x 4 mod 256) 63) =? x mod 4 * 16 + y / 16)%N)).
  vm_compute. reflexivity.
Qed.

Lemma sextet2 b c :
  N.lor (byte_shr c 6) (N.land (byte_shl b 2) 0x3F) = sextet_bc b c.
Proof.
  unfold sextet_bc.
  unfold byte_shl, byte_shr.
  generalize (bval_lt b) (bval_lt c). generalize (bval b) (bval c). intros x y Hx Hy.
  apply N.eqb_eq.
  apply (below_spec 256 (fun y =>
      N.lor (N.shiftr y 6) (N.land (N.shiftl x 2 mod 256) 63) =? x mod 16 * 4 + y / 64)%N);
    [|exact Hy].
  revert x Hx. apply (below_spec 256 (fun x => below 256 (fun y =>
      N.lor (N.shiftr y 6) (N.land (N.shiftl x 2 mod 256) 63) =? x mod 16 * 4 + y / 64)%N)).
  vm_compute. reflexivity.
Qed.

Lemma b64c_std i : b64c i = std_char i.
Proof. reflexivity. Qed.

Lemma list_ind3 (P : bytes -> Prop) :
  P [] -> (forall a, P [a]) -> (forall a b, P [a; b]) ->
  (forall a b c r, P r -> P (a :: b :: c :: r)) -> forall l, P l.
Proof.
  intros H0 H1 H2 H3. fix IH 1.
  intros [|a [|b [|c r]]]; [apply H0|apply H1|apply H2|apply H3, IH].
Qed.

Lemma len_app {A} (l k : list A) : len (l ++ k) = len l + len k.
Proof. unfold len. rewrite length_app. lia. Qed.

Lemma len_cons {A} (x : A) (l : list A) : len (x :: l) = len l + 1.
Proof. unfold len. cbn [length]. lia. Qed.

Lemma len_nonneg {A} (l : list A) : 0 <= len l.
Proof. unfold len. lia. Qed.

Lemma set_at_0 pre x suf v pos :
  pos = len pre -> set_at (pre ++ x :: suf) pos v = Some (pre ++ v :: suf).
Proof.
  intros ->. unfold set_at. rewrite len_app, len_cons.
  pose proof (len_nonneg pre). pose proof (len_nonneg suf).
  replace ((0 <=? len pre) && (len pre <? len pre + (len suf + 1))) with true
    by (symmetry; apply andb_true_iff; split; [apply Z.leb_le|apply Z.ltb_lt]; lia).
  f_equal. unfold len. rewrite Nat2Z.id.
  replace (length pre) with (length pre + 0)%nat at 1 by lia.
  rewrite insert_app_r. reflexivity.
Qed.

Lemma set_at_off pre mid x suf v pos :
  pos = len pre + len mid ->
  set_at (pre ++ mid ++ x :: suf) pos v = Some (pre ++ mid ++ v :: suf).
Proof.
  intros ->. rewrite !app_assoc. apply set_at_0. rewrite len_app. reflexivity.
Qed.

Lemma set_at_1 pre a x suf v pos :
  pos = len pre -> set_at (pre ++ a :: x :: suf) (pos + 1) v = Some (pre ++ a :: v :: suf).
Proof. intros ->. apply (set_at_off pre [a]). reflexivity. Qed.

Lemma set_at_2 pre a b x suf v pos :
  pos = len pre ->
  set_at (pre ++ a :: b :: x :: suf) (pos + 2) v = Some (pre ++ a :: b :: v :: suf).
Proof. intros ->. apply (set_at_off pre [a; b]). reflexivity. Qed.

Lemma set_at_3 pre a b c x suf v pos :
  pos = len pre ->
  set_at (pre ++ a :: b :: c :: x :: suf) (pos + 3) v = Some (pre ++ a :: b :: c :: v :: suf).
Proof. intros ->. apply (set_at_off pre [a; b; c]). reflexivity. Qed.

Lemma set_at_4 pre a b c d x suf v pos :
  pos = len pre ->
  set_at (pre ++ a :: b :: c :: d :: x :: suf) (pos + 4) v
  = Some (pre ++ a :: b :: c :: d :: v :: suf).
Proof. intros ->. apply (set_at_off pre [a; b; c; d]). reflexivity. Qed.

Lemma set_at_5 pre a b c d e x suf v pos :
  pos = len pre ->
  set_at (pre ++ a :: b :: c :: d :: e :: x :: suf) (pos + 5) v
  = Some (pre ++ a :: b :: c :: d :: e :: v :: suf).
Proof. intros ->. apply (set_at_off pre [a; b; c; d; e]). reflexivity. Qed.

Lemma line_pos_next lpos : line_pos lpos -> line_pos (if lpos =? 76 then 4 else lpos + 4).
Proof.
  intros [->|[Hr Hm]]; [right; split; [cbn; lia|reflexivity]|].
  destruct (Z.eqb_spec lpos 76); [lia|].
  pose proof (Z.div_mod lpos 4 ltac:(lia)) as E. rewrite Hm in E.
  destruct (Z.eq_dec lpos 72) as [->|]; [left; reflexivity|].
  right. split; [lia|].
  replace (lpos + 4) with ((lpos / 4 + 1) * 4) by lia. apply Z.mod_mul. lia.
Qed.

Lemma b64_place_lt dst pos lpos :
  0 <= lpos <= 72 ->
  b64_place dst pos lpos = Some (dst, (pos, pos + 1, pos + 2, pos + 3), pos + 4, lpos + 4).
Proof.
  intros Hr. unfold b64_place.
  destruct (76 - lpos) as [|p|p] eqn:E; try lia.
  destruct p as [[p|p|]|[p|p|]|]; try reflexivity; lia.
Qed.

Ltac b64_writes :=
  repeat first
    [ rewrite set_at_5 by reflexivity | rewrite set_at_4 by reflexivity
    | rewrite set_at_3 by reflexivity | rewrite set_at_2 by reflexivity
    | rewrite set_at_1 by reflexivity | rewrite set_at_0 by reflexivity
    | progress cbn [mbind option_bind] ].

Lemma b64_place_76_eq dst pos :
  b64_place dst pos 76 =
  (dst ← set_at dst pos CR; dst ← set_at dst (pos + 1) LF;
   Some (dst, (pos + 2, pos + 3, pos + 4, pos + 5), pos + 6, 4)).
Proof. reflexivity. Qed.

Lemma b64_loop_lines : forall src pre suf lpos,
  line_pos lpos ->
  length suf = length (b64_lines lpos src) ->
  b64_loop src (pre ++ suf) (len pre) lpos = Some (pre ++ b64_lines lpos src).
Proof.
  induction src as [|a|a b|a b c r IH] using list_ind3; intros pre suf lpos Hl Hlen.
  - destruct suf; [reflexivity|discriminate].
  - cbn [b64_loop b64_lines] in *. destruct Hl as [->|[Hr _]].
    + rewrite b64_place_76_eq. cbn in Hlen.
      destruct suf as [|x0 [|x1 [|x2 [|x3 [|x4 [|x5 [|]]]]]]]; try discriminate.
      b64_writes. rewrite sextet0, sextet1_pad. reflexivity.
    + rewrite b64_place_lt by exact Hr. destruct (Z.eqb_spec lpos 76); [lia|].
      cbn in Hlen. destruct suf as [|x0 [|x1 [|x2 [|x3 [|]]]]]; try discriminate.
      b64_writes. rewrite sextet0, sextet1_pad. reflexivity.
  - cbn [b64_loop b64_lines] in *. destruct Hl as [->|[Hr _]].
    + rewrite b64_place_76_eq. cbn in Hlen.
      destruct suf as [|x0 [|x1 [|x2 [|x3 [|x4 [|x5 [|]]]]]]]; try discriminate.
      b64_writes. rewrite sextet0, sextet1, sextet2_pad. reflexivity.
    + rewrite b64_place_lt by exact Hr. destruct (Z.eqb_spec lpos 76); [lia|].
      cbn in Hlen. destruct suf as [|x0 [|x1 [|x2 [|x3 [|]]]]]; try discriminate.
      b64_writes. rewrite sextet0, sextet1, sextet2_pad. reflexivity.
  - pose proof (line_pos_next _ Hl) as Hn.
    cbn [b64_loop b64_lines] in *. destruct Hl as [->|[Hr _]].
    + rewrite b64_place_76_eq. cbn [Z.eqb Pos.eqb app CRLF] in Hlen, Hn |- *.
      destruct suf as [|x0 [|x1 [|x2 [|x3 [|x4 [|x5 suf]]]]]]; try discriminate.
      b64_writes. rewrite sextet0, sextet1, sextet2, sextet3.
      specialize (IH (pre ++ [CR; LF; std_char (sextet_a a); std_char (sextet_ab a b);
                              std_char (sextet_bc b c); std_char (sextet_c c)]) suf 4 Hn).
      rewrite len_app in IH. change (len [_; _; _; _; _; _]) with 6 in IH.
      rewrite <- !app_assoc in IH. cbn [app] in IH. apply IH.
      cbn [length] in Hlen. lia.
    + rewrite b64_place_lt by exact Hr. destruct (Z.eqb_spec lpos 76); [lia|].
      cbn [app] in Hlen |- *.
      destruct suf as [|x0 [|x1 [|x2 [|x3 suf]]]]; try discriminate.
      b64_writes. rewrite sextet0, sextet1, sextet2, sextet3.
      specialize (IH (pre ++ [std_char (sextet_a a); std_char (sextet_ab a b);
                              std_char (sextet_bc b c); std_char (sextet_c c)]) suf (lpos + 4) Hn).
      rewrite len_app in IH. change (len [_; _; _; _]) with 4 in IH.
      rewrite <- !app_assoc in IH. cbn [app] in IH. apply IH.
      cbn [length] in Hlen. lia.
Qed.

Lemma groups_step n : (n + 3 + 2) / 3 = (n + 2) / 3 + 1.
Proof. replace (n + 3 + 2) with (n + 2 + 1 * 3) by lia. apply Z.div_add. lia. Qed.

Lemma b64_lines_len : forall src lpos,
  line_pos lpos -> (0 < lpos \/ src <> []) ->
  len (b64_lines lpos src)
  = (len src + 2) / 3 * 4 + (lpos + (len src + 2) / 3 * 4 - 1) / 76 * 2.
Proof.
  induction src as [|a|a b|a b c r IH] using list_ind3; intros lpos Hl Hne.
  - destruct Hne as [Hp|?]; [|congruence].
    change (len (@nil byte)) with 0. change ((0 + 2) / 3) with 0.
    destruct Hl as [->|[Hr _]]; [reflexivity|].
    rewrite (Z.div_small (lpos + 0 * 4 - 1)) by lia. reflexivity.
  - cbn [b64_lines]. change (len [a]) with 1. change ((1 + 2) / 3) with 1.
    destruct Hl as [->|[Hr _]]; [reflexivity|].
    destruct (Z.eqb_spec lpos 76); [lia|].
    rewrite (Z.div_small (lpos + 1 * 4 - 1)) by lia. reflexivity.
  - cbn [b64_lines]. change (len [a; b]) with 2. change ((2 + 2) / 3) with 1.
    destruct Hl as [->|[Hr _]]; [reflexivity|].
    destruct (Z.eqb_spec lpos 76); [lia|].
    rewrite (Z.div_small (lpos + 1 * 4 - 1)) by lia. reflexivity.
  - pose proof (line_pos_next _ Hl) as Hn.
    cbn [b64_lines]. rewrite !len_app, !len_cons.
    replace (len r + 1 + 1 + 1 + 2) with (len r + 3 + 2) by lia. rewrite groups_step.
    destruct Hl as [->|[Hr Hm]].
    + cbn [Z.eqb Pos.eqb] in *. rewrite IH by (auto; left; lia).
      set (g := (len r + 2) / 3).
      change (len CRLF) with 2. change (len (@nil byte)) with 0.
      replace (76 + (g + 1) * 4 - 1) with (4 + g * 4 - 1 + 1 * 76) by lia.
      rewrite Z.div_add by lia. lia.
    + destruct (Z.eqb_spec lpos 76); [lia|].
      rewrite IH by (auto; left; lia).
      set (g := (len r + 2) / 3). change (len (@nil byte)) with 0.
      replace (lpos + 4 + g * 4 - 1) with (lpos + (g + 1) * 4 - 1) by lia. lia.
Qed.

Lemma wrap_col_4 col a b c d r :
  col + 4 <= 76 ->
  wrap_col col (a :: b :: c :: d :: r) = a :: b :: c :: d :: wrap_col (col + 4) r.
Proof.
  intros Hc. cbn [wrap_col].
  repeat match goal with
         | |- context [?x >=? 76] => destruct (Z.geb_spec x 76); [lia|]
         end.
  do 4 f_equal. f_equal. lia.
Qed.

Lemma b64_lines_wrap : forall src lpos,
  line_pos lpos -> b64_lines lpos src = wrap_col lpos (std_base64 src).
Proof.
  induction src as [|a|a b|a b c r IH] using list_ind3; intros lpos Hl.
  - reflexivity.
  - cbn [b64_lines std_base64]. destruct Hl as [->|[Hr _]]; [reflexivity|].
    destruct (Z.eqb_spec lpos 76); [lia|]. rewrite wrap_col_4 by lia. reflexivity.
  - cbn [b64_lines std_base64]. destruct Hl as [->|[Hr _]]; [reflexivity|].
    destruct (Z.eqb_spec lpos 76); [lia|]. rewrite wrap_col_4 by lia. reflexivity.
  - pose proof (line_pos_next _ Hl) as Hn.
    cbn [b64_lines std_base64 app]. rewrite (IH _ Hn). destruct Hl as [->|[Hr _]]; [reflexivity|].
    destruct (Z.eqb_spec lpos 76); [lia|]. rewrite wrap_col_4 by lia. reflexivity.
Qed.

Lemma wrap_col_app : forall a col b,
  col + len a <= 76 -> wrap_col col (a ++ b) = a ++ wrap_col (col + len a) b.
Proof.
  induction a as [|x a IH]; intros col b Hc.
  - cbn. f_equal. unfold len; cbn. lia.
  - rewrite len_cons in Hc. pose proof (len_nonneg a).
    cbn [app wrap_col]. destruct (Z.geb_spec col 76); [lia|].
    rewrite IH by lia. rewrite len_cons. do 3 f_equal. lia.
Qed.

Lemma wrap_col_small col s : col + len s <= 76 -> wrap_col col s = s.
Proof.
  intros Hc. rewrite <- (app_nil_r s) at 1. rewrite wrap_col_app by exact Hc.
  cbn. apply app_nil_r.
Qed.

Lemma wrap76_loop_col : forall fuel b64,
  (length b64 <= fuel)%nat -> wrap76_loop fuel b64 = wrap_col 0 b64.
Proof.
  induction fuel as [|fuel IH]; intros b64 Hf.
  - destruct b64; [reflexivity|cbn in Hf; lia].
  - cbn [wrap76_loop]. destruct (Z.gtb_spec (len b64) 76) as [Hgt|Hle].
    + rewrite IH by (rewrite length_drop; unfold len in Hgt; lia).
      rewrite <- (take_drop 76 b64) at 3.
      assert (Hlt : len (take 76 b64) = 76)
        by (unfold len in *; rewrite length_take; lia).
      rewrite wrap_col_app by lia. rewrite Hlt.
      destruct (drop 76 b64) as [|c r] eqn:E.
      * apply (f_equal length) in E. rewrite length_drop in E. unfold len in Hgt. cbn in E. lia.
      * rewrite <- app_assoc. reflexivity.
    + symmetry. apply wrap_col_small. lia.
Qed.

Lemma wrap76_col b64 : wrap76 b64 = wrap_col 0 b64.
Proof. apply wrap76_loop_col. reflexivity. Qed.

Lemma line_pos_0 : line_pos 0.
Proof. right. split; [lia|reflexivity]. Qed.

(** [Base64Encode] never panics and is standard base64 wrapped at 76. *)
Lemma Base64Encode_wrap76 src : Base64Encode src = Some (wrap76 (std_base64 src)).
Proof.
  unfold Base64Encode. destruct (Z.eqb_spec (len src) 0) as [E|E].
  - destruct src; [reflexivity|]. rewrite len_cons in E. pose proof (len_nonneg src). lia.
  - rewrite wrap76_col, <- (b64_lines_wrap _ _ line_pos_0).
    apply (b64_loop_lines src [] _ 0 line_pos_0).
    rewrite length_replicate. unfold b64_dstLen.
    assert (Hne : src <> []) by (intros ->; apply E; reflexivity).
    pose proof (b64_lines_len src 0 line_pos_0 (or_intror Hne)) as Hlen.
    rewrite Z.add_0_l in Hlen. rewrite <- Hlen. unfold len. apply Nat2Z.id.
Qed.

Example qp_decode_ex :
  qp_decode (B "a=3Db=" ++ CRLF ++ B "c=E2=80=A6") = B "a=bc" ++ [xe2; x80; xa6].
Proof. vm_compute. reflexivity. Qed.

Example q_decode_ex :
  q_decode (CRLF ++ B " =?utf-8?q?a_b=5F?=" ++ CRLF ++ B " =?utf-8?q?=3Fc?=") = B "a b_?c".
Proof. vm_compute. reflexivity. Qed.

(** * Lemmas on the decoders *)
Lemma is_prefix_app p rest : is_prefix p (p ++ rest) = true.
Proof.
  induction p as [|x p IH]; [reflexivity|]. cbn.
  rewrite IH, andb_true_r. destruct x; reflexivity.
Qed.

Lemma remove_skip mk : forall a rest,
  remove_marker_from mk (length a) (a ++ rest) = remove_marker_from mk 0 rest.
Proof.
  induction a as [|x a IH]; intros rest; [reflexivity|]. cbn. apply IH.
Qed.

Lemma remove_marker_hit m0 mk rest :
  remove_marker (m0 :: mk) ((m0 :: mk) ++ rest) = remove_marker (m0 :: mk) rest.
Proof.
  unfold remove_marker. cbn [app remove_marker_from].
  change (m0 :: mk ++ rest) with ((m0 :: mk) ++ rest). rewrite is_prefix_app.
  replace (length (m0 :: mk) - 1)%nat with (length mk) by (cbn [length]; lia).
  apply remove_skip.
Qed.

Lemma remove_marker_miss m0 mk c rest :
  Byte.eqb m0 c = false ->
  remove_marker (m0 :: mk) (c :: rest) = c :: remove_marker (m0 :: mk) rest.
Proof. intros E. unfold remove_marker. cbn. rewrite E. reflexivity. Qed.

Lemma remove_marker_miss2 m0 m1 mk c d rest :
  Byte.eqb m1 d = false ->
  remove_marker (m0 :: m1 :: mk) (c :: d :: rest)
  = c :: remove_marker (m0 :: m1 :: mk) (d :: rest).
Proof.
  intros E. unfold remove_marker. cbn [remove_marker_from is_prefix]. rewrite E.
  rewrite andb_false_l, andb_false_r. reflexivity.
Qed.

Lemma hex_ok_all c : hex_ok c = true.
Proof. destruct c; vm_compute; reflexivity. Qed.

Lemma qp_byte_cases c :
  (qp_byte c = [c] /\ Byte.eqb "=" c = false /\ Byte.eqb c "=" = false)
  \/ qp_byte c = hex3 c.
Proof.
  unfold qp_byte.
  destruct (Byte.eqb c TAB || Byte.eqb c " "
            || byte_le "!" c && byte_le c "~" && negb (Byte.eqb c "=")) eqn:E;
    [left|right; reflexivity].
  split; [reflexivity|]. destruct c; try discriminate E; split; reflexivity.
Qed.

Lemma q_byte_cases c :
  (exists d, q_byte c = [d] /\ underscore_to_space d = c /\ Byte.eqb "?" d = false
             /\ Byte.eqb d "=" = false)
  \/ q_byte c = hex3 c.
Proof.
  unfold q_byte. destruct (Byte.eqb c " ") eqn:E1.
  - left. exists "_"%byte. apply Byte.byte_dec_bl in E1. subst c. repeat split.
  - destruct (byte_le "!" c && byte_le c "~" && negb (Byte.eqb c "=")
              && negb (Byte.eqb c "?") && negb (Byte.eqb c "_")) eqn:E2;
      [left|right; reflexivity].
    exists c. split; [reflexivity|]. destruct c; try discriminate E2; repeat split.
Qed.

Lemma hex3_facts c :
  exists h1 h2 hi lo,
    hex3 c = ["="%byte; h1; h2]
    /\ Byte.eqb "=" h1 = false /\ Byte.eqb "=" h2 = false /\ Byte.eqb CR h1 = false
    /\ Byte.eqb "?" h1 = false /\ Byte.eqb "?" h2 = false
    /\ Byte.eqb h1 "_" = false /\ Byte.eqb h2 "_" = false
    /\ hex_val h1 = Some hi /\ hex_val h2 = Some lo /\ byte_of_N (hi * 16 + lo) = c.
Proof.
  pose proof (hex_ok_all c) as H. unfold hex_ok in H.
  repeat (apply andb_prop in H; destruct H as [H ?]).
  repeat match goal with
         | X : negb _ = true |- _ => apply negb_true_iff in X
         | X : bool_decide _ = true |- _ => apply bool_decide_eq_true in X
         end.
  do 4 eexists. repeat split; try eassumption; reflexivity.
Qed.

Lemma remove_soft_byte c rest :
  remove_marker soft_break (qp_byte c ++ rest) = qp_byte c ++ remove_marker soft_break rest.
Proof.
  change soft_break with ("="%byte :: CR :: [LF]).
  destruct (qp_byte_cases c) as [(-> & E & _)| ->].
  - cbn [app]. apply remove_marker_miss. exact E.
  - destruct (hex3_facts c) as (h1 & h2 & hi & lo & -> & E1 & E2 & E3 & _).
    cbn [app]. rewrite remove_marker_miss2 by exact E3.
    rewrite remove_marker_miss by exact E1. rewrite remove_marker_miss by exact E2.
    reflexivity.
Qed.

Lemma remove_soft_escape s rest :
  remove_marker soft_break (qp_escape s ++ rest) = qp_escape s ++ remove_marker soft_break rest.
Proof.
  unfold qp_escape. induction s as [|c s IH]; [reflexivity|].
  cbn [map concat]. rewrite <- !app_assoc, remove_soft_byte, IH. reflexivity.
Qed.

Lemma qp_escape_app a b : qp_escape (a ++ b) = qp_escape a ++ qp_escape b.
Proof. unfold qp_escape. rewrite map_app, concat_app. reflexivity. Qed.

Lemma q_escape_app a b : q_escape (a ++ b) = q_escape a ++ q_escape b.
Proof. unfold q_escape. rewrite map_app, concat_app. reflexivity. Qed.

Lemma join_cons sep l k rest : join sep (l :: k :: rest) = l ++ sep ++ join sep (k :: rest).
Proof. reflexivity. Qed.

Lemma remove_soft_join segs tail :
  remove_marker soft_break (join soft_break (map qp_escape segs) ++ tail)
  = qp_escape (concat segs) ++ remove_marker soft_break tail.
Proof.
  induction segs as [|s [|t segs] IH].
  - reflexivity.
  - cbn [map join concat]. rewrite app_nil_r. apply remove_soft_escape.
  - cbn [map] in *. rewrite join_cons. cbn [concat]. rewrite qp_escape_app.
    rewrite <- !app_assoc, remove_soft_escape. f_equal.
    change soft_break with ("="%byte :: CR :: [LF]) at 1 2.
    rewrite remove_marker_hit. exact IH.
Qed.

Lemma unescape_literal c rest :
  Byte.eqb c "=" = false -> unescape_hex (c :: rest) = c :: unescape_hex rest.
Proof. intros E. destruct rest as [|h1 [|h2 rest]]; cbn; rewrite ?E; reflexivity. Qed.

Lemma unescape_hex3 c rest : unescape_hex (hex3 c ++ rest) = c :: unescape_hex rest.
Proof.
  destruct (hex3_facts c) as (h1 & h2 & hi & lo & -> & _ & _ & _ & _ & _ & _ & _ & V1 & V2 & Vc).
  cbn. rewrite V1, V2, Vc. reflexivity.
Qed.

Lemma unescape_qp_escape s tail :
  unescape_hex (qp_escape s ++ tail) = s ++ unescape_hex tail.
Proof.
  unfold qp_escape. induction s as [|c s IH]; [reflexivity|].
  cbn [map concat]. rewrite <- !app_assoc.
  destruct (qp_byte_cases c) as [(-> & _ & E)| ->].
  - cbn [app]. rewrite unescape_literal by exact E. rewrite IH. reflexivity.
  - rewrite unescape_hex3, IH. reflexivity.
Qed.

Lemma remove_fold_byte c rest :
  remove_marker q_fold (q_byte c ++ rest) = q_byte c ++ remove_marker q_fold rest.
Proof.
  change q_fold with ("?"%byte :: (B "=" ++ CRLF ++ B " =?utf-8?q?")).
  destruct (q_byte_cases c) as [(d & -> & _ & E & _)| ->].
  - cbn [app]. apply remove_marker_miss. exact E.
  - destruct (hex3_facts c) as (h1 & h2 & hi & lo & -> & _ & _ & _ & E1 & E2 & _).
    cbn [app]. rewrite remove_marker_miss by reflexivity.
    rewrite remove_marker_miss by exact E1. rewrite remove_marker_miss by exact E2.
    reflexivity.
Qed.

Lemma remove_fold_escape s rest :
  remove_marker q_fold (q_escape s ++ rest) = q_escape s ++ remove_marker q_fold rest.
Proof.
  unfold q_escape. induction s as [|c s IH]; [reflexivity|].
  cbn [map concat]. rewrite <- !app_assoc, remove_fold_byte, IH. reflexivity.
Qed.

Lemma remove_fold_join segs :
  remove_marker q_fold (join q_fold (map q_escape segs)) = q_escape (concat segs).
Proof.
  induction segs as [|s [|t segs] IH].
  - reflexivity.
  - cbn [map join concat]. rewrite app_nil_r.
    rewrite <- (app_nil_r (q_escape s)) at 1. rewrite remove_fold_escape.
    cbn. apply app_nil_r.
  - cbn [map] in *. rewrite join_cons. cbn [concat]. rewrite q_escape_app.
    rewrite remove_fold_escape. f_equal.
    change q_fold with ("?"%byte :: (B "=" ++ CRLF ++ B " =?utf-8?q?")) at 1 2.
    rewrite remove_marker_hit. exact IH.
Qed.

Lemma unescape_q_escape s :
  unescape_hex (map underscore_to_space (q_escape s)) = s.
Proof.
  unfold q_escape. induction s as [|c s IH]; [reflexivity|].
  cbn [map concat]. rewrite map_app.
  destruct (q_byte_cases c) as [(d & -> & Ed & _ & E)| ->].
  - cbn [map app]. rewrite Ed. rewrite unescape_literal, IH; [reflexivity|].
    subst c. unfold underscore_to_space. destruct (Byte.eqb d "_"); [reflexivity|exact E].
  - destruct (hex3_facts c) as (h1 & h2 & hi & lo & Eh & _ & _ & _ & _ & _ & U1 & U2 & _).
    rewrite Eh at 1. cbn [map]. unfold underscore_to_space at 1 2 3.
    rewrite U1, U2. change (Byte.eqb "=" "_") with false. cbv iota.
    rewrite <- Eh. rewrite unescape_hex3, IH. reflexivity.
Qed.

Lemma high_byte_escapes c :
  high_byte c = true ->
  qp_byte c = hex3 c /\ q_byte c = hex3 c /\ (Byte.eqb c TAB || Byte.eqb c " ") = false.
Proof. destruct c; try discriminate; intros _; repeat split. Qed.

Lemma lead_not_cont c : is_lead c = true -> is_cont c = false.
Proof. destruct c; try discriminate; reflexivity. Qed.

Lemma low_not_lead c :
  (Byte.eqb c TAB || Byte.eqb c " " || (byte_le "!" c && byte_le c "~")) = true ->
  is_lead c = false /\ is_cont c = false.
Proof. destruct c; try discriminate; intros _; split; reflexivity. Qed.

Lemma rune_tail_spec : forall src enc,
  exists conts rest',
    src = conts ++ rest'
    /\ rune_tail enc src = (enc ++ concat (map hex3 conts), rest')
    /\ forallb is_cont conts = true
    /\ starts_cont rest' = false.
Proof.
  induction src as [|c src IH]; intros enc.
  - exists [], []. cbn. rewrite app_nil_r. auto.
  - cbn [rune_tail]. destruct (is_cont c) eqn:E; cbn [negb].
    + destruct (IH (enc ++ hex3 c)) as (conts & rest' & -> & Hr & Hc & Hs).
      exists (c :: conts), rest'. cbn [map concat forallb]. rewrite E, Hc, Hr.
      rewrite <- app_assoc. auto.
    + exists [], (c :: src). cbn. rewrite app_nil_r, E. auto.
Qed.

Lemma escape_conts (f : byte -> bytes) conts :
  (forall c, is_cont c = true -> f c = hex3 c) ->
  forallb is_cont conts = true -> concat (map f conts) = concat (map hex3 conts).
Proof.
  intros Hf. induction conts as [|c conts IH]; [reflexivity|]. cbn.
  intros Hc. apply andb_prop in Hc as [Hc1 Hc2]. rewrite Hf, IH by assumption. reflexivity.
Qed.

Lemma last_conts c conts :
  high_byte c = true -> forallb is_cont conts = true -> ends_in_space (c :: conts) = false.
Proof.
  unfold ends_in_space. revert c. induction conts as [|d conts IH]; intros c Hc Hall.
  - cbn. apply high_byte_escapes, Hc.
  - cbn in Hall. apply andb_prop in Hall as [Hd Hall].
    change (last (c :: d :: conts)) with (last (d :: conts)). apply IH; [|assumption].
    unfold high_byte. rewrite Hd. apply orb_true_r.
Qed.

Lemma unit_single c rest :
  is_lead c = false -> unit_of c rest [c] rest.
Proof.
  intros Hl. split; [reflexivity|]. split; [discriminate|].
  intros st Hst. cbn. unfold rune_state. rewrite Hl.
  destruct (is_cont c); [|reflexivity].
  rewrite andb_true_r in Hst. rewrite Hst. reflexivity.
Qed.

Lemma qp_unit_spec c rest :
  exists u rest',
    unit_of c rest u rest'
    /\ qp_unit c rest = (qp_escape u, ends_in_space u, rest').
Proof.
  unfold qp_unit.
  destruct (Byte.eqb c TAB || Byte.eqb c " ") eqn:E1.
  { exists [c], rest. split.
    - apply unit_single, (low_not_lead c). rewrite E1. reflexivity.
    - unfold qp_escape, qp_byte, ends_in_space. cbn. rewrite E1. reflexivity. }
  destruct (byte_le "!" c && byte_le c "~" && negb (Byte.eqb c "=")) eqn:E2.
  { exists [c], rest. split.
    - apply unit_single, (low_not_lead c). rewrite E1.
      apply andb_prop in E2 as [E2 _]. rewrite E2. reflexivity.
    - unfold qp_escape, qp_byte, ends_in_space. cbn. rewrite E1, E2. reflexivity. }
  destruct (is_lead c) eqn:E3.
  - destruct (rune_tail_spec rest (hex3 c)) as (conts & rest' & -> & Hr & Hc & Hs).
    exists (c :: conts), rest'. rewrite Hr. split.
    + split; [reflexivity|]. split; [discriminate|]. intros st _. rewrite Hs. apply andb_false_r.
    + rewrite last_conts by (unfold high_byte; rewrite ?E3; auto).
      unfold qp_escape. cbn [map concat]. unfold qp_byte at 1. rewrite E1, E2. cbn [orb].
      rewrite (escape_conts qp_byte) by (auto; intros d Hd; apply high_byte_escapes;
        unfold high_byte; rewrite Hd; apply orb_true_r).
      reflexivity.
  - exists [c], rest. split; [apply unit_single, E3|].
    unfold qp_escape, qp_byte, ends_in_space. cbn. rewrite E1, E2. reflexivity.
Qed.

Lemma q_unit_spec c rest :
  exists u rest', unit_of c rest u rest' /\ q_unit c rest = (q_escape u, rest').
Proof.
  unfold q_unit.
  destruct (Byte.eqb c " ") eqn:E1.
  { exists [c], rest. split.
    - apply unit_single, (low_not_lead c). rewrite E1, orb_true_r. reflexivity.
    - unfold q_escape, q_byte. cbn. rewrite E1. reflexivity. }
  destruct (byte_le "!" c && byte_le c "~" && negb (Byte.eqb c "=")
            && negb (Byte.eqb c "?") && negb (Byte.eqb c "_")) eqn:E2.
  { exists [c], rest. split.
    - apply unit_single, (low_not_lead c).
      do 3 (apply andb_prop in E2 as [E2 _]). rewrite E2. apply orb_true_r.
    - unfold q_escape, q_byte. cbn. rewrite E1, E2. reflexivity. }
  destruct (is_lead c) eqn:E3.
  - destruct (rune_tail_spec rest (hex3 c)) as (conts & rest' & -> & Hr & Hc & Hs).
    exists (c :: conts), rest'. rewrite Hr. split.
    + split; [reflexivity|]. split; [discriminate|]. intros st _. rewrite Hs. apply andb_false_r.
    + unfold q_escape. cbn [map concat]. unfold q_byte at 1. rewrite E1, E2.
      rewrite (escape_conts q_byte) by (auto; intros d Hd; apply high_byte_escapes;
        unfold high_byte; rewrite Hd; apply orb_true_r).
      reflexivity.
  - exists [c], rest. split; [apply unit_single, E3|].
    unfold q_escape, q_byte. cbn. rewrite E1, E2. reflexivity.
Qed.

Lemma unit_of_length c rest u rest' :
  unit_of c rest u rest' -> (length rest' <= length rest)%nat.
Proof.
  intros (E & Hu & _). apply (f_equal length) in E. rewrite length_app in E. cbn in E.
  destruct u; [congruence|]. cbn in E. lia.
Qed.

Lemma in_rune_app before u : in_rune (before ++ u) = foldl rune_state (in_rune before) u.
Proof. unfold in_rune. apply foldl_app. Qed.

Lemma unit_of_splits c rest u rest' before :
  unit_of c rest u rest' ->
  splits_rune before (c :: rest) = false -> splits_rune (before ++ u) rest' = false.
Proof.
  intros (_ & _ & H) Hs. unfold splits_rune in *. rewrite in_rune_app. apply H. exact Hs.
Qed.

Lemma ends_in_space_app u rest :
  rest <> [] -> ends_in_space (u ++ rest) = ends_in_space rest.
Proof.
  intros Hne. unfold ends_in_space. destruct rest as [|x rest]; [congruence|].
  rewrite last_app. rewrite last_cons. destruct (last rest); reflexivity.
Qed.

(** * The line structure of the loops *)
Lemma good_breaks_merge before u t ts :
  good_breaks (before ++ u) (t :: ts) = good_breaks before ((u ++ t) :: ts).
Proof. cbn [good_breaks]. rewrite <- app_assoc. reflexivity. Qed.

Lemma good_breaks_cons before s t ts :
  good_breaks before (s :: t :: ts)
  = negb (splits_rune (before ++ s) (concat (t :: ts))) && good_breaks (before ++ s) (t :: ts).
Proof. reflexivity. Qed.

Lemma qp_loop_segs : forall fuel src before pos dst eis,
  (length src <= fuel)%nat ->
  splits_rune before src = false ->
  exists segs,
    segs <> [] /\ concat segs = src
    /\ good_breaks before segs = true
    /\ qp_loop fuel src pos dst eis
       = (dst ++ join soft_break (map qp_escape segs),
          match src with [] => eis | _ => ends_in_space src end).
Proof.
  induction fuel as [|fuel IH]; intros src before pos dst eis Hf Hs.
  { destruct src; [|cbn in Hf; lia]. exists [[]]. cbn. rewrite app_nil_r. auto. }
  destruct src as [|c rest].
  { exists [[]]. cbn. rewrite app_nil_r. auto. }
  cbn [qp_loop].
  destruct (qp_unit_spec c rest) as (u & rest' & Hu & ->).
  pose proof (unit_of_length _ _ _ _ Hu) as Hlen.
  pose proof (unit_of_splits _ _ _ _ before Hu Hs) as Hs'.
  destruct Hu as (Esrc & Hne & _).
  cbn in Hf.
  destruct (int_add pos (len (qp_escape u)) >? 75).
  - destruct (IH rest' (before ++ u) (len (qp_escape u))
                ((dst ++ B "=" ++ CRLF) ++ qp_escape u) (ends_in_space u)
                ltac:(lia) Hs') as (segs & Hn & Hc & Hg & ->).
    destruct segs as [|t ts]; [congruence|].
    exists ([] :: (u ++ t) :: ts). split; [discriminate|]. split.
    { cbn [concat app] in *. rewrite <- app_assoc, Hc. symmetry. exact Esrc. }
    split.
    { rewrite good_breaks_cons, app_nil_r. cbn [concat] in *.
      rewrite <- app_assoc, Hc, <- Esrc, Hs. cbn [negb andb].
      rewrite <- good_breaks_merge. exact Hg. }
    f_equal.
    + cbn [map]. rewrite join_cons. cbn [app]. change (qp_escape []) with (@nil byte).
      cbn [app]. rewrite qp_escape_app.
      change (B "=" ++ CRLF) with soft_break.
      destruct ts; cbn [map join]; rewrite <- ?app_assoc; reflexivity.
    + destruct rest' as [|x rest']; [|rewrite Esrc; rewrite ends_in_space_app by discriminate;
                                        reflexivity].
      rewrite Esrc, app_nil_r. reflexivity.
  - destruct (IH rest' (before ++ u) (int_add pos (len (qp_escape u)))
                (dst ++ qp_escape u) (ends_in_space u)
                ltac:(lia) Hs') as (segs & Hn & Hc & Hg & ->).
    destruct segs as [|t ts]; [congruence|].
    exists ((u ++ t) :: ts). split; [discriminate|]. split.
    { cbn [concat app] in *. rewrite <- app_assoc, Hc. symmetry. exact Esrc. }
    split.
    { rewrite <- good_breaks_merge. exact Hg. }
    f_equal.
    + cbn [map]. rewrite qp_escape_app.
      destruct ts; cbn [map join]; rewrite <- ?app_assoc; reflexivity.
    + destruct rest' as [|x rest']; [|rewrite Esrc; rewrite ends_in_space_app by discriminate;
                                        reflexivity].
      rewrite Esrc, app_nil_r. reflexivity.
Qed.

Lemma len_pos_nonempty {A} (l : list A) : l <> [] -> (len l >? 0) = true /\ (len l =? 0) = false.
Proof.
  intros Hne. destruct l; [congruence|]. rewrite len_cons. pose proof (len_nonneg l).
  split; [apply Z.gtb_lt|apply Z.eqb_neq]; lia.
Qed.

Lemma app_nonempty_l {A} (l k : list A) : l <> [] -> l ++ k <> [].
Proof. destruct l; [congruence|discriminate]. Qed.

Lemma q_loop_segs : forall fuel src before pos dst,
  (length src <= fuel)%nat ->
  dst <> [] ->
  splits_rune before src = false ->
  exists segs,
    segs <> [] /\ concat segs = src
    /\ good_breaks before segs = true
    /\ fst (q_loop fuel src pos dst) = dst ++ join q_fold (map q_escape segs).
Proof.
  induction fuel as [|fuel IH]; intros src before pos dst Hf Hd Hs.
  { destruct src; [|cbn in Hf; lia]. exists [[]]. cbn. rewrite app_nil_r. auto. }
  destruct src as [|c rest].
  { exists [[]]. cbn. rewrite app_nil_r. auto. }
  cbn [q_loop].
  destruct (q_unit_spec c rest) as (u & rest' & Hu & ->).
  pose proof (unit_of_length _ _ _ _ Hu) as Hlen.
  pose proof (unit_of_splits _ _ _ _ before Hu Hs) as Hs'.
  destruct Hu as (Esrc & Hne & _).
  destruct (len_pos_nonempty dst Hd) as [-> ->].
  cbn in Hf.
  destruct (int_add pos (len (q_escape u)) >? 74).
  - destruct (IH rest' (before ++ u) (int_add (len (q_escape u)) 11)
                ((dst ++ q_fold) ++ q_escape u) ltac:(lia)
                ltac:(apply app_nonempty_l, app_nonempty_l, Hd) Hs')
      as (segs & Hn & Hc & Hg & ->).
    destruct segs as [|t ts]; [congruence|].
    exists ([] :: (u ++ t) :: ts). split; [discriminate|]. split.
    { cbn [concat app] in *. rewrite <- app_assoc, Hc. symmetry. exact Esrc. }
    split.
    { rewrite good_breaks_cons, app_nil_r. cbn [concat] in *.
      rewrite <- app_assoc, Hc, <- Esrc, Hs. cbn [negb andb].
      rewrite <- good_breaks_merge. exact Hg. }
    cbn [map]. rewrite join_cons. change (q_escape []) with (@nil byte).
    cbn [app]. rewrite q_escape_app.
    destruct ts; cbn [map join]; rewrite <- ?app_assoc; reflexivity.
  - destruct (IH rest' (before ++ u) (int_add pos (len (q_escape u)))
                (dst ++ q_escape u) ltac:(lia) ltac:(apply app_nonempty_l, Hd) Hs')
      as (segs & Hn & Hc & Hg & ->).
    destruct segs as [|t ts]; [congruence|].
    exists ((u ++ t) :: ts). split; [discriminate|]. split.
    { cbn [concat app] in *. rewrite <- app_assoc, Hc. symmetry. exact Esrc. }
    split.
    { rewrite <- good_breaks_merge. exact Hg. }
    cbn [map]. rewrite q_escape_app.
    destruct ts; cbn [map join]; rewrite <- ?app_assoc; reflexivity.
Qed.

Lemma q_escape_nonempty u : u <> [] -> q_escape u <> [].
Proof.
  destruct u as [|c u]; [congruence|]. intros _. unfold q_escape. cbn [map concat].
  apply app_nonempty_l.
  destruct (q_byte_cases c) as [(d & -> & _)| ->]; discriminate.
Qed.

(** The shape of the output of [QuotedPrintableEncode]: the escapes of the
    segments of the input, joined by soft breaks, and a final ['='] after a
    trailing space or tab. *)
Lemma QuotedPrintableEncode_lines src :
  exists segs,
    concat segs = src /\ good_breaks [] segs = true
    /\ QuotedPrintableEncode src
       = join soft_break (map qp_escape segs)
         ++ (if ends_in_space src then ["="%byte] else []).
Proof.
  destruct src as [|c rest]; [exists []; auto|].
  unfold QuotedPrintableEncode.
  destruct (len_pos_nonempty (c :: rest) ltac:(discriminate)) as [_ ->].
  destruct (qp_loop_segs (length (c :: rest)) (c :: rest) [] 0 [] false
              ltac:(reflexivity) ltac:(reflexivity)) as (segs & _ & Hc & Hg & ->).
  exists segs. split; [exact Hc|]. split; [exact Hg|].
  cbn [app]. destruct (ends_in_space (c :: rest)); [reflexivity|].
  symmetry. apply app_nil_r.
Qed.

(** The shape of the output of [QEncode]: one encoded-word per line, a fold
    between two of them, and a fold in front when nothing fits on the
    first line. *)
Lemma QEncode_lines src offset :
  src <> [] ->
  exists lead segs,
    (lead = [] \/ lead = CRLF ++ B " ")
    /\ concat segs = src /\ good_breaks [] segs = true
    /\ fst (QEncode src offset)
       = lead ++ q_open ++ join q_fold (map q_escape segs) ++ q_close.
Proof.
  intros Hne. unfold QEncode.
  destruct (len_pos_nonempty src Hne) as [_ ->].
  set (off := if offset <? 1 then 1 else offset). clearbody off.
  destruct src as [|c rest]; [congruence|].
  cbn [length q_loop].
  destruct (q_unit_spec c rest) as (u & rest' & Hu & ->).
  pose proof (unit_of_length _ _ _ _ Hu) as Hlen.
  pose proof (unit_of_splits _ _ _ _ [] Hu ltac:(reflexivity)) as Hs'.
  destruct Hu as (Esrc & Hu & _).
  change (len (@nil byte) >? 0) with false. change (len (@nil byte) =? 0) with true.
  cbv iota. cbn [app] in *.
  destruct (int_add (int_add 10 off) (len (q_escape u)) >? 74).
  - destruct (q_loop_segs (length rest) rest' u (int_add (len (q_escape u)) 11)
                (q_fold_first ++ q_escape u) Hlen ltac:(discriminate) Hs')
      as (segs & Hn & Hc & Hg & Hq).
    destruct (q_loop _ _ _ _) as [dst pos]. cbn [fst] in *. subst dst.
    destruct segs as [|t ts]; [congruence|].
    exists (CRLF ++ B " "), ((u ++ t) :: ts). split; [right; reflexivity|]. split.
    { cbn [concat] in *. rewrite <- app_assoc, Hc. symmetry. exact Esrc. }
    split; [rewrite <- good_breaks_merge; exact Hg|].
    cbn [map]. rewrite q_escape_app.
    change q_fold_first with ((CRLF ++ B " ") ++ q_open).
    destruct ts; cbn [map join]; rewrite <- ?app_assoc; reflexivity.
  - destruct (q_loop_segs (length rest) rest' u (int_add (int_add 10 off) (len (q_escape u)))
                (q_open ++ q_escape u) Hlen ltac:(discriminate) Hs')
      as (segs & Hn & Hc & Hg & Hq).
    destruct (q_loop _ _ _ _) as [dst pos]. cbn [fst] in *. subst dst.
    destruct segs as [|t ts]; [congruence|].
    exists [], ((u ++ t) :: ts). split; [left; reflexivity|]. split.
    { cbn [concat] in *. rewrite <- app_assoc, Hc. symmetry. exact Esrc. }
    split; [rewrite <- good_breaks_merge; exact Hg|].
    cbn [map]. rewrite q_escape_app.
    destruct ts; cbn [map join app]; rewrite <- ?app_assoc; reflexivity.
Qed.

Lemma strip_suffix_app p s : strip_suffix p (s ++ p) = s.
Proof.
  unfold strip_suffix. rewrite rev_app_distr, is_prefix_app.
  rewrite length_app. replace (length s + length p - length p)%nat with (length s) by lia.
  apply take_app_length.
Qed.

Lemma qp_decode_lines segs tail :
  remove_marker soft_break tail = tail ->
  qp_decode (join soft_break (map qp_escape segs) ++ tail) = concat segs ++ unescape_hex tail.
Proof.
  intros Ht. unfold qp_decode. rewrite remove_soft_join, Ht. apply unescape_qp_escape.
Qed.

Lemma q_decode_lines lead segs :
  lead = [] \/ lead = CRLF ++ B " " ->
  q_decode (lead ++ q_open ++ join q_fold (map q_escape segs) ++ q_close) = concat segs.
Proof.
  intros Hl. unfold q_decode.
  assert (E : strip_prefix (CRLF ++ B " ")
                (lead ++ q_open ++ join q_fold (map q_escape segs) ++ q_close)
              = q_open ++ join q_fold (map q_escape segs) ++ q_close)
    by (destruct Hl as [-> | ->]; reflexivity).
  rewrite E.
  change (strip_prefix q_open (q_open ++ ?x)) with x.
  rewrite strip_suffix_app, remove_fold_join. apply unescape_q_escape.
Qed.

(** Decoding the output of [QuotedPrintableEncode]. *)
Lemma qp_decode_encode src :
  qp_decode (QuotedPrintableEncode src)
  = src ++ (if ends_in_space src then ["="%byte] else []).
Proof.
  destruct (QuotedPrintableEncode_lines src) as (segs & Hc & _ & ->).
  rewrite qp_decode_lines, Hc; destruct (ends_in_space src); reflexivity.
Qed.

(** Decoding the output of [QEncode], at any offset. *)
Lemma q_decode_encode src offset : q_decode (fst (QEncode src offset)) = src.
Proof.
  destruct src as [|c rest]; [reflexivity|].
  destruct (QEncode_lines (c :: rest) offset ltac:(discriminate))
    as (lead & segs & Hl & Hc & _ & ->).
  rewrite q_decode_lines, Hc by exact Hl. reflexivity.
Qed.

(** * Address.encode *)
Lemma control_or_high_printable c : control_or_high c = negb (printable c).
Proof. destruct c; reflexivity. Qed.

Lemma plain_name_byte_spec c :
  plain_name_byte c = true ->
  printable c = true /\ (Byte.eqb c BSLASH || Byte.eqb c DQUOTE) = false.
Proof. destruct c; try discriminate; intros _; split; reflexivity. Qed.

Lemma name_scan_plain name nq :
  forallb plain_name_byte name = true -> name_scan name nq = (nq, true).
Proof.
  revert nq. induction name as [|c name IH]; intros nq Hall; [reflexivity|].
  cbn in *. apply andb_prop in Hall as [Hc Hall].
  destruct (plain_name_byte_spec c Hc) as [-> ->]. apply IH, Hall.
Qed.

Lemma quote_name_plain name dst :
  forallb plain_name_byte name = true -> quote_name dst name = dst ++ name.
Proof.
  revert dst. induction name as [|c name IH]; intros dst Hall; [symmetry; apply app_nil_r|].
  cbn in *. apply andb_prop in Hall as [Hc Hall].
  destruct (plain_name_byte_spec c Hc) as [_ ->]. rewrite IH by exact Hall.
  rewrite <- app_assoc. reflexivity.
Qed.

Lemma name_scan_unsafe name nq :
  existsb control_or_high name = true -> snd (name_scan name nq) = false.
Proof.
  revert nq. induction name as [|c name IH]; intros nq Hex; [discriminate|].
  cbn in *. rewrite control_or_high_printable in Hex.
  destruct (printable c); cbn in *; [apply IH, Hex|reflexivity].
Qed.

Lemma existsb_nonempty {A} (f : A -> bool) l : existsb f l = true -> l <> [].
Proof. destruct l; [discriminate|discriminate]. Qed.

(** The quoted branch of [encode]. *)
Lemma Address_encode_quoted a offset :
  Name a <> [] -> forallb plain_name_byte (Name a) = true ->
  exists sep,
    (sep = B " " \/ sep = CRLF ++ B " ")
    /\ fst (Address_encode a offset)
       = [DQUOTE] ++ Name a ++ [DQUOTE] ++ sep ++ B "<" ++ Addr a ++ B ">".
Proof.
  intros Hne Hall. unfold Address_encode.
  destruct (len_pos_nonempty _ Hne) as [-> _].
  rewrite name_scan_plain by exact Hall. rewrite quote_name_plain by exact Hall.
  destruct (_ <=? 74); [exists (B " ")|exists (CRLF ++ B " ")];
    (split; [auto|]); cbn [fst]; rewrite <- !app_assoc; reflexivity.
Qed.

(** The encoded-word branch of [encode]. *)
Lemma Address_encode_qword a offset :
  existsb control_or_high (Name a) = true ->
  exists sep lead segs,
    (sep = B " " \/ sep = CRLF ++ B " ")
    /\ (lead = [] \/ lead = CRLF ++ B " ")
    /\ concat segs = Name a
    /\ fst (QEncode (Name a) offset)
       = lead ++ q_open ++ join q_fold (map q_escape segs) ++ q_close
    /\ fst (Address_encode a offset)
       = fst (QEncode (Name a) offset) ++ sep ++ B "<" ++ Addr a ++ B ">".
Proof.
  intros Hex. pose proof (existsb_nonempty _ _ Hex) as Hne.
  destruct (QEncode_lines (Name a) offset Hne) as (lead & segs & Hl & Hc & _ & Hq).
  unfold Address_encode.
  destruct (len_pos_nonempty _ Hne) as [-> _].
  pose proof (name_scan_unsafe (Name a) 0 Hex) as Hs.
  destruct (name_scan (Name a) 0) as [nq safe]. cbn in Hs. subst safe.
  destruct (QEncode (Name a) offset) as [buf off'] eqn:E. cbn [fst] in *.
  destruct (_ <=? 74); [exists (B " ")|exists (CRLF ++ B " ")]; exists lead, segs;
    (split; [auto|]); (split; [exact Hl|]); (split; [exact Hc|]); (split; [exact Hq|]);
    cbn [fst]; rewrite <- !app_assoc; reflexivity.
Qed.

(** * SeemsValidAddr *)
Lemma sva_seen_at_again : forall b st c,
  seenAt st = true -> sva_loop st (b ++ "@"%byte :: c) = false.
Proof.
  induction b as [|x b IH]; intros st c Hat.
  - cbn. rewrite Hat. reflexivity.
  - cbn [app sva_loop]. rewrite Hat.
    repeat match goal with |- context [if ?g then _ else _] => destruct g end;
      try reflexivity; apply IH; cbn; first [assumption|reflexivity].
Qed.

Lemma sva_two_ats a b c : SeemsValidAddr (a ++ "@"%byte :: b ++ "@"%byte :: c) = false.
Proof.
  unfold SeemsValidAddr. generalize (Build_sva_flags false false false false).
  induction a as [|x a IH]; intros st.
  - cbn [app sva_loop]. change (Byte.eqb "@" "@") with true. cbv iota.
    destruct (seenAt st); [reflexivity|]. apply sva_seen_at_again. reflexivity.
  - cbn [app sva_loop].
    repeat match goal with |- context [if ?g then _ else _] => destruct g end;
      try reflexivity; apply IH.
Qed.

Lemma sva_no_at : forall addr st,
  seenAt st = false -> seenTld st = false ->
  forallb (fun c => negb (Byte.eqb c "@")) addr = true -> sva_loop st addr = false.
Proof.
  induction addr as [|x addr IH]; intros st Hat Htld Hall; [exact Htld|].
  cbn in Hall. apply andb_prop in Hall as [Hx Hall]. apply negb_true_iff in Hx.
  cbn [sva_loop]. rewrite Hx, Hat.
  repeat match goal with |- context [if ?g then _ else _] => destruct g end;
    try reflexivity; apply IH; cbn; first [assumption|reflexivity].
Qed.

Lemma sva_bracket_after : forall b st x c,
  seenAt st = true ->
  (Byte.eqb x "[" || Byte.eqb x "]" || Byte.eqb x BSLASH) = true ->
  sva_loop st (b ++ x :: c) = false.
Proof.
  induction b as [|y b IH]; intros st x c Hat Hx.
  - destruct x; try discriminate Hx; cbn; rewrite Hat; reflexivity.
  - cbn [app sva_loop]. rewrite Hat.
    repeat match goal with |- context [if ?g then _ else _] => destruct g end;
      try reflexivity; apply IH; cbn; first [assumption|reflexivity].
Qed.

Lemma sva_no_dot_after : forall b st,
  seenAt st = true -> seenDot st = false -> seenTld st = false ->
  forallb (fun c => negb (Byte.eqb c ".")) b = true -> sva_loop st b = false.
Proof.
  induction b as [|y b IH]; intros st Hat Hdot Htld Hall; [exact Htld|].
  cbn in Hall. apply andb_prop in Hall as [Hy Hall]. apply negb_true_iff in Hy.
  cbn [sva_loop]. rewrite Hy, Hat, Hdot.
  repeat match goal with |- context [if ?g then _ else _] => destruct g end;
    try reflexivity; apply IH; cbn; first [assumption|reflexivity].
Qed.

(** Before the ['@'] the flags [seenDot] and [seenTld] stay false. *)
Lemma sva_prefix_then : forall a st rest,
  seenAt st = false -> seenDot st = false -> seenTld st = false ->
  (forall st', seenAt st' = true -> seenDot st' = false -> seenTld st' = false ->
               sva_loop st' rest = false) ->
  sva_loop st (a ++ "@"%byte :: rest) = false.
Proof.
  induction a as [|x a IH]; intros st rest Hat Hdot Htld Hrest.
  - cbn [app sva_loop]. change (Byte.eqb "@" "@") with true. cbv iota. rewrite Hat.
    apply Hrest; cbn; first [assumption|reflexivity].
  - cbn [app sva_loop]. rewrite Hat.
    repeat match goal with |- context [if ?g then _ else _] => destruct g end;
      try reflexivity;
      first [ apply sva_seen_at_again; reflexivity
            | apply IH; cbn; first [assumption|reflexivity] ].
Qed.

(** What [SeemsValidAddr] rejects. *)
Lemma SeemsValidAddr_rejects :
  (forall addr, forallb (fun c => negb (Byte.eqb c "@")) addr = true ->
                SeemsValidAddr addr = false)
  /\ (forall a b c, SeemsValidAddr (a ++ "@"%byte :: b ++ "@"%byte :: c) = false)
  /\ (forall a b, forallb (fun c => negb (Byte.eqb c ".")) b = true ->
                  SeemsValidAddr (a ++ "@"%byte :: b) = false)
  /\ (forall a b x c, (Byte.eqb x "[" || Byte.eqb x "]" || Byte.eqb x BSLASH) = true ->
                      SeemsValidAddr (a ++ "@"%byte :: b ++ x :: c) = false).
Proof.
  split; [|split; [|split]].
  - intros addr Hall. apply sva_no_at; auto.
  - apply sva_two_ats.
  - intros a b Hall. apply (sva_prefix_then a _ b); auto.
    intros st' H1 H2 H3. apply sva_no_dot_after; assumption.
  - intros a b x c Hx. apply (sva_prefix_then a); auto.
    intros st' H1 _ _. apply sva_bracket_after; assumption.
Qed.

(** * Compose *)
(** Both sides of a layout equation are brought to one right-nested list. *)
Ltac eval_constants :=
  repeat match goal with
         | |- context [B ?s] => let v := eval vm_compute in (B s) in change (B s) with v
         | |- context [utf8_of_rune ?r] =>
             let v := eval vm_compute in (utf8_of_rune r) in change (utf8_of_rune r) with v
         end;
  unfold CRLF.

Ltac layout :=
  unfold synthesized_text, related_block, attachment_block, part_content, multipart_header, header_line,
    delimiter, close_delimiter, boundary_mixed, boundary_alternative, boundary_related,
    b64_body, Write;
  cbn [foldl Write1 map concat];
  eval_constants;
  repeat (rewrite <- !app_assoc; cbn [app]).

Lemma len_gtb_nil {A} (l : list A) : (len l >? 0) = negb (bool_decide (l = [])).
Proof. destruct l; [reflexivity|]. rewrite len_cons. pose proof (len_nonneg l).
  cbn. apply Z.gtb_lt. lia. Qed.

Lemma len_eqb_nil {A} (l : list A) : (len l =? 0) = bool_decide (l = []).
Proof. destruct l; [reflexivity|]. rewrite len_cons. pose proof (len_nonneg l).
  cbn. apply Z.eqb_neq. lia. Qed.

Lemma Write_app msg vs : Write msg vs = msg ++ concat (map (Write1 []) vs).
Proof.
  unfold Write. revert msg. induction vs as [|v vs IH]; intros msg.
  - cbn. symmetry. apply app_nil_r.
  - cbn [foldl map concat]. rewrite IH, app_assoc. f_equal.
    destruct v; reflexivity.
Qed.

Lemma if_Write (c : bool) msg vs :
  (if c then Write msg vs else msg) = msg ++ (if c then concat (map (Write1 []) vs) else []).
Proof. destruct c; [apply Write_app|symmetry; apply app_nil_r]. Qed.

Lemma all_safe_forallb src : all_safe src = forallb printable src.
Proof. induction src as [|c src IH]; [reflexivity|]. cbn. rewrite IH. destruct (printable c); reflexivity. Qed.

Lemma std_base64_length : forall s,
  length (std_base64 s) = (4 * ((length s + 2) / 3))%nat.
Proof.
  induction s as [|a|a b|a b c r IH] using list_ind3; try reflexivity.
  cbn [std_base64 length app]. rewrite IH.
  replace (S (S (S (length r))) + 2)%nat with ((length r + 2) + 1 * 3)%nat by lia.
  rewrite Nat.div_add by lia. lia.
Qed.

Lemma std_base64_padded : forall s,
  (length s mod 3 = 2)%nat -> exists x, std_base64 s = x ++ ["="%byte].
Proof.
  induction s as [|a|a b|a b c r IH] using list_ind3; intros Hm; try discriminate.
  - eexists [_; _; _]. reflexivity.
  - destruct IH as [x Hx].
    { cbn [length] in Hm. replace (S (S (S (length r)))) with (length r + 1 * 3)%nat in Hm by lia.
      rewrite Nat.Div0.mod_add in Hm. exact Hm. }
    cbn [std_base64]. rewrite Hx. eexists (_ :: _ :: _ :: _ :: x). reflexivity.
Qed.

(** The token: 43 characters, the base64 of a 32-byte hash without its one
    padding character. *)
Lemma token_of_hash (h : hash32) :
  length (token_of (hash_bytes h)) = 43%nat
  /\ std_base64 (hash_bytes h) = token_of (hash_bytes h) ++ ["="%byte]
  /\ Base64Encode (hash_bytes h) = Some (token_of (hash_bytes h) ++ ["="%byte]).
Proof.
  destruct h as [hb Hl]. cbn [hash_bytes]. unfold token_of.
  pose proof (std_base64_length hb) as Hlen. rewrite Hl in Hlen.
  change (4 * ((32 + 2) / 3))%nat with 44%nat in Hlen.
  destruct (std_base64_padded hb) as [x Hx]; [rewrite Hl; reflexivity|].
  rewrite Hx in Hlen |- *. rewrite length_app in Hlen. cbn [length] in Hlen.
  assert (Hx43 : length x = 43%nat) by lia.
  assert (Et : take 43 (x ++ ["="%byte]) = x) by (rewrite <- Hx43; apply take_app_length).
  rewrite Et. split; [exact Hx43|]. split; [reflexivity|].
  rewrite Base64Encode_wrap76, Hx, wrap76_col, wrap_col_small; [reflexivity|].
  unfold len. rewrite length_app, Hx43. cbn. lia.
Qed.

Section compose.

Context `{Collaborators}.

#[local] Arguments QuotedPrintableEncode : simpl never.

#[local] Arguments wrap76 : simpl never.

#[local] Arguments std_base64 : simpl never.

#[local] Arguments listAddrs : simpl never.

#[local] Arguments Address_encode : simpl never.

#[local] Arguments Address_Domain : simpl never.

#[local] Arguments QEncodeIfNeeded : simpl never.

#[local] Arguments QEncode : simpl never.

#[local] Arguments Itoa : simpl never.

#[local] Arguments token_of : simpl never.

Lemma make_uid_eq ts subject :
  make_uid ts subject = Some (token_of (hash_bytes (sha256_Sum256 (ts ++ subject)))).
Proof.
  unfold make_uid.
  destruct (token_of_hash (sha256_Sum256 (ts ++ subject))) as (Hl & _ & ->).
  cbn [mbind option_bind]. unfold slice_to, len. rewrite length_app, Hl. cbn [length].
  change (43 <=? Z.of_nat (43 + 1)) with true. cbv iota.
  change (Z.to_nat 43) with 43%nat. f_equal. rewrite <- Hl at 1. apply take_app_length.
Qed.

Lemma write_related_eq partNo token : forall rs msg,
  write_related (Itoa partNo) token rs msg
  = Some (msg ++ concat (map (related_block partNo token) rs)).
Proof.
  induction rs as [|r rs IH]; intros msg.
  - cbn. rewrite app_nil_r. reflexivity.
  - cbn [write_related map concat]. rewrite Base64Encode_wrap76. cbn [mbind option_bind].
    rewrite IH. f_equal. layout. reflexivity.
Qed.

Lemma write_parts_eq alt token : forall ps partNo msg,
  write_parts alt token partNo ps msg = Some (msg ++ part_blocks alt token partNo ps).
Proof.
  induction ps as [|p ps IH]; intros partNo msg.
  - cbn. rewrite app_nil_r. reflexivity.
  - cbn [write_parts part_blocks]. unfold part_block, part_content.
    rewrite len_gtb_nil. rewrite !if_Write.
    destruct (part_cte p); rewrite ?Base64Encode_wrap76; cbn [mbind option_bind];
      rewrite write_related_eq; cbn [mbind option_bind]; rewrite if_Write, IH; f_equal;
      destruct (bool_decide (part_related p = [])); cbn [negb]; destruct alt;
      layout; rewrite ?app_nil_r; reflexivity.
Qed.

Lemma write_attachments_eq token h : forall ls msg,
  write_attachments token h ls msg
  = Some (msg ++ concat (map (attachment_block token) (map (cells h) ls))).
Proof.
  induction ls as [|l ls IH]; intros msg.
  - cbn. rewrite app_nil_r. reflexivity.
  - cbn [write_attachments map concat]. rewrite Base64Encode_wrap76. cbn [mbind option_bind].
    rewrite IH. f_equal. layout. reflexivity.
Qed.

End compose.

Section compose2.

Context `{Collaborators}.

#[local] Arguments QuotedPrintableEncode : simpl never.

#[local] Arguments wrap76 : simpl never.

#[local] Arguments std_base64 : simpl never.

#[local] Arguments listAddrs : simpl never.

#[local] Arguments Address_encode : simpl never.

#[local] Arguments Address_Domain : simpl never.

#[local] Arguments QEncodeIfNeeded : simpl never.

#[local] Arguments QEncode : simpl never.

#[local] Arguments Itoa : simpl never.

#[local] Arguments token_of : simpl never.

Ltac decide_nil :=
  rewrite ?bool_decide_eq_true_2 by reflexivity;
  rewrite ?bool_decide_eq_false_2 by discriminate;
  cbn [negb].

Lemma write_headers_eq token domain ts from m msg :
  write_headers token domain ts from m msg
  = msg ++ headers token domain ts (m_subject m) from (m_replyTo m) (m_to m) (m_cc m).
Proof.
  unfold write_headers, headers, message_id_line, later_headers, wants_reply_to,
    QEncodeIfNeeded, subject_value.
  rewrite all_safe_forallb.
  destruct (Address_encode from 6) as [addr pos]. cbn [fst].
  rewrite len_gtb_nil, len_eqb_nil.
  destruct (m_replyTo m) as [r|].
  - rewrite len_eqb_nil.
    replace (bool_decide (Addr r <> [])) with (negb (bool_decide (Addr r = [])))
      by (symmetry; apply bool_decide_not).
    replace (bool_decide (Addr r <> Addr from)) with (negb (bool_decide (Addr r = Addr from)))
      by (symmetry; apply bool_decide_not).
    destruct (negb _ && negb _); cbv iota; destruct (Address_encode r 10) as [addr' pos'];
      destruct (m_to m), (m_cc m); decide_nil; cbn [fst];
      rewrite !Write_app; layout; rewrite ?app_nil_r; reflexivity.
  - destruct (m_to m), (m_cc m); decide_nil; cbn [fst];
      rewrite !Write_app; layout; rewrite ?app_nil_r; reflexivity.
Qed.

Lemma write_body_eq token m h msg :
  write_body token m h msg
  = Some (msg ++ mime_body token (m_parts m) (m_text m) (m_html m)
                   (map (cells h) (m_attachments m))).
Proof.
  unfold write_body, mime_body, alternatives. fold (is_alternative (m_parts m) (m_html m)).
  rewrite len_gtb_nil.
  set (alt := is_alternative (m_parts m) (m_html m)).
  assert (Hatts : bool_decide (map (cells h) (m_attachments m) = []) = bool_decide (m_attachments m = []))
    by (destruct (m_attachments m); reflexivity).
  rewrite Hatts.
  destruct (m_html m) as [hi|], (m_text m) as [ti|];
    rewrite !if_Write, ?Write_app, write_parts_eq; cbn [mbind option_bind];
    rewrite if_Write, write_attachments_eq; cbn [mbind option_bind];
    rewrite if_Write; f_equal;
    destruct (bool_decide (m_attachments m = [])), alt; cbn [negb];
    layout; rewrite ?app_nil_r; reflexivity.
Qed.

Lemma compose_message_eq ts from m h :
  compose_message ts from m h
  = Some (headers (message_token ts m) (message_domain m from) ts (m_subject m) from
            (m_replyTo m) (m_to m) (m_cc m)
          ++ mime_body (message_token ts m) (m_parts m) (m_text m) (m_html m)
               (map (cells h) (m_attachments m))).
Proof.
  unfold compose_message. rewrite make_uid_eq. cbn [mbind option_bind].
  rewrite write_body_eq, write_headers_eq. cbn [app]. unfold message_token, message_domain.
  destruct (m_domain m); reflexivity.
Qed.

End compose2.

Section compose3.

Context `{Collaborators}.

Lemma same_envelope_refl m : same_envelope m m.
Proof. repeat split. Qed.

Lemma same_envelope_trans m1 m2 m3 :
  same_envelope m1 m2 -> same_envelope m2 m3 -> same_envelope m1 m3.
Proof.
  unfold same_envelope. intros H1 H2. destruct_and!. repeat split; congruence.
Qed.

Lemma Message_prepare_envelope force m h :
  same_envelope m (fst (Message_prepare force m h))
  /\ m_subject (fst (Message_prepare force m h)) = m_subject m
  /\ m_parts (fst (Message_prepare force m h)) = m_parts m.
Proof.
  unfold Message_prepare. destruct (m_prepared m && negb force).
  - cbn. split; [apply same_envelope_refl|auto].
  - destruct (prepare_parts _ _ _ _) as [errs allOk].
    destruct (prepare_attachments _ _ _ _ _) as [[h' errs'] allOk'].
    cbn. repeat split.
Qed.

Lemma execute_parts_length d : forall ps n errs,
  length (fst (execute_parts d n ps errs)) = length ps.
Proof.
  induction ps as [|p ps IH]; intros n errs; [reflexivity|].
  cbn [execute_parts].
  destruct (part_tpl p) as [t|]; [destruct (ttpl_Execute t d) as [out err]|
    destruct (part_htmlTpl p) as [t|]; [destruct (htpl_Execute t d) as [out err]|]];
    match goal with
    | |- context [execute_parts d ?n' ps ?e] =>
        specialize (IH n' e); destruct (execute_parts d n' ps e)
    end; cbn in *; congruence.
Qed.

Lemma render_templates_envelope d m : same_envelope m (render_templates d m).
Proof.
  unfold render_templates.
  set (m1 := match m_subjectTpl m with Some _ => _ | None => m end).
  assert (E1 : same_envelope m m1 /\ m_parts m1 = m_parts m).
  { subst m1. destruct (m_subjectTpl m) as [t|]; [|split; [apply same_envelope_refl|auto]].
    destruct (ttpl_Execute t d) as [out [e|]]; cbn; repeat split. }
  destruct E1 as [E1 Ep]. eapply same_envelope_trans; [exact E1|].
  pose proof (execute_parts_length d (m_parts m1) 0 (m_errors m1)) as Hl.
  destruct (execute_parts d 0 (m_parts m1) (m_errors m1)) as [ps errs]. cbn [fst] in Hl.
  cbn [m_parts set_errors set_parts].
  destruct (len ps =? 0); cbn; repeat split; exact Hl.
Qed.

(** The state in which [Compose] reaches its gate. *)
Lemma Compose_gate dflt ts d m h from :
  resolve_from dflt m = Some from ->
  let st := Message_prepare false (render_templates d m) h in
  same_envelope m (fst st)
  /\ Message_Compose dflt ts d m h
     = if bool_decide (m_errors (fst st) = []) then
         Some (headers (message_token ts (fst st)) (message_domain (fst st) from) ts
                 (m_subject (fst st)) from (m_replyTo (fst st)) (m_to (fst st)) (m_cc (fst st))
               ++ mime_body (message_token ts (fst st)) (m_parts (fst st)) (m_text (fst st))
                    (m_html (fst st)) (map (cells (snd st)) (m_attachments (fst st))),
               fst st, snd st)
       else Some ([], fst st, snd st).
Proof.
  intros Hf st. split.
  - eapply same_envelope_trans; [apply render_templates_envelope|].
    apply Message_prepare_envelope.
  - unfold Message_Compose. rewrite Hf. fold st. destruct st as [m' h']. cbn [fst snd].
    rewrite len_eqb_nil. destruct (bool_decide (m_errors m' = [])); cbn [negb]; [|reflexivity].
    rewrite compose_message_eq. reflexivity.
Qed.

Lemma headers_nonempty token domain ts subject from replyTo to cc body :
  headers token domain ts subject from replyTo to cc ++ body <> [].
Proof. unfold headers, message_id_line, header_line. discriminate. Qed.

End compose3.

Section compose4.

Context `{Collaborators}.

(** [Compose] does not look at the Bcc list. *)
Lemma Message_prepare_set_bcc force bcc m h :
  Message_prepare force (set_bcc bcc m) h
  = (set_bcc bcc (fst (Message_prepare force m h)), snd (Message_prepare force m h)).
Proof.
  unfold Message_prepare. cbn [m_prepared m_parts m_errors m_attachments set_bcc].
  destruct (m_prepared m && negb force); [reflexivity|].
  destruct (prepare_parts _ _ _ _) as [errs allOk].
  destruct (prepare_attachments _ _ _ _ _) as [[h' errs'] allOk']. reflexivity.
Qed.

Lemma render_templates_set_bcc d bcc m :
  render_templates d (set_bcc bcc m) = set_bcc bcc (render_templates d m).
Proof.
  unfold render_templates. cbn [m_subjectTpl set_bcc].
  destruct (m_subjectTpl m) as [t|].
  - destruct (ttpl_Execute t d) as [out [e|]];
      cbn [m_parts m_errors set_subject add_error set_errors];
      destruct (execute_parts _ _ _ _) as [ps errs]; cbn [m_parts set_errors set_parts];
      destruct (len ps =? 0); reflexivity.
  - cbn [m_parts m_errors].
    destruct (execute_parts _ _ _ _) as [ps errs]; cbn [m_parts set_errors set_parts];
      destruct (len ps =? 0); reflexivity.
Qed.

Lemma Compose_set_bcc dflt ts d bcc m h :
  Message_Compose dflt ts d (set_bcc bcc m) h
  = match Message_Compose dflt ts d m h with
    | Some (out, m', h') => Some (out, set_bcc bcc m', h')
    | None => None
    end.
Proof.
  unfold Message_Compose. change (resolve_from dflt (set_bcc bcc m)) with (resolve_from dflt m).
  destruct (resolve_from dflt m) as [from|]; [|reflexivity].
  rewrite render_templates_set_bcc, Message_prepare_set_bcc.
  destruct (Message_prepare false (render_templates d m) h) as [m' h']. cbn [fst snd].
  change (m_errors (set_bcc bcc m')) with (m_errors m').
  destruct (negb (len (m_errors m') =? 0)); [reflexivity|].
  rewrite !compose_message_eq. reflexivity.
Qed.

(** The loops of [RecipientAddrs]: [seen] holds what is in [to]; every
    address looked at is in [to] afterwards, and nothing is removed. *)
Lemma add_unseen_spec : forall vals to (seen : gset bytes),
  (forall x, x ∈ seen <-> x ∈ to) ->
  let r := add_unseen vals to seen in
  (forall x, x ∈ snd r <-> x ∈ fst r)
  /\ (forall x, x ∈ to -> x ∈ fst r)
  /\ (forall a, a ∈ vals -> Addr a ∈ fst r).
Proof.
  induction vals as [|v vals IH]; intros to seen Hinv.
  - cbn. split; [exact Hinv|]. split; [auto|]. intros a Ha. inversion Ha.
  - cbn [add_unseen]. destruct (bool_decide (Addr v ∈ seen)) eqn:E.
    + apply bool_decide_eq_true in E.
      destruct (IH to seen Hinv) as (I1 & I2 & I3). split; [exact I1|]. split; [exact I2|].
      intros a Ha. apply elem_of_cons in Ha as [->|Ha]; [|apply I3, Ha].
      apply I2, Hinv, E.
    + destruct (IH (to ++ [Addr v]) ({[Addr v]} ∪ seen)) as (I1 & I2 & I3).
      { intros x. rewrite elem_of_union, elem_of_singleton, elem_of_app, list_elem_of_singleton.
        rewrite Hinv. tauto. }
      split; [exact I1|]. split.
      * intros x Hx. apply I2, elem_of_app. left. exact Hx.
      * intros a Ha. apply elem_of_cons in Ha as [->|Ha]; [|apply I3, Ha].
        apply I2, elem_of_app. right. apply list_elem_of_singleton. reflexivity.
Qed.

Lemma RecipientAddrs_all dflt m a :
  a ∈ m_to m ++ m_cc m ++ m_bcc m -> Addr a ∈ Message_RecipientAddrs dflt m.
Proof.
  intros Ha. unfold Message_RecipientAddrs.
  set (init := if len (m_to m) =? 0 then _ else _).
  assert (Hinit : forall x, x ∈ snd init <-> x ∈ fst init).
  { subst init. destruct (len (m_to m) =? 0); cbn; intros x.
    - rewrite elem_of_singleton, list_elem_of_singleton. tauto.
    - rewrite elem_of_empty. split; [tauto|]. intros Hx. inversion Hx. }
  destruct init as [to0 seen0]. cbn [fst snd] in Hinit.
  pose proof (add_unseen_spec (m_to m) to0 seen0 Hinit) as (A1 & A2 & A3).
  destruct (add_unseen (m_to m) to0 seen0) as [to1 seen1]. cbn [fst snd] in *.
  pose proof (add_unseen_spec (m_cc m) to1 seen1 A1) as (B1 & B2 & B3).
  destruct (add_unseen (m_cc m) to1 seen1) as [to2 seen2]. cbn [fst snd] in *.
  pose proof (add_unseen_spec (m_bcc m) to2 seen2 B1) as (C1 & C2 & C3).
  destruct (add_unseen (m_bcc m) to2 seen2) as [to3 seen3]. cbn [fst snd] in *.
  apply elem_of_app in Ha as [Ha|Ha]; [apply C2, B2, A3, Ha|].
  apply elem_of_app in Ha as [Ha|Ha]; [apply C2, B3, Ha|apply C3, Ha].
Qed.

Lemma kept_cons a addr :
  kept (a :: addr)
  = match a with
    | Some a' => if valid_address a' then a' :: kept addr else kept addr
    | None => kept addr
    end.
Proof. reflexivity. Qed.

Lemma keep_valid_kept : forall addr lst, keep_valid lst addr = lst ++ kept addr.
Proof.
  induction addr as [|a addr IH]; intros lst; [symmetry; apply app_nil_r|].
  cbn [keep_valid]. rewrite kept_cons. destruct a as [a|]; [|apply IH].
  unfold valid_address. destruct (SeemsValidAddr (Addr a)); [|apply IH].
  rewrite IH, <- app_assoc. reflexivity.
Qed.

Lemma kept_valid addr : forallb valid_address (kept addr) = true.
Proof.
  induction addr as [|a addr IH]; [reflexivity|].
  rewrite kept_cons. destruct a as [a|]; [|exact IH].
  destruct (valid_address a) eqn:E; [|exact IH]. cbn. rewrite E. exact IH.
Qed.

Lemma checked_pointer_valid (addr : option Address) :
  valid_pointer match addr with
                | Some a => if negb (SeemsValidAddr (Addr a)) then None else Some a
                | None => None
                end = true.
Proof.
  destruct addr as [a|]; [|reflexivity].
  destruct (SeemsValidAddr (Addr a)) eqn:E; [exact E|reflexivity].
Qed.

End compose4.

(** * The claims *)
(** C1 (as stated, refuted): [QuotedPrintableEncode] of ["test "] is
    ["test ="]; removing [=CRLF] markers and un-escaping [=XX] leaves the
    final [=] in place, so the decoded bytes are not the input. *)
Lemma C1_trailing_space_counterexample :
  QuotedPrintableEncode (B "test ") = B "test ="
  /\ qp_decode (QuotedPrintableEncode (B "test ")) <> B "test ".
Proof. split; [reflexivity|]. vm_compute. discriminate. Qed.

(** C1 (amended): for every input and every offset, the output of
    [QuotedPrintableEncode] is the escapes of consecutive segments of the
    input joined by soft breaks, followed by one [=] when the input ends in a
    space or tab; the output of [QEncode] is, for a non-empty input, an
    optional leading fold, then the encoded-words of consecutive segments
    joined by folds.  No cut between two segments separates a lead byte and
    its continuation bytes from a following continuation byte.  Decoding the
    quoted-printable output gives the input (followed by that final [=] when
    the input ends in a space or tab); decoding the Q-encoded output gives
    exactly the input. *)
Theorem C1_text_encodings_round_trip (src : bytes) (offset : Z) :
  (exists segs,
      concat segs = src /\ good_breaks [] segs = true
      /\ QuotedPrintableEncode src
         = join soft_break (map qp_escape segs)
           ++ (if ends_in_space src then ["="%byte] else []))
  /\ (src <> [] ->
      exists lead segs,
        (lead = [] \/ lead = CRLF ++ B " ")
        /\ concat segs = src /\ good_breaks [] segs = true
        /\ fst (QEncode src offset)
           = lead ++ q_open ++ join q_fold (map q_escape segs) ++ q_close)
  /\ qp_decode (QuotedPrintableEncode src)
     = src ++ (if ends_in_space src then ["="%byte] else [])
  /\ q_decode (fst (QEncode src offset)) = src.
Proof.
  split; [apply QuotedPrintableEncode_lines|].
  split; [apply QEncode_lines|].
  split; [apply qp_decode_encode|apply q_decode_encode].
Qed.

Lemma C1_text_encodings_round_trip_witness :
  q_decode (fst (QEncode (B "caf" ++ [xc3; xa9]) 9)) = B "caf" ++ [xc3; xa9]
  /\ exists lead segs,
       (lead = [] \/ lead = CRLF ++ B " ")
       /\ concat segs = B "caf" ++ [xc3; xa9] /\ good_breaks [] segs = true
       /\ fst (QEncode (B "caf" ++ [xc3; xa9]) 9)
          = lead ++ q_open ++ join q_fold (map q_escape segs) ++ q_close.
Proof.
  split.
  - apply (C1_text_encodings_round_trip (B "caf" ++ [xc3; xa9]) 9).
  - apply (C1_text_encodings_round_trip (B "caf" ++ [xc3; xa9]) 9). discriminate.
Defined.

(** C2: for every input, [Base64Encode] returns (it never writes outside its
    buffer) the standard base64 encoding of the input, with padding, broken
    into lines of at most 76 characters separated by CRLF, with no CRLF after
    the last line. *)
Theorem C2_Base64Encode_is_wrapped_std_base64 (src : bytes) :
  Base64Encode src = Some (wrap76 (std_base64 src)).
Proof. apply Base64Encode_wrap76. Qed.

(** C5 (the code departs from the claim): [SeemsValidAddr] rejects
    [user@sub.domain.tld], an ordinary address whose domain has two dots. *)
Theorem C5_SeemsValidAddr_rejects_subdomain :
  SeemsValidAddr (B "user@sub.domain.tld") = false
  /\ SeemsValidAddr (B "user@domain.tld") = true.
Proof. split; reflexivity. Qed.

(** C6: a non-empty display name of printable ASCII without double quote or
    backslash is written between double quotes, verbatim, and the output
    starts with the quote, not with an encoded-word; a display name with a
    control character or a byte of 0x80 and above is written as the
    encoded-word(s) of [QEncode].  Either way a space or a fold follows, then
    the address between angle brackets, which ends the output. *)
Theorem C6_Address_encode_name (a : Address) (offset : Z) :
  (Name a <> [] -> forallb plain_name_byte (Name a) = true ->
   exists sep,
     (sep = B " " \/ sep = CRLF ++ B " ")
     /\ fst (Address_encode a offset)
        = [DQUOTE] ++ Name a ++ [DQUOTE] ++ sep ++ B "<" ++ Addr a ++ B ">")
  /\ (existsb control_or_high (Name a) = true ->
      exists sep lead segs,
        (sep = B " " \/ sep = CRLF ++ B " ")
        /\ (lead = [] \/ lead = CRLF ++ B " ")
        /\ concat segs = Name a
        /\ fst (QEncode (Name a) offset)
           = lead ++ q_open ++ join q_fold (map q_escape segs) ++ q_close
        /\ fst (Address_encode a offset)
           = fst (QEncode (Name a) offset) ++ sep ++ B "<" ++ Addr a ++ B ">").
Proof.
  split.
  - apply Address_encode_quoted.
  - apply Address_encode_qword.
Qed.

Lemma C6_Address_encode_name_witness :
  (exists sep,
     (sep = B " " \/ sep = CRLF ++ B " ")
     /\ fst (Address_encode example_from 6)
        = [DQUOTE] ++ B "test name" ++ [DQUOTE] ++ sep ++ B "<" ++ B "test@example.com" ++ B ">")
  /\ (exists sep lead segs,
        (sep = B " " \/ sep = CRLF ++ B " ")
        /\ (lead = [] \/ lead = CRLF ++ B " ")
        /\ concat segs = B "nam" ++ [xc3; xa9]
        /\ fst (QEncode (B "nam" ++ [xc3; xa9]) 6)
           = lead ++ q_open ++ join q_fold (map q_escape segs) ++ q_close
        /\ fst (Address_encode {| Name := B "nam" ++ [xc3; xa9]; Addr := B "a@b.c" |} 6)
           = fst (QEncode (B "nam" ++ [xc3; xa9]) 6) ++ sep ++ B "<" ++ B "a@b.c" ++ B ">").
Proof.
  split.
  - apply (C6_Address_encode_name example_from 6); [discriminate|reflexivity].
  - apply (C6_Address_encode_name {| Name := B "nam" ++ [xc3; xa9]; Addr := B "a@b.c" |} 6).
    reflexivity.
Defined.

(** * listAddrs *)
Lemma listAddrs_loop_items : forall list i offset addrs,
  0 < i ->
  exists items,
    map snd items = list
    /\ Forall (fun it => list_separator it.1.1 = true) items
    /\ listAddrs_loop i list offset addrs = addrs ++ address_items items.
Proof.
  induction list as [|a list IH]; intros i offset addrs Hi.
  - exists []. cbn. rewrite app_nil_r. auto.
  - cbn [listAddrs_loop].
    assert (Hgt : (i >? 0) = true) by (apply Z.gtb_lt; lia). rewrite Hgt.
    assert (Hstep : forall sep column,
              list_separator sep = true ->
              exists items,
                map snd items = a :: list
                /\ Forall (fun it => list_separator it.1.1 = true) items
                /\ (let '(addr, offset0) := Address_encode a column in
                    listAddrs_loop (i + 1) list offset0
                      (Write (Write addrs [WString sep]) [WBytes addr]))
                   = addrs ++ address_items items).
    { intros sep column Hsep.
      destruct (Address_encode a column) as [addr off'] eqn:Ea.
      destruct (IH (i + 1) off' (Write (Write addrs [WString sep]) [WBytes addr]) ltac:(lia))
        as (items & Hm & Hs & ->).
      exists ((sep, column, a) :: items). split; [cbn; rewrite Hm; reflexivity|].
      split; [constructor; [exact Hsep|exact Hs]|].
      cbn [address_items]. rewrite Ea. cbn [fst]. rewrite !Write_app. cbn [map concat Write1].
      rewrite !app_nil_r, <- !app_assoc. reflexivity. }
    destruct (offset <? 75); [|destruct (offset <? 76)].
    + apply (Hstep (B ", ")). reflexivity.
    + apply (Hstep (B "," ++ CRLF ++ B " ")). reflexivity.
    + apply (Hstep (CRLF ++ B " , ")). reflexivity.
Qed.

(** The value that [listAddrs] writes: the first address encoded at the
    column it is given, then every further address after a separator. *)
Lemma listAddrs_items a rest offset :
  exists items,
    map snd items = rest
    /\ Forall (fun it => list_separator it.1.1 = true) items
    /\ listAddrs (a :: rest) offset = fst (Address_encode a offset) ++ address_items items.
Proof.
  unfold listAddrs. cbn [listAddrs_loop]. change (0 >? 0) with false. cbv iota.
  destruct (Address_encode a offset) as [addr off'].
  destruct (listAddrs_loop_items rest (0 + 1) off' (Write [] [WBytes addr]) ltac:(lia))
    as (items & Hm & Hs & ->).
  exists items. split; [exact Hm|]. split; [exact Hs|]. reflexivity.
Qed.

Lemma listAddrs_single a offset : listAddrs [a] offset = fst (Address_encode a offset).
Proof.
  unfold listAddrs. cbn [listAddrs_loop]. change (0 >? 0) with false. cbv iota.
  destruct (Address_encode a offset) as [addr off']. reflexivity.
Qed.

Section claims.

Context `{Collaborators}.

Lemma message_id_line_eq token domain :
  message_id_line token domain = B "Message-ID: <" ++ token ++ B "@" ++ domain ++ B ">" ++ CRLF.
Proof. unfold message_id_line, header_line. rewrite <- !app_assoc. reflexivity. Qed.

Lemma Compose_success dflt ts d m h out m' h' :
  Message_Compose dflt ts d m h = Some (out, m', h') -> m_errors m' = [] ->
  exists from,
    resolve_from dflt m = Some from /\ same_envelope m m'
    /\ out = headers (message_token ts m') (message_domain m' from) ts (m_subject m') from
               (m_replyTo m') (m_to m') (m_cc m')
             ++ mime_body (message_token ts m') (m_parts m') (m_text m') (m_html m')
                  (map (cells h') (m_attachments m')).
Proof.
  intros Hc He. destruct (resolve_from dflt m) as [from|] eqn:Hf.
  - destruct (Compose_gate dflt ts d m h from Hf) as [Henv Heq].
    rewrite Heq in Hc. clear Heq.
    destruct (Message_prepare false (render_templates d m) h) as [m1 h1]. cbn [fst snd] in *.
    destruct (bool_decide (m_errors m1 = [])) eqn:E; inversion Hc; subst.
    + exists from. auto.
    + apply bool_decide_eq_false in E. contradiction.
  - unfold Message_Compose in Hc. rewrite Hf in Hc. inversion Hc; subst.
    cbn in He. destruct (m_errors m); discriminate.
Qed.

(** C3: [Compose] always returns; either the result is the complete message
    (all header lines and the whole body, closing delimiters included), it is
    not empty and the error list is empty, or the result is empty and the
    error list is not.  So the result is empty exactly when the error list
    is not. *)
Theorem C3_Compose_all_or_nothing dflt ts d (m : Message) h :
  exists out m' h',
    Message_Compose dflt ts d m h = Some (out, m', h')
    /\ ((out <> [] /\ m_errors m' = []
         /\ exists from,
              resolve_from dflt m = Some from
              /\ out = headers (message_token ts m') (message_domain m' from) ts
                         (m_subject m') from (m_replyTo m') (m_to m') (m_cc m')
                       ++ mime_body (message_token ts m') (m_parts m') (m_text m')
                            (m_html m') (map (cells h') (m_attachments m')))
        \/ (out = [] /\ m_errors m' <> []))
    /\ (out = [] <-> m_errors m' <> []).
Proof.
  destruct (resolve_from dflt m) as [from|] eqn:Hf.
  - destruct (Compose_gate dflt ts d m h from Hf) as [_ Heq].
    destruct (Message_prepare false (render_templates d m) h) as [m1 h1]. cbn [fst snd] in *.
    destruct (bool_decide (m_errors m1 = [])) eqn:E.
    + apply bool_decide_eq_true in E. eexists _, m1, h1. split; [exact Heq|].
      pose proof (headers_nonempty (message_token ts m1) (message_domain m1 from) ts
                    (m_subject m1) from (m_replyTo m1) (m_to m1) (m_cc m1)
                    (mime_body (message_token ts m1) (m_parts m1) (m_text m1) (m_html m1)
                       (map (cells h1) (m_attachments m1)))) as Hne.
      split.
      * left. split; [exact Hne|]. split; [exact E|]. exists from. auto.
      * split; [intros Ho; contradiction|intros Hn; contradiction].
    + apply bool_decide_eq_false in E. exists [], m1, h1. split; [exact Heq|].
      split; [right; auto|]. split; auto.
  - exists [], (add_error (B "no From address") m), h.
    unfold Message_Compose. rewrite Hf. split; [reflexivity|].
    assert (Hne : m_errors (add_error (B "no From address") m) <> [])
      by (cbn; destruct (m_errors m); discriminate).
    split; [right; auto|]. split; auto.
Qed.

(** C7: when [Compose] succeeds the output starts with the header lines
    Message-ID, Date, Subject (the subject itself when it is printable ASCII,
    its encoded-words otherwise), From, Reply-To (only when a reply-to
    address is set, not empty and not the From address), To, Cc (only when
    the Cc list is not empty) and MIME-Version: 1.0, in this order, followed
    by the body.  The value of To and of Cc is the first address of the list
    encoded at column 4, then each further address of the list, in order,
    after a separator; for To the From address stands in when the list is
    empty, so the value is then the encoded From address alone.  The output
    is the same whatever the Bcc list is, and every Bcc address is among the
    recipients handed to the transport. *)
Theorem C7_header_order dflt ts d (m : Message) h out m' h' :
  Message_Compose dflt ts d m h = Some (out, m', h') -> m_errors m' = [] ->
  exists from to_items cc_items,
    resolve_from dflt m = Some from
    /\ map snd to_items = tail (m_to m)
    /\ Forall (fun it => list_separator it.1.1 = true) to_items
    /\ map snd cc_items = tail (m_cc m)
    /\ Forall (fun it => list_separator it.1.1 = true) cc_items
    /\ out = header_line (B "Message-ID")
               (B "<" ++ message_token ts m' ++ B "@" ++ message_domain m from ++ B ">")
             ++ header_line (B "Date") ts
             ++ header_line (B "Subject")
                  (if forallb printable (m_subject m') then m_subject m'
                   else fst (QEncode (m_subject m') 9))
             ++ header_line (B "From") (fst (Address_encode from 6))
             ++ match m_replyTo m with
                | Some r =>
                    if bool_decide (Addr r <> []) && bool_decide (Addr r <> Addr from)
                    then header_line (B "Reply-To") (fst (Address_encode r 10)) else []
                | None => []
                end
             ++ header_line (B "To")
                  (fst (Address_encode (hd from (m_to m)) 4) ++ address_items to_items)
             ++ match m_cc m with
                | [] => []
                | c :: _ =>
                    header_line (B "Cc") (fst (Address_encode c 4) ++ address_items cc_items)
                end
             ++ header_line (B "MIME-Version") (B "1.0")
             ++ mime_body (message_token ts m') (m_parts m') (m_text m') (m_html m')
                  (map (cells h') (m_attachments m'))
    /\ (forall bcc, exists m'',
          Message_Compose dflt ts d (set_bcc bcc m) h = Some (out, m'', h'))
    /\ (forall a, a ∈ m_bcc m -> Addr a ∈ Message_RecipientAddrs dflt m).
Proof.
  intros Hc He.
  destruct (Compose_success _ _ _ _ _ _ _ _ Hc He) as (from & Hf & Henv & ->).
  destruct (listAddrs_items (hd from (m_to m)) (tail (m_to m)) 4) as (ti & T1 & T2 & T3).
  assert (C : exists ci,
             map snd ci = tail (m_cc m)
             /\ Forall (fun it => list_separator it.1.1 = true) ci
             /\ match m_cc m with
                | [] => True
                | c :: _ => listAddrs (m_cc m) 4 = fst (Address_encode c 4) ++ address_items ci
                end).
  { destruct (m_cc m) as [|c rest]; [exists []; repeat split; constructor|].
    destruct (listAddrs_items c rest 4) as (ci & C1 & C2 & C3). exists ci. auto. }
  destruct C as (ci & C1 & C2 & C3).
  exists from, ti, ci. split; [exact Hf|]. split; [exact T1|]. split; [exact T2|].
  split; [exact C1|]. split; [exact C2|]. split; [|split].
  - unfold same_envelope in Henv. destruct_and!.
    unfold headers, message_id_line, later_headers, subject_value, wants_reply_to,
      message_domain.
    repeat match goal with E : _ m' = _ m |- _ => rewrite E; clear E end.
    rewrite <- T3.
    replace (match m_to m with [] => [from] | _ :: _ => m_to m end)
      with (hd from (m_to m) :: tail (m_to m)) by (destruct (m_to m); reflexivity).
    rewrite <- !app_assoc. do 4 f_equal.
    assert (Ecc : match m_cc m with
                  | [] => []
                  | _ :: _ => header_line (B "Cc") (listAddrs (m_cc m) 4)
                  end
                  = match m_cc m with
                    | [] => []
                    | c :: _ =>
                        header_line (B "Cc") (fst (Address_encode c 4) ++ address_items ci)
                    end).
    { destruct (m_cc m); [reflexivity|]. rewrite C3. reflexivity. }
    rewrite Ecc.
    destruct (m_replyTo m) as [r|]; [destruct (_ && _)|]; reflexivity.
  - intros bcc. rewrite Compose_set_bcc, Hc. eauto.
  - intros a Ha. apply RecipientAddrs_all. rewrite !elem_of_app. auto.
Qed.

(** C8: when [Compose] succeeds, the token is the standard base64 of the
    SHA-256 of the timestamp followed by the resolved subject, without its
    one padding character: 43 characters.  The output starts with
    [Message-ID: <token@domain>], and the body is laid out with the
    boundaries [=_m token], [=_a token] and [=_r partIndex token].  Two
    messages with the same resolved subject get the same token at the same
    timestamp. *)
Theorem C8_token dflt ts d (m : Message) h out m' h' :
  Message_Compose dflt ts d m h = Some (out, m', h') -> m_errors m' = [] ->
  let token := message_token ts m' in
  length token = 43%nat
  /\ std_base64 (hash_bytes (sha256_Sum256 (ts ++ m_subject m'))) = token ++ ["="%byte]
  /\ Base64Encode (hash_bytes (sha256_Sum256 (ts ++ m_subject m'))) = Some (token ++ ["="%byte])
  /\ (exists from rest,
        resolve_from dflt m = Some from
        /\ out = B "Message-ID: <" ++ token ++ B "@" ++ message_domain m from ++ B ">" ++ CRLF
                 ++ rest
                 ++ mime_body token (m_parts m') (m_text m') (m_html m')
                      (map (cells h') (m_attachments m')))
  /\ boundary_mixed token = B "=_m" ++ token
  /\ boundary_alternative token = B "=_a" ++ token
  /\ (forall partNo, boundary_related partNo token = B "=_r" ++ Itoa partNo ++ token)
  /\ (forall n : Message, m_subject n = m_subject m' -> message_token ts n = token).
Proof.
  intros Hc He token.
  destruct (token_of_hash (sha256_Sum256 (ts ++ m_subject m'))) as (T1 & T2 & T3).
  split; [exact T1|]. split; [exact T2|]. split; [exact T3|]. split.
  - destruct (Compose_success _ _ _ _ _ _ _ _ Hc He) as (from & Hf & Henv & ->).
    exists from, (later_headers ts (m_subject m') from (m_replyTo m') (m_to m') (m_cc m')).
    split; [exact Hf|].
    unfold same_envelope in Henv. destruct_and!.
    unfold headers, message_domain.
    match goal with E : m_domain m' = _ |- _ => rewrite E end.
    fold token. rewrite message_id_line_eq, <- !app_assoc. reflexivity.
  - split; [reflexivity|]. split; [reflexivity|]. split; [reflexivity|].
    intros n Hn. unfold token, message_token. rewrite Hn. reflexivity.
Qed.

(** C9 (amended): when [Compose] succeeds on a message with at least one
    attachment, the body is a [multipart/mixed].  If the HTML body was set
    with [Html] or [HtmlTemplate] (the [html] pointer is set) or there is more
    than one body part, its first part is a [multipart/alternative]; after
    the alternatives comes the closing delimiter of the alternative, then one
    part per attachment, then the closing delimiter of the mixed, which ends
    the output.  Otherwise there is no [multipart/alternative]: the parts
    follow the first delimiter of the mixed directly, then one part per
    attachment, then the closing delimiter of the mixed. *)
Theorem C9_mixed_alternative_nesting dflt ts d (m : Message) h out m' h' :
  Message_Compose dflt ts d m h = Some (out, m', h') -> m_errors m' = [] ->
  m_attachments m <> [] ->
  let token := message_token ts m' in
  exists from,
    resolve_from dflt m = Some from
    /\ (m_html m <> None \/ 1 < len (m_parts m) ->
        out = headers token (message_domain m' from) ts (m_subject m') from
                (m_replyTo m') (m_to m') (m_cc m')
              ++ multipart_header (B "mixed") (boundary_mixed token) ++ CRLF
              ++ delimiter (boundary_mixed token)
              ++ multipart_header (B "alternative") (boundary_alternative token)
              ++ alternatives true token (m_parts m') (m_text m') (m_html m')
              ++ CRLF ++ close_delimiter (boundary_alternative token)
              ++ concat (map (attachment_block token) (map (cells h') (m_attachments m)))
              ++ CRLF ++ close_delimiter (boundary_mixed token))
    /\ (m_html m = None -> len (m_parts m) <= 1 ->
        out = headers token (message_domain m' from) ts (m_subject m') from
                (m_replyTo m') (m_to m') (m_cc m')
              ++ multipart_header (B "mixed") (boundary_mixed token) ++ CRLF
              ++ delimiter (boundary_mixed token)
              ++ part_blocks false token 0 (m_parts m')
              ++ concat (map (attachment_block token) (map (cells h') (m_attachments m)))
              ++ CRLF ++ close_delimiter (boundary_mixed token)).
Proof.
  intros Hc He Ha token.
  destruct (Compose_success _ _ _ _ _ _ _ _ Hc He) as (from & Hf & Henv & ->).
  exists from. split; [exact Hf|]. fold token.
  unfold same_envelope in Henv. destruct_and!.
  assert (Hlen : len (m_parts m') = len (m_parts m)) by (unfold len; congruence).
  unfold mime_body, is_alternative. rewrite Hlen.
  repeat match goal with
         | E : m_html m' = _ |- _ => rewrite E in *; clear E
         | E : m_attachments m' = _ |- _ => rewrite E in *; clear E
         end.
  rewrite bool_decide_eq_false_2 by (destruct (m_attachments m); [congruence|discriminate]).
  split.
  - intros Halt. f_equal.
    assert (Et : bool_decide (m_html m <> None) || (len (m_parts m) >? 1) = true).
    { destruct Halt as [Hh|Hp]; [rewrite (bool_decide_eq_true_2 _ Hh); reflexivity|].
      apply orb_true_iff. right. apply Z.gtb_lt. exact Hp. }
    rewrite Et. rewrite <- !app_assoc. reflexivity.
  - intros Hh Hp. f_equal.
    assert (Et : bool_decide (m_html m <> None) || (len (m_parts m) >? 1) = false).
    { apply orb_false_iff. split; [apply bool_decide_eq_false_2; congruence|].
      rewrite Z.gtb_ltb. apply Z.ltb_ge. exact Hp. }
    rewrite Et. unfold alternatives. rewrite Hh. cbn [app].
    rewrite <- !app_assoc. reflexivity.
Qed.

(** C10: after [From] or [ReplyTo] the field holds the argument when it is
    not nil and valid, nil otherwise; after [To], [Cc] or [Bcc] the list
    holds the non-nil valid arguments, in order.  No setter touches the error
    list, and each keeps every stored address valid. *)
Theorem C10_setters_keep_addresses_valid (m : Message) :
  addresses_valid m = true ->
  (forall a,
      addresses_valid (Message_From a m) = true
      /\ m_errors (Message_From a m) = m_errors m
      /\ m_from (Message_From a m) = (a ≫= fun a' => if valid_address a' then Some a' else None))
  /\ (forall a,
      addresses_valid (Message_ReplyTo a m) = true
      /\ m_errors (Message_ReplyTo a m) = m_errors m
      /\ m_replyTo (Message_ReplyTo a m)
         = (a ≫= fun a' => if valid_address a' then Some a' else None))
  /\ (forall l,
      addresses_valid (Message_To l m) = true
      /\ m_errors (Message_To l m) = m_errors m /\ m_to (Message_To l m) = kept l)
  /\ (forall l,
      addresses_valid (Message_Cc l m) = true
      /\ m_errors (Message_Cc l m) = m_errors m /\ m_cc (Message_Cc l m) = kept l)
  /\ (forall l,
      addresses_valid (Message_Bcc l m) = true
      /\ m_errors (Message_Bcc l m) = m_errors m /\ m_bcc (Message_Bcc l m) = kept l).
Proof.
  unfold addresses_valid. intros Hv.
  apply andb_prop in Hv as [Hv Hbcc]. apply andb_prop in Hv as [Hv Hcc].
  apply andb_prop in Hv as [Hv Hto]. apply andb_prop in Hv as [Hfrom Hreply].
  split; [|split; [|split; [|split]]].
  - intros a. unfold Message_From.
    cbn [m_from m_replyTo m_to m_cc m_bcc m_errors set_from].
    rewrite checked_pointer_valid, Hreply, Hto, Hcc, Hbcc.
    split; [reflexivity|]. split; [reflexivity|].
    destruct a as [a|]; [|reflexivity]. cbn [mbind option_bind]. unfold valid_address.
    destruct (SeemsValidAddr (Addr a)); reflexivity.
  - intros a. unfold Message_ReplyTo.
    cbn [m_from m_replyTo m_to m_cc m_bcc m_errors set_replyTo].
    rewrite checked_pointer_valid, Hfrom, Hto, Hcc, Hbcc.
    split; [reflexivity|]. split; [reflexivity|].
    destruct a as [a|]; [|reflexivity]. cbn [mbind option_bind]. unfold valid_address.
    destruct (SeemsValidAddr (Addr a)); reflexivity.
  - intros l. unfold Message_To.
    cbn [m_from m_replyTo m_to m_cc m_bcc m_errors set_to].
    rewrite keep_valid_kept. cbn [app]. rewrite kept_valid, Hfrom, Hreply, Hcc, Hbcc.
    repeat split.
  - intros l. unfold Message_Cc.
    cbn [m_from m_replyTo m_to m_cc m_bcc m_errors set_cc].
    rewrite keep_valid_kept. cbn [app]. rewrite kept_valid, Hfrom, Hreply, Hto, Hbcc.
    repeat split.
  - intros l. unfold Message_Bcc.
    cbn [m_from m_replyTo m_to m_cc m_bcc m_errors set_bcc].
    rewrite keep_valid_kept. cbn [app]. rewrite kept_valid, Hfrom, Hreply, Hto, Hcc.
    repeat split.
Qed.

End claims.

(** C4 (the code departs from the claim): [NewMessage] copies the pointers to
    the attachments, so preparing the clone writes the file content, the name
    and the type into the very attachment the original holds. *)
Theorem C4_clone_shares_attachments :
  let '(orig, h) := example_original in
  let clone := NewMessage (Some orig) in
  let '(clone', h') := Message_Prepare clone h in
  m_attachments clone = m_attachments orig
  /\ m_attachments orig = [0%nat]
  /\ cells h 0%nat
     = {| att_name := []; att_ctype := []; att_fileName := B "notes.txt"; att_data := [] |}
  /\ cells h' 0%nat
     = {| att_name := B "notes.txt"; att_ctype := B "text/plain; charset=utf-8";
          att_fileName := B "notes.txt"; att_data := B "remember the milk" |}
  /\ m_prepared orig = false
  /\ m_prepared (fst (Message_Prepare orig h')) = true
  /\ cells (snd (Message_Prepare orig h')) 0%nat = cells h' 0%nat.
Proof. vm_compute. repeat split. Qed.

(** The example message composes without error. *)
Lemma example_message_composes :
  exists out m' h',
    Message_Compose (H := example_world) None example_ts tt
      (fst example_message) (snd example_message) = Some (out, m', h')
    /\ m_errors m' = [] /\ m_html (fst example_message) <> None
    /\ m_attachments (fst example_message) <> [].
Proof.
  eexists _, _, _. split; [vm_compute; reflexivity|].
  split; [reflexivity|]. split; discriminate.
Defined.

Lemma C7_header_order_witness :
  exists out m' h',
    Message_Compose (H := example_world) None example_ts tt
      (fst example_message) (snd example_message) = Some (out, m', h')
    /\ m_errors m' = []
    /\ (forall bcc, exists m'',
          Message_Compose (H := example_world) None example_ts tt
            (set_bcc bcc (fst example_message)) (snd example_message) = Some (out, m'', h'))
    /\ B "bcc@example.com" ∈ Message_RecipientAddrs None (fst example_message).
Proof.
  destruct example_message_composes as (out & m' & h' & Hc & He & _).
  exists out, m', h'. split; [exact Hc|]. split; [exact He|].
  destruct (C7_header_order (H := example_world) None example_ts tt
              (fst example_message) (snd example_message) out m' h' Hc He)
    as (from & to_items & cc_items & _ & _ & _ & _ & _ & _ & Hb & Hr).
  split; [exact Hb|].
  apply (Hr {| Name := []; Addr := B "bcc@example.com" |}). vm_compute. left.
Defined.

Lemma C8_token_witness :
  exists out m' h',
    Message_Compose (H := example_world) None example_ts tt
      (fst example_message) (snd example_message) = Some (out, m', h')
    /\ m_errors m' = []
    /\ length (message_token example_ts m') = 43%nat
    /\ exists rest,
         out = B "Message-ID: <" ++ message_token example_ts m' ++ B "@" ++ B "example.com"
               ++ B ">" ++ CRLF ++ rest.
Proof.
  destruct example_message_composes as (out & m' & h' & Hc & He & _).
  exists out, m', h'. split; [exact Hc|]. split; [exact He|].
  destruct (C8_token (H := example_world) None example_ts tt
              (fst example_message) (snd example_message) out m' h' Hc He)
    as (Hl & _ & _ & (from & rest & Hf & Ho) & _).
  split; [exact Hl|]. eexists. rewrite Ho.
  assert (Hd : message_domain (fst example_message) from = B "example.com")
    by (vm_compute in Hf; inversion Hf; subst from; reflexivity).
  rewrite Hd. reflexivity.
Defined.

Lemma C9_mixed_alternative_nesting_witness :
  exists out m' h' front,
    Message_Compose (H := example_world) None example_ts tt
      (fst example_message) (snd example_message) = Some (out, m', h')
    /\ m_errors m' = []
    /\ out = front ++ CRLF ++ close_delimiter (boundary_alternative (message_token example_ts m'))
             ++ concat (map (attachment_block (message_token example_ts m'))
                          (map (cells h') (m_attachments (fst example_message))))
             ++ CRLF ++ close_delimiter (boundary_mixed (message_token example_ts m')).
Proof.
  destruct example_message_composes as (out & m' & h' & Hc & He & Hh & Ha).
  exists out, m', h'.
  destruct (C9_mixed_alternative_nesting (H := example_world) None example_ts tt
              (fst example_message) (snd example_message) out m' h' Hc He Ha)
    as (from & _ & Ho & _).
  eexists. split; [exact Hc|]. split; [exact He|].
  rewrite (Ho (or_introl Hh)). rewrite !app_assoc. reflexivity.
Defined.

(** C9 (as stated, refuted): a message whose only body part is an HTML part
    added with [Part], with one attachment, composes without error to a
    [multipart/mixed] body in which no [multipart/alternative] occurs. *)
Lemma C9_html_part_counterexample :
  exists out m' h',
    Message_Compose (H := example_world) None example_ts tt
      (fst example_html_part) (snd example_html_part) = Some (out, m', h')
    /\ m_errors m' = []
    /\ map part_ctype (m_parts (fst example_html_part)) = [B "text/html; charset=utf-8"]
    /\ m_attachments (fst example_html_part) <> []
    /\ occurs (B "multipart/mixed") out = true
    /\ occurs (B "multipart/alternative") out = false.
Proof.
  eexists _, _, _. split; [vm_compute; reflexivity|].
  split; [reflexivity|]. split; [reflexivity|]. split; [discriminate|].
  split; vm_compute; reflexivity.
Qed.

Lemma C10_setters_keep_addresses_valid_witness :
  addresses_valid (fst example_message) = true
  /\ m_to (Message_To [Some example_from; None; Some {| Name := []; Addr := B "nobody" |}]
             (fst example_message)) = [example_from]
  /\ addresses_valid
       (Message_To [Some example_from; None; Some {| Name := []; Addr := B "nobody" |}]
          (fst example_message)) = true.
Proof.
  assert (Hv : addresses_valid (fst example_message) = true) by reflexivity.
  split; [exact Hv|].
  destruct (C10_setters_keep_addresses_valid (H := example_world) (fst example_message) Hv)
    as (_ & _ & Hto & _).
  destruct (Hto [Some example_from; None; Some {| Name := []; Addr := B "nobody" |}])
    as (H1 & _ & H3).
  split; [rewrite H3; reflexivity|exact H1].
Defined.

(** * Lines of base64 *)
Lemma lines_from_cons_plain cur c rest :
  Byte.eqb c CR = false -> lines_from cur (c :: rest) = lines_from (cur ++ [c]) rest.
Proof.
  intros E. cbn [lines_from]. rewrite E. destruct rest; reflexivity.
Qed.

Lemma lines_from_crlf cur rest : lines_from cur (CR :: LF :: rest) = cur :: lines_from [] rest.
Proof. reflexivity. Qed.

Lemma lines_from_plain : forall a cur rest,
  forallb (fun c => negb (Byte.eqb c CR)) a = true ->
  lines_from cur (a ++ rest) = lines_from (cur ++ a) rest.
Proof.
  induction a as [|c a IH]; intros cur rest Hall.
  - cbn. rewrite app_nil_r. reflexivity.
  - cbn in Hall. apply andb_prop in Hall as [Hc Hall]. apply negb_true_iff in Hc.
    cbn [app]. rewrite lines_from_cons_plain by exact Hc.
    rewrite IH by exact Hall. rewrite <- app_assoc. reflexivity.
Qed.

Lemma sextet_bounds a b :
  (sextet_a a < 64 /\ sextet_ab a b < 64 /\ sextet_bc a b < 64 /\ sextet_c a < 64)%N.
Proof.
  unfold sextet_a, sextet_ab, sextet_bc, sextet_c.
  pose proof (bval_lt a). pose proof (bval_lt b).
  pose proof (N.mod_upper_bound (bval a) 4). pose proof (N.mod_upper_bound (bval a) 16).
  pose proof (N.mod_upper_bound (bval a) 64).
  assert (bval b / 16 < 16)%N by (apply N.Div0.div_lt_upper_bound; lia).
  assert (bval b / 64 < 4)%N by (apply N.Div0.div_lt_upper_bound; lia).
  assert (bval a / 4 < 64)%N by (apply N.Div0.div_lt_upper_bound; lia).
  lia.
Qed.

Lemma std_char_text i : (i < 64)%N -> b64_text_byte (std_char i) = true.
Proof.
  revert i.
  apply (below_spec 64 (fun i => b64_text_byte (std_char i))). vm_compute. reflexivity.
Qed.

Lemma std_base64_text : forall src, forallb b64_text_byte (std_base64 src) = true.
Proof.
  induction src as [|a|a b|a b c r IH] using list_ind3; [reflexivity| | |].
  - cbn [std_base64 forallb].
    destruct (sextet_bounds a x00) as (H1 & H2 & _).
    rewrite !std_char_text by assumption. reflexivity.
  - cbn [std_base64 forallb].
    destruct (sextet_bounds a b) as (H1 & H2 & _).
    destruct (sextet_bounds b x00) as (_ & _ & H3 & _).
    rewrite !std_char_text by assumption. reflexivity.
  - cbn [std_base64 forallb app].
    destruct (sextet_bounds a b) as (H1 & H2 & _).
    destruct (sextet_bounds b c) as (_ & _ & H3 & _).
    destruct (sextet_bounds c c) as (_ & _ & _ & H4).
    rewrite !std_char_text by assumption. exact IH.
Qed.

Lemma b64_text_not_cr c : b64_text_byte c = true -> Byte.eqb c CR = false.
Proof. destruct c; try reflexivity. vm_compute. discriminate. Qed.

(** The lines of [wrap_col]: the first continues a line of [col] characters. *)
Lemma lines_wrap_col : forall s col cur,
  forallb b64_text_byte s = true -> len cur = col -> 0 <= col <= 76 ->
  Forall (fun l => forallb b64_text_byte l = true /\ len l <= 76)
         (lines_from cur (wrap_col col s))
  \/ forallb b64_text_byte cur = false.
Proof.
  induction s as [|c s IH]; intros col cur Hs Hcur Hcol.
  - destruct (forallb b64_text_byte cur) eqn:E; [left|right; reflexivity].
    cbn. constructor; [split; [exact E|lia]|constructor].
  - cbn in Hs. apply andb_prop in Hs as [Hc Hs].
    destruct (forallb b64_text_byte cur) eqn:E; [|right; reflexivity].
    left. cbn [wrap_col]. destruct (Z.geb_spec col 76).
    + rewrite lines_from_crlf. constructor; [split; [exact E|lia]|].
      rewrite lines_from_cons_plain by (apply b64_text_not_cr, Hc).
      destruct (IH 1 [c] Hs eq_refl ltac:(lia)) as [IH'|IH']; [exact IH'|].
      cbn in IH'. rewrite Hc in IH'. discriminate.
    + rewrite lines_from_cons_plain by (apply b64_text_not_cr, Hc).
      destruct (IH (col + 1) (cur ++ [c]) Hs) as [IH'|IH']; [| |exact IH'|].
      * rewrite len_app. change (len [c]) with 1. lia.
      * lia.
      * rewrite forallb_app, E in IH'. cbn in IH'. rewrite Hc in IH'. discriminate.
Qed.

Lemma wrap_col_length : forall s col,
  0 <= col <= 76 ->
  len (wrap_col col s) = len s + (if len s =? 0 then 0 else (col + len s - 1) / 76 * 2).
Proof.
  induction s as [|c s IH]; intros col Hc; [reflexivity|].
  cbn [wrap_col]. rewrite len_cons. pose proof (len_nonneg s) as Hs.
  destruct (Z.eqb_spec (len s + 1) 0); [lia|].
  destruct (Z.geb_spec col 76).
  - assert (col = 76) by lia. subst col.
    rewrite !len_cons, IH by lia. destruct (Z.eqb_spec (len s) 0) as [E|E].
    + rewrite E. reflexivity.
    + replace (76 + (len s + 1) - 1) with (1 + len s - 1 + 1 * 76) by lia.
      rewrite Z.div_add by lia. lia.
  - rewrite len_cons, IH by lia. destruct (Z.eqb_spec (len s) 0) as [E|E].
    + rewrite E. rewrite Z.div_small by lia. lia.
    + replace (col + 1 + len s - 1) with (col + (len s + 1) - 1) by lia. lia.
Qed.

Lemma std_base64_len s : len (std_base64 s) = (len s + 2) / 3 * 4.
Proof.
  unfold len. rewrite std_base64_length.
  rewrite Nat2Z.inj_mul, Nat2Z.inj_div, Nat2Z.inj_add. cbn. lia.
Qed.

(** The size of the output of [Base64Encode] is the size the function
    computes before it encodes: four characters for every three bytes, and
    two more for every full line of 76 before the last. *)
Theorem Base64Encode_length (src : bytes) :
  exists out,
    Base64Encode src = Some out
    /\ len out = if len src =? 0 then 0 else b64_dstLen (len src).
Proof.
  eexists. split; [apply Base64Encode_wrap76|].
  rewrite wrap76_col, wrap_col_length by lia. rewrite std_base64_len.
  unfold b64_dstLen. pose proof (len_nonneg src).
  destruct (Z.eqb_spec (len src) 0) as [E|E].
  - rewrite E. reflexivity.
  - assert (1 <= (len src + 2) / 3) by (apply Z.div_le_lower_bound; lia).
    destruct (Z.eqb_spec ((len src + 2) / 3 * 4) 0); [lia|]. rewrite Z.add_0_l. reflexivity.
Qed.

(** Every line of the output of [Base64Encode] has at most 76 characters,
    all of them from the base64 alphabet or the padding character. *)
Theorem Base64Encode_lines (src : bytes) :
  exists out,
    Base64Encode src = Some out
    /\ Forall (fun l => forallb b64_text_byte l = true /\ len l <= 76) (lines out).
Proof.
  eexists. split; [apply Base64Encode_wrap76|].
  rewrite wrap76_col. unfold lines.
  destruct (lines_wrap_col (std_base64 src) 0 [] (std_base64_text src) eq_refl ltac:(lia))
    as [Hl|Hl]; [exact Hl|discriminate].
Qed.

(** * SeemsValidAddr *)
Lemma sva_outside_range : forall a st c b,
  (negb (byte_le "!" c) || negb (byte_le c "~")) = true ->
  sva_loop st (a ++ c :: b) = false.
Proof.
  induction a as [|x a IH]; intros st c b Hc.
  - cbn [app sva_loop].
    assert (E : Byte.eqb c "@" = false /\ Byte.eqb c "." = false)
      by (destruct c; try discriminate Hc; split; reflexivity).
    destruct E as [-> ->]. rewrite Hc. reflexivity.
  - cbn [app sva_loop].
    repeat match goal with |- context [if ?g then _ else _] => destruct g end;
      try reflexivity; apply IH; exact Hc.
Qed.

(** [SeemsValidAddr] refuses every address with a space, a control character
    or a byte of 0x80 and above, wherever it stands. *)
Theorem SeemsValidAddr_printable_only a c b :
  (negb (byte_le "!" c) || negb (byte_le c "~")) = true ->
  SeemsValidAddr (a ++ c :: b) = false.
Proof. apply sva_outside_range. Qed.

Lemma label_byte_spec c :
  label_byte c = true ->
  Byte.eqb c "@" = false /\ Byte.eqb c "." = false
  /\ (negb (byte_le "!" c) || negb (byte_le c "~")) = false
  /\ (Byte.eqb c "[" || Byte.eqb c "]" || Byte.eqb c BSLASH) = false.
Proof. destruct c; try discriminate; intros _; repeat split. Qed.

Lemma local_byte_spec c :
  local_byte c = true ->
  Byte.eqb c "@" = false /\ (negb (byte_le "!" c) || negb (byte_le c "~")) = false.
Proof. destruct c; try discriminate; intros _; repeat split. Qed.

Lemma sva_local : forall lpart d t rest,
  forallb local_byte lpart = true ->
  sva_loop (Build_sva_flags false d false t) (lpart ++ rest)
  = sva_loop (Build_sva_flags false d false t) rest.
Proof.
  induction lpart as [|c lpart IH]; intros d t rest Hall; [reflexivity|].
  cbn in Hall. apply andb_prop in Hall as [Hc Hall].
  destruct (local_byte_spec c Hc) as [E1 E2].
  cbn [app sva_loop seenAt seenDom seenDot seenTld]. rewrite E1, E2.
  destruct (Byte.eqb c "."); cbn [andb]; apply IH, Hall.
Qed.

Lemma sva_label : forall lab o rest,
  forallb label_byte lab = true ->
  sva_loop (Build_sva_flags true (negb o) o o) (lab ++ rest)
  = sva_loop (Build_sva_flags true (negb o) o o) rest.
Proof.
  induction lab as [|c lab IH]; intros o rest Hall; [reflexivity|].
  cbn in Hall. apply andb_prop in Hall as [Hc Hall].
  destruct (label_byte_spec c Hc) as (E1 & E2 & E3 & E4).
  cbn [app sva_loop seenAt seenDom seenDot seenTld]. rewrite E1, E2, E3, E4.
  apply IH, Hall.
Qed.

Lemma sva_label_first c lab d o t rest :
  label_byte c = true -> forallb label_byte lab = true ->
  sva_loop (Build_sva_flags true d o t) (c :: lab ++ rest)
  = sva_loop (Build_sva_flags true (negb o) o o) rest.
Proof.
  intros Hc Hall. destruct (label_byte_spec c Hc) as (E1 & E2 & E3 & E4).
  cbn [sva_loop seenAt seenDom seenDot seenTld]. rewrite E1, E2, E3, E4.
  apply sva_label, Hall.
Qed.

(** [SeemsValidAddr] accepts [local@label.tld]: a local part of printable
    bytes other than space and ['@'], and two non-empty labels. *)
Theorem SeemsValidAddr_accepts_one_dot (lpart lab tld : bytes) :
  forallb local_byte lpart = true ->
  lab <> [] -> forallb label_byte lab = true ->
  tld <> [] -> forallb label_byte tld = true ->
  SeemsValidAddr (lpart ++ "@"%byte :: lab ++ "."%byte :: tld) = true.
Proof.
  intros Hloc Hn1 Hlab Hn2 Htld. unfold SeemsValidAddr.
  rewrite sva_local by exact Hloc.
  cbn [sva_loop seenAt seenDom seenDot seenTld]. change (Byte.eqb "@" "@") with true. cbv iota.
  destruct lab as [|c lab]; [congruence|]. cbn in Hlab. apply andb_prop in Hlab as [Hc Hlab].
  cbn [app]. rewrite sva_label_first by assumption.
  cbn [sva_loop seenAt seenDom seenDot seenTld negb andb].
  change (Byte.eqb "." "@") with false. change (Byte.eqb "." ".") with true. cbv iota.
  destruct tld as [|e tld]; [congruence|]. cbn in Htld. apply andb_prop in Htld as [He Htld].
  rewrite <- (app_nil_r tld). rewrite sva_label_first by assumption. reflexivity.
Qed.

Lemma SeemsValidAddr_accepts_one_dot_witness :
  SeemsValidAddr (B "first.last" ++ "@"%byte :: B "example" ++ "."%byte :: B "com") = true.
Proof.
  apply (SeemsValidAddr_accepts_one_dot (B "first.last") (B "example") (B "com"));
    first [reflexivity | discriminate].
Defined.

(** * Address.Domain *)
Lemma after_last_at_none addr :
  forallb (fun c => negb (Byte.eqb c "@")) addr = true -> after_last_at addr = None.
Proof.
  induction addr as [|c addr IH]; [reflexivity|]. cbn. intros Hall.
  apply andb_prop in Hall as [Hc Hall]. apply negb_true_iff in Hc.
  rewrite IH, Hc by exact Hall. reflexivity.
Qed.

Lemma after_last_at_app : forall l d,
  forallb (fun c => negb (Byte.eqb c "@")) d = true ->
  after_last_at (l ++ "@"%byte :: d) = Some d.
Proof.
  induction l as [|c l IH]; intros d Hd.
  - cbn. rewrite after_last_at_none by exact Hd. reflexivity.
  - cbn [app after_last_at]. rewrite IH by exact Hd. reflexivity.
Qed.

(** [Domain] returns what follows the last ['@'], and the empty string for
    an address without ['@']. *)
Theorem Address_Domain_spec (name l d : bytes) :
  forallb (fun c => negb (Byte.eqb c "@")) d = true ->
  Address_Domain {| Name := name; Addr := l ++ "@"%byte :: d |} = d
  /\ Address_Domain {| Name := name; Addr := d |} = [].
Proof.
  intros Hd. unfold Address_Domain. cbn [Addr].
  rewrite after_last_at_app, after_last_at_none by exact Hd. split; reflexivity.
Qed.

Lemma Address_Domain_spec_witness :
  Address_Domain {| Name := []; Addr := B "a@b" ++ "@"%byte :: B "example.com" |}
  = B "example.com"
  /\ Address_Domain {| Name := []; Addr := B "example.com" |} = [].
Proof. apply (Address_Domain_spec [] (B "a@b") (B "example.com")). reflexivity. Defined.

(** * Quoting a display name *)
Lemma quote_name_acc : forall name dst, quote_name dst name = dst ++ quote_name [] name.
Proof.
  induction name as [|c name IH]; intros dst; [symmetry; apply app_nil_r|].
  cbn [quote_name]. rewrite IH, (IH (_ ++ [c])).
  destruct (Byte.eqb c BSLASH || Byte.eqb c DQUOTE); cbn [app]; rewrite <- !app_assoc;
    reflexivity.
Qed.

Lemma quote_name_cons c name :
  quote_name [] (c :: name)
  = (if Byte.eqb c BSLASH || Byte.eqb c DQUOTE then [BSLASH; c] else [c]) ++ quote_name [] name.
Proof.
  cbn [quote_name]. rewrite quote_name_acc.
  destruct (Byte.eqb c BSLASH || Byte.eqb c DQUOTE); reflexivity.
Qed.

Lemma unquote_quote_name : forall name,
  unquote (quote_name [] name) = name /\ has_bare_quote (quote_name [] name) = false.
Proof.
  induction name as [|c name [IH1 IH2]]; [split; reflexivity|].
  rewrite quote_name_cons.
  destruct (Byte.eqb c BSLASH || Byte.eqb c DQUOTE) eqn:E.
  - cbn. rewrite IH1, IH2. split; reflexivity.
  - apply orb_false_elim in E as [E1 E2]. cbn. rewrite E1, E2, IH1, IH2. split; reflexivity.
Qed.

Lemma name_scan_printable name nq :
  forallb printable name = true -> snd (name_scan name nq) = true.
Proof.
  revert nq. induction name as [|c name IH]; intros nq Hall; [reflexivity|].
  cbn in *. apply andb_prop in Hall as [Hc Hall]. rewrite Hc. apply IH, Hall.
Qed.

(** A printable display name is written as a quoted string that reads back
    as the name: every double quote and backslash of the name is escaped, so
    the quote that closes the string is the first bare one. *)
Theorem Address_encode_quoted_reads_back (a : Address) (offset : Z) :
  Name a <> [] -> forallb printable (Name a) = true ->
  exists quoted sep,
    (sep = B " " \/ sep = CRLF ++ B " ")
    /\ fst (Address_encode a offset)
       = [DQUOTE] ++ quoted ++ [DQUOTE] ++ sep ++ B "<" ++ Addr a ++ B ">"
    /\ unquote quoted = Name a
    /\ has_bare_quote quoted = false.
Proof.
  intros Hne Hall. unfold Address_encode.
  destruct (len_pos_nonempty _ Hne) as [-> _].
  pose proof (name_scan_printable (Name a) 0 Hall) as Hs.
  destruct (name_scan (Name a) 0) as [nq safe]. cbn in Hs. subst safe.
  rewrite quote_name_acc. destruct (unquote_quote_name (Name a)) as [U1 U2].
  exists (quote_name [] (Name a)).
  destruct (_ <=? 74); [exists (B " ")|exists (CRLF ++ B " ")];
    (split; [auto|]); (split; [|split; assumption]);
    cbn [fst]; rewrite <- !app_assoc; reflexivity.
Qed.

Lemma Address_encode_quoted_reads_back_witness :
  exists quoted sep,
    (sep = B " " \/ sep = CRLF ++ B " ")
    /\ fst (Address_encode {| Name := B "J. " ++ [DQUOTE] ++ B "Jay" ++ [DQUOTE] ++ B " Doe";
                              Addr := B "jay@example.com" |} 4)
       = [DQUOTE] ++ quoted ++ [DQUOTE] ++ sep ++ B "<" ++ B "jay@example.com" ++ B ">"
    /\ unquote quoted = B "J. " ++ [DQUOTE] ++ B "Jay" ++ [DQUOTE] ++ B " Doe"
    /\ has_bare_quote quoted = false.
Proof.
  apply (Address_encode_quoted_reads_back
           {| Name := B "J. " ++ [DQUOTE] ++ B "Jay" ++ [DQUOTE] ++ B " Doe";
              Addr := B "jay@example.com" |} 4); [discriminate|reflexivity].
Defined.

Section message_properties.

Context `{Collaborators}.

(** * RecipientAddrs *)
Lemma add_unseen_exact : forall vals to (seen : gset bytes),
  (forall x, x ∈ seen <-> x ∈ to) -> NoDup to ->
  let r := add_unseen vals to seen in
  (forall x, x ∈ snd r <-> x ∈ fst r)
  /\ NoDup (fst r)
  /\ (forall x, x ∈ fst r <-> x ∈ to \/ exists a, a ∈ vals /\ x = Addr a).
Proof.
  induction vals as [|v vals IH]; intros to seen Hinv Hnd.
  - cbn. split; [exact Hinv|]. split; [exact Hnd|]. intros x. split; [auto|].
    intros [Hx|(a & Ha & _)]; [exact Hx|inversion Ha].
  - cbn [add_unseen]. destruct (bool_decide (Addr v ∈ seen)) eqn:E.
    + apply bool_decide_eq_true in E.
      destruct (IH to seen Hinv Hnd) as (I1 & I2 & I3).
      split; [exact I1|]. split; [exact I2|]. intros x. rewrite I3. split.
      * intros [Hx|(a & Ha & ->)]; [auto|]. right. exists a. split; [|reflexivity].
        apply elem_of_cons. auto.
      * intros [Hx|(a & Ha & ->)]; [auto|]. apply elem_of_cons in Ha as [->|Ha].
        -- left. apply Hinv, E.
        -- right. exists a. auto.
    + apply bool_decide_eq_false in E.
      destruct (IH (to ++ [Addr v]) ({[Addr v]} ∪ seen)) as (I1 & I2 & I3).
      { intros x. rewrite elem_of_union, elem_of_singleton, elem_of_app, list_elem_of_singleton.
        rewrite Hinv. tauto. }
      { apply NoDup_app. split; [exact Hnd|]. split; [|apply NoDup_singleton].
        intros x Hx Hx'. apply list_elem_of_singleton in Hx'. subst x. apply E, Hinv, Hx. }
      split; [exact I1|]. split; [exact I2|]. intros x. rewrite I3, elem_of_app,
        list_elem_of_singleton. split.
      * intros [[Hx| ->]|(a & Ha & ->)]; [auto| |].
        -- right. exists v. split; [apply elem_of_cons; auto|reflexivity].
        -- right. exists a. split; [apply elem_of_cons; auto|reflexivity].
      * intros [Hx|(a & Ha & ->)]; [auto|]. apply elem_of_cons in Ha as [->|Ha]; [auto|].
        right. exists a. auto.
Qed.

(** [RecipientAddrs] lists every address of To, Cc and Bcc exactly once and
    nothing else, except that a message without a To address is also sent to
    its own From address. *)
Theorem RecipientAddrs_exact dflt (m : Message) :
  NoDup (Message_RecipientAddrs dflt m)
  /\ forall x, x ∈ Message_RecipientAddrs dflt m
       <-> (m_to m = [] /\ x = Message_FromAddr dflt m)
           \/ exists a, a ∈ m_to m ++ m_cc m ++ m_bcc m /\ x = Addr a.
Proof.
  unfold Message_RecipientAddrs.
  set (init := if len (m_to m) =? 0 then _ else _).
  assert (Hinit : (forall x, x ∈ snd init <-> x ∈ fst init) /\ NoDup (fst init)
                  /\ forall x, x ∈ fst init <-> m_to m = [] /\ x = Message_FromAddr dflt m).
  { subst init. rewrite len_eqb_nil. destruct (bool_decide (m_to m = [])) eqn:E; cbn.
    - apply bool_decide_eq_true in E. split; [|split].
      + intros x. rewrite elem_of_singleton, list_elem_of_singleton. tauto.
      + apply NoDup_singleton.
      + intros x. rewrite list_elem_of_singleton. tauto.
    - apply bool_decide_eq_false in E. split; [|split].
      + intros x. rewrite elem_of_empty. split; [tauto|]. intros Hx. inversion Hx.
      + apply NoDup_nil_2.
      + intros x. split; [intros Hx; inversion Hx|tauto]. }
  destruct init as [to0 seen0]. cbn [fst snd] in Hinit. destruct Hinit as (J1 & J2 & J3).
  pose proof (add_unseen_exact (m_to m) to0 seen0 J1 J2) as (A1 & A2 & A3).
  destruct (add_unseen (m_to m) to0 seen0) as [to1 seen1]. cbn [fst snd] in *.
  pose proof (add_unseen_exact (m_cc m) to1 seen1 A1 A2) as (B1 & B2 & B3).
  destruct (add_unseen (m_cc m) to1 seen1) as [to2 seen2]. cbn [fst snd] in *.
  pose proof (add_unseen_exact (m_bcc m) to2 seen2 B1 B2) as (C1 & C2 & C3).
  destruct (add_unseen (m_bcc m) to2 seen2) as [to3 seen3]. cbn [fst snd] in *.
  split; [exact C2|]. intros x. rewrite C3, B3, A3, J3. split.
  - intros [[[Hx|(a & Ha & ->)]|(a & Ha & ->)]|(a & Ha & ->)]; [auto| | |];
      right; exists a; rewrite !elem_of_app; auto.
  - intros [Hx|(a & Ha & ->)]; [auto|]. rewrite !elem_of_app in Ha.
    destruct Ha as [Ha|[Ha|Ha]]; eauto 6.
Qed.

(** * The error list only grows *)
Lemma prepare_related_outcome force : forall rs errs ok,
  exists extra,
    prepare_related force rs errs ok = (errs ++ extra, ok && bool_decide (extra = [])).
Proof.
  induction rs as [|r rs IH]; intros errs ok.
  - exists []. cbn. rewrite app_nil_r, andb_true_r. reflexivity.
  - cbn [prepare_related].
    destruct (negb (len (rel_fileName r) =? 0) && (force || (len (rel_data r) =? 0)));
      [destruct (ReadFile (rel_fileName r)) as [file|err]|]; try apply IH.
    destruct (IH (errs ++ [B "cannot read file: " ++ rel_fileName r ++ B ": " ++ err]) false)
      as [extra ->].
    eexists (_ :: extra). rewrite <- app_assoc. cbn [app]. rewrite andb_false_r. reflexivity.
Qed.

Lemma prepare_parts_outcome force : forall ps errs ok,
  exists extra,
    prepare_parts force ps errs ok = (errs ++ extra, ok && bool_decide (extra = [])).
Proof.
  induction ps as [|p ps IH]; intros errs ok.
  - exists []. cbn. rewrite app_nil_r, andb_true_r. reflexivity.
  - cbn [prepare_parts].
    destruct (prepare_related_outcome force (part_related p) errs ok) as [e1 ->].
    destruct (IH (errs ++ e1) (ok && bool_decide (e1 = []))) as [e2 ->].
    exists (e1 ++ e2). rewrite <- app_assoc. f_equal.
    destruct e1, e2; cbn; rewrite ?andb_true_r, ?andb_false_r; reflexivity.
Qed.

Lemma prepare_attachments_outcome force : forall ls h errs ok,
  exists h' extra,
    prepare_attachments force ls h errs ok = (h', errs ++ extra, ok && bool_decide (extra = [])).
Proof.
  induction ls as [|l ls IH]; intros h errs ok.
  - exists h, []. cbn. rewrite app_nil_r, andb_true_r. reflexivity.
  - cbn [prepare_attachments]. cbv zeta.
    destruct (negb (len (att_fileName (cells h l)) =? 0)
              && (force || (len (att_data (cells h l)) =? 0)));
      [destruct (ReadFile (att_fileName (cells h l))) as [file|err]|]; try apply IH.
    destruct (IH h (errs ++ [B "cannot read file: " ++ att_fileName (cells h l) ++ B ": " ++ err])
                false) as (h' & extra & ->).
    exists h'. eexists (_ :: extra). rewrite <- app_assoc. cbn [app]. rewrite andb_false_r.
    reflexivity.
Qed.

Lemma Message_prepare_outcome force m h :
  exists extra,
    m_errors (fst (Message_prepare force m h)) = m_errors m ++ extra
    /\ (m_prepared m && negb force = false ->
        m_prepared (fst (Message_prepare force m h)) = bool_decide (extra = [])).
Proof.
  unfold Message_prepare. destruct (m_prepared m && negb force).
  - exists []. cbn. rewrite app_nil_r. split; [reflexivity|discriminate].
  - destruct (prepare_parts_outcome force (m_parts m) (m_errors m) true) as [e1 ->].
    destruct (prepare_attachments_outcome force (m_attachments m) h (m_errors m ++ e1)
                (true && bool_decide (e1 = []))) as (h' & e2 & ->).
    exists (e1 ++ e2). cbn. rewrite <- app_assoc. split; [reflexivity|]. intros _.
    destruct e1, e2; reflexivity.
Qed.

Lemma execute_parts_errors d : forall ps n errs,
  exists extra, snd (execute_parts d n ps errs) = errs ++ extra.
Proof.
  induction ps as [|p ps IH]; intros n errs.
  - exists []. cbn. rewrite app_nil_r. reflexivity.
  - cbn [execute_parts].
    destruct (part_tpl p) as [t|]; [destruct (ttpl_Execute t d) as [out [e|]]|
      destruct (part_htmlTpl p) as [t|]; [destruct (htpl_Execute t d) as [out [e|]]|]];
      match goal with
      | |- context [execute_parts d ?n' ps ?e] =>
          destruct (IH n' e) as [extra Hx]; destruct (execute_parts d n' ps e)
      end; cbn [snd] in *; subst;
      first [ exists extra; reflexivity
            | eexists (_ :: extra); rewrite <- app_assoc; reflexivity ].
Qed.

Lemma render_templates_errors d m :
  exists extra,
    m_errors (render_templates d m) = m_errors m ++ extra
    /\ (m_parts m = [] -> B "message has no parts" ∈ extra).
Proof.
  unfold render_templates.
  set (m1 := match m_subjectTpl m with Some _ => _ | None => m end).
  assert (E1 : (exists e1, m_errors m1 = m_errors m ++ e1) /\ m_parts m1 = m_parts m).
  { subst m1. destruct (m_subjectTpl m) as [t|].
    - destruct (ttpl_Execute t d) as [out [e|]]; cbn; split; try reflexivity.
      + eexists [_]. reflexivity.
      + exists []. rewrite app_nil_r. reflexivity.
    - split; [|reflexivity]. exists []. rewrite app_nil_r. reflexivity. }
  destruct E1 as [[e1 E1] Ep].
  pose proof (execute_parts_errors d (m_parts m1) 0 (m_errors m1)) as [e2 E2].
  pose proof (execute_parts_length d (m_parts m1) 0 (m_errors m1)) as Hl.
  destruct (execute_parts d 0 (m_parts m1) (m_errors m1)) as [ps errs]. cbn [fst snd] in *.
  subst errs. cbn [m_parts set_errors set_parts]. rewrite len_eqb_nil.
  destruct (bool_decide (ps = [])) eqn:E.
  - eexists (e1 ++ e2 ++ [_]). cbn. rewrite E1, <- !app_assoc. split; [reflexivity|].
    intros _. rewrite !elem_of_app, list_elem_of_singleton. auto.
  - exists (e1 ++ e2). cbn. rewrite E1, <- !app_assoc. split; [reflexivity|].
    intros Hnil. apply bool_decide_eq_false in E. rewrite Ep, Hnil in Hl.
    destruct ps; [congruence|discriminate].
Qed.

(** What [Compose] returns when its gate is reached with errors or without. *)
Lemma Compose_outcome dflt ts d m h :
  exists out m' h' extra,
    Message_Compose dflt ts d m h = Some (out, m', h')
    /\ m_errors m' = m_errors m ++ extra
    /\ (m_errors m' <> [] -> out = [])
    /\ (m_errors m' = [] -> out <> [])
    /\ (resolve_from dflt m = None -> extra = [B "no From address"])
    /\ (resolve_from dflt m <> None -> m_parts m = [] -> B "message has no parts" ∈ extra)
    /\ same_envelope m m'.
Proof.
  destruct (resolve_from dflt m) as [from|] eqn:Hf.
  - destruct (Compose_gate dflt ts d m h from Hf) as [Henv ->].
    destruct (render_templates_errors d m) as (e1 & E1 & P1).
    destruct (Message_prepare_outcome false (render_templates d m) h) as (e2 & E2 & _).
    destruct (Message_prepare false (render_templates d m) h) as [m2 h2]. cbn [fst snd] in *.
    rewrite E1, <- app_assoc in E2.
    destruct (bool_decide (m_errors m2 = [])) eqn:E.
    + apply bool_decide_eq_true in E. do 3 eexists. exists (e1 ++ e2).
      split; [reflexivity|]. split; [exact E2|]. split; [congruence|].
      split; [intros _; apply headers_nonempty|]. split; [discriminate|].
      split; [|exact Henv]. intros _ Hp. apply elem_of_app. auto.
    + apply bool_decide_eq_false in E. do 3 eexists. exists (e1 ++ e2).
      split; [reflexivity|]. split; [exact E2|]. split; [reflexivity|].
      split; [contradiction|]. split; [discriminate|].
      split; [|exact Henv]. intros _ Hp. apply elem_of_app. auto.
  - unfold Message_Compose. rewrite Hf. do 3 eexists. eexists [_].
    split; [reflexivity|]. cbn. split; [reflexivity|]. split; [reflexivity|].
    split; [intros E; destruct (m_errors m); discriminate|]. split; [reflexivity|].
    split; [congruence|repeat split].
Qed.

(** [Compose] never removes an error: a message that carries errors, from a
    setter or from an earlier [Compose], composes to nothing and keeps them
    in front of whatever it adds, until [Errors] takes them away. *)
Theorem Compose_keeps_errors dflt ts d (m : Message) h :
  m_errors m <> [] ->
  exists m' h' extra,
    Message_Compose dflt ts d m h = Some ([], m', h')
    /\ m_errors m' = m_errors m ++ extra.
Proof.
  intros Hne. destruct (Compose_outcome dflt ts d m h) as (out & m' & h' & extra & Hc & He & H1 & _).
  exists m', h', extra. split; [|exact He]. rewrite Hc.
  rewrite H1; [reflexivity|]. rewrite He. destruct (m_errors m); [congruence|discriminate].
Qed.

(** A message without any part does not compose: the result is empty and
    the error list says so. *)
Theorem Compose_needs_a_part dflt ts d (m : Message) h from :
  resolve_from dflt m = Some from -> m_parts m = [] ->
  exists m' h',
    Message_Compose dflt ts d m h = Some ([], m', h')
    /\ B "message has no parts" ∈ m_errors m'.
Proof.
  intros Hf Hp.
  destruct (Compose_outcome dflt ts d m h)
    as (out & m' & h' & extra & Hc & He & H1 & _ & _ & H2 & _).
  assert (Hin : B "message has no parts" ∈ m_errors m').
  { rewrite He. apply elem_of_app. right. apply H2; [congruence|exact Hp]. }
  exists m', h'. split; [|exact Hin]. rewrite Hc, H1; [reflexivity|].
  intros E. rewrite E in Hin. inversion Hin.
Qed.

End message_properties.

Section prepare_properties.

Context `{Collaborators}.

(** * prepare *)
(** When [prepare] runs (the message is not prepared, or a fresh read is
    forced), it marks the message prepared exactly when it added no error. *)
Theorem Message_prepare_flag force (m : Message) h :
  m_prepared m && negb force = false ->
  exists extra,
    m_errors (fst (Message_prepare force m h)) = m_errors m ++ extra
    /\ m_prepared (fst (Message_prepare force m h)) = bool_decide (extra = []).
Proof.
  intros Hrun. destruct (Message_prepare_outcome force m h) as (extra & E1 & E2).
  exists extra. split; [exact E1|apply E2, Hrun].
Qed.

Lemma prepare_attachments_frame force : forall ls h errs ok l,
  let h' := (prepare_attachments force ls h errs ok).1.1 in
  next h' = next h
  /\ att_fileName (cells h' l) = att_fileName (cells h l)
  /\ (l ∉ ls \/ att_fileName (cells h l) = []
      \/ (force = false /\ att_data (cells h l) <> []) ->
      cells h' l = cells h l).
Proof.
  induction ls as [|l0 ls IH]; intros h errs ok l; [cbn; auto|].
  cbn [prepare_attachments]. cbv zeta.
  destruct (negb (len (att_fileName (cells h l0)) =? 0)
            && (force || (len (att_data (cells h l0)) =? 0))) eqn:Hc;
    [destruct (ReadFile (att_fileName (cells h l0))) as [file|err]|].
  - match goal with |- context [prepare_attachments force ls ?h1 ?e ?o] =>
      specialize (IH h1 e o l) end.
    cbv zeta in IH. destruct IH as (I1 & I2 & I3).
    apply andb_prop in Hc as [Hc1 Hc2]. rewrite len_eqb_nil in Hc1, Hc2.
    apply negb_true_iff, bool_decide_eq_false in Hc1.
    split; [exact I1|]. cbn [cells heap_set] in *. split.
    + rewrite I2. destruct (Nat.eqb l l0) eqn:E; [|reflexivity].
      apply Nat.eqb_eq in E. subst l. reflexivity.
    + intros Hl. destruct (Nat.eqb l l0) eqn:E.
      * apply Nat.eqb_eq in E. subst l0. exfalso. destruct Hl as [Hl|[Hl|[Hl1 Hl2]]].
        -- apply Hl, elem_of_cons. auto.
        -- contradiction.
        -- subst force. cbn in Hc2. apply bool_decide_eq_true in Hc2. contradiction.
      * apply I3. destruct Hl as [Hl|[Hl|Hl]]; auto.
        left. intros Hin. apply Hl, elem_of_cons. auto.
  - match goal with |- context [prepare_attachments force ls ?h1 ?e ?o] =>
      specialize (IH h1 e o l) end.
    cbv zeta in IH. destruct IH as (I1 & I2 & I3). split; [exact I1|]. split; [exact I2|].
    intros Hl. apply I3. destruct Hl as [Hl|[Hl|Hl]]; auto.
    left. intros Hin. apply Hl, elem_of_cons. auto.
  - specialize (IH h errs ok l).
    cbv zeta in IH. destruct IH as (I1 & I2 & I3). split; [exact I1|]. split; [exact I2|].
    intros Hl. apply I3. destruct Hl as [Hl|[Hl|Hl]]; auto.
    left. intros Hin. apply Hl, elem_of_cons. auto.
Qed.

(** [prepare] changes nothing but the error list, the flag and the
    attachments it reads: the parts and the subject stay, no attachment is
    created, no file name changes, and an attachment of another message, one
    held in memory, or (unless a fresh read is forced) one that already has
    data is left as it is. *)
Theorem Message_prepare_frame force (m : Message) h l :
  let m' := fst (Message_prepare force m h) in
  let h' := snd (Message_prepare force m h) in
  m_parts m' = m_parts m /\ m_subject m' = m_subject m
  /\ m_attachments m' = m_attachments m
  /\ next h' = next h
  /\ att_fileName (cells h' l) = att_fileName (cells h l)
  /\ (l ∉ m_attachments m \/ att_fileName (cells h l) = []
      \/ (force = false /\ att_data (cells h l) <> []) ->
      cells h' l = cells h l).
Proof.
  cbv zeta. destruct (Message_prepare_envelope force m h) as (Henv & Hs & Hp).
  split; [exact Hp|]. split; [exact Hs|]. split; [apply Henv|].
  unfold Message_prepare. destruct (m_prepared m && negb force); [cbn; auto|].
  destruct (prepare_parts force (m_parts m) (m_errors m) true) as [errs ok].
  pose proof (prepare_attachments_frame force (m_attachments m) h errs ok l) as Hf.
  destruct (prepare_attachments force (m_attachments m) h errs ok) as [[h' errs'] ok'].
  exact Hf.
Qed.

(** An attachment whose data is the content of its file stays so. *)
Lemma prepare_attachments_loaded force : forall ls h errs ok l file,
  ReadFile (att_fileName (cells h l)) = inl file -> att_data (cells h l) = file ->
  att_data (cells (prepare_attachments force ls h errs ok).1.1 l) = file.
Proof.
  induction ls as [|l0 ls IH]; intros h errs ok l file Hr Hd; [exact Hd|].
  cbn [prepare_attachments]. cbv zeta.
  destruct (negb (len (att_fileName (cells h l0)) =? 0)
            && (force || (len (att_data (cells h l0)) =? 0)));
    [destruct (ReadFile (att_fileName (cells h l0))) as [file0|err] eqn:Hr0|];
    try (apply IH; assumption).
  apply IH; cbn [cells heap_set]; destruct (Nat.eqb l l0) eqn:E; try assumption;
    apply Nat.eqb_eq in E; subst l0; cbn; congruence.
Qed.

Lemma prepare_attachments_reads force : forall ls h errs ok l,
  (prepare_attachments force ls h errs ok).2 = true ->
  l ∈ ls -> att_fileName (cells h l) <> [] ->
  force = true \/ att_data (cells h l) = [] ->
  ReadFile (att_fileName (cells h l))
  = inl (att_data (cells (prepare_attachments force ls h errs ok).1.1 l)).
Proof.
  induction ls as [|l0 ls IH]; intros h errs ok l Hok Hin Hfn Hneed; [inversion Hin|].
  revert Hok. cbn [prepare_attachments]. cbv zeta.
  destruct (negb (len (att_fileName (cells h l0)) =? 0)
            && (force || (len (att_data (cells h l0)) =? 0))) eqn:Hc;
    [destruct (ReadFile (att_fileName (cells h l0))) as [file0|err] eqn:Hr0|].
  - intros Hok. destruct (Nat.eq_dec l l0) as [->|Hne].
    + rewrite Hr0. f_equal. symmetry. apply prepare_attachments_loaded.
      * cbn. rewrite Nat.eqb_refl. exact Hr0.
      * cbn. rewrite Nat.eqb_refl. reflexivity.
    + apply elem_of_cons in Hin as [?|Hin]; [contradiction|].
      assert (Hcell : cells (heap_set h l0
                {| att_name := if len (att_name (cells h l0)) =? 0
                               then filepath_Base (att_fileName (cells h l0))
                               else att_name (cells h l0);
                   att_ctype := if len (att_ctype (cells h l0)) =? 0
                                then mime_TypeByExtension
                                       (filepath_Ext (att_fileName (cells h l0)))
                                else att_ctype (cells h l0);
                   att_fileName := att_fileName (cells h l0);
                   att_data := file0 |}) l = cells h l).
      { cbn. apply Nat.eqb_neq in Hne. rewrite Hne. reflexivity. }
      rewrite <- Hcell at 1. apply IH; rewrite ?Hcell; assumption.
  - intros Hok. exfalso.
    match type of Hok with context [prepare_attachments force ls ?h1 ?e ?o] =>
      destruct (prepare_attachments_outcome force ls h1 e o) as (h' & extra & E) end.
    rewrite E in Hok. discriminate Hok.
  - intros Hok. apply elem_of_cons in Hin as [->|Hin]; [|apply IH; assumption].
    exfalso. rewrite !len_eqb_nil in Hc.
    apply andb_false_iff in Hc as [Hc|Hc].
    + apply negb_false_iff, bool_decide_eq_true in Hc. contradiction.
    + apply orb_false_elim in Hc as [Hc1 Hc2]. apply bool_decide_eq_false in Hc2.
      destruct Hneed; congruence.
Qed.

(** After a [prepare] that ran and left the message prepared, every
    attachment that named a file and needed reading holds the bytes of that
    file. *)
Theorem Message_prepare_reads_files force (m : Message) h l :
  m_prepared m && negb force = false ->
  m_prepared (fst (Message_prepare force m h)) = true ->
  l ∈ m_attachments m -> att_fileName (cells h l) <> [] ->
  force = true \/ att_data (cells h l) = [] ->
  ReadFile (att_fileName (cells h l))
  = inl (att_data (cells (snd (Message_prepare force m h)) l)).
Proof.
  intros Hrun. unfold Message_prepare. rewrite Hrun.
  destruct (prepare_parts force (m_parts m) (m_errors m) true) as [errs ok].
  pose proof (prepare_attachments_reads force (m_attachments m) h errs ok l) as Hr.
  destruct (prepare_attachments force (m_attachments m) h errs ok) as [[h' errs'] ok'].
  cbn in *. exact Hr.
Qed.

(** * Text and Html *)
Lemma insert_new_slot {A} (l : list A) (z x : A) : <[length l := x]> (l ++ [z]) = l ++ [x].
Proof.
  rewrite insert_app_r_alt by lia. rewrite Nat.sub_diag. reflexivity.
Qed.

(** Setting the text (or the HTML) again replaces the earlier one in its
    place: the message is the one the last call alone would have made, so
    no second text part appears. *)
Theorem Message_Text_last_wins (t1 t2 h1 h2 : bytes) (r1 r2 : list Related) (m : Message) :
  Message_Text t2 (Message_Text t1 m) = Message_Text t2 m
  /\ Message_Html h2 r2 (Message_Html h1 r1 m) = Message_Html h2 r2 m.
Proof.
  unfold Message_Text, Message_Html. destruct m as [? ? ? ? ? ? ? ? ? ? ps tx hx ? ? ?].
  split.
  - destruct tx as [i|]; cbn.
    + rewrite list_insert_insert_eq. reflexivity.
    + rewrite !insert_new_slot. reflexivity.
  - destruct hx as [i|]; cbn.
    + rewrite list_insert_insert_eq. reflexivity.
    + rewrite !insert_new_slot. reflexivity.
Qed.

End prepare_properties.

Section clone_properties.

Context `{Collaborators}.

(** * The setters keep the invariant *)
Lemma role_in_range_le n n' r : (n <= n')%nat -> role_in_range n r -> role_in_range n' r.
Proof. destruct r; cbn; [lia|auto]. Qed.

Lemma Forall_insert_wf (ps : list part) i p :
  Forall part_wf ps -> part_wf p -> Forall part_wf (<[i := p]> ps).
Proof. intros. apply Forall_insert; assumption. Qed.

Lemma plain_part_wf ctype cte b related :
  part_wf {| part_ctype := ctype; part_cte := cte; part_bytes := b; part_tplSrc := [];
             part_tpl := None; part_htmlTplSrc := []; part_htmlTpl := None;
             part_related := related |}.
Proof. split; reflexivity. Qed.

Lemma zero_part_wf : part_wf zero_part.
Proof. split; reflexivity. Qed.

(** Putting a part into the slot of a role, as [Text], [Html] and the two
    template setters do. *)
Lemma slot_wf (ps : list part) (r : option nat) (p : part) :
  Forall part_wf ps -> role_in_range (length ps) r -> part_wf p ->
  let ps' := match r with None => ps ++ [zero_part] | Some _ => ps end in
  let r' := match r with None => Some (length ps) | Some i => Some i end in
  Forall part_wf (<[default 0%nat r' := p]> ps')
  /\ length (<[default 0%nat r' := p]> ps') = length ps'
  /\ (length ps <= length ps')%nat
  /\ role_in_range (length ps') r'.
Proof.
  intros Hps Hr Hp. cbv zeta. rewrite length_insert. destruct r as [i|]; cbn in *.
  - split; [apply Forall_insert_wf; assumption|]. auto.
  - rewrite length_app. cbn. split; [|split; [reflexivity|lia]].
    apply Forall_insert_wf; [|assumption]. apply Forall_app. split; [assumption|].
    constructor; [apply zero_part_wf|constructor].
Qed.

Lemma Attach_loop_wf : forall file m h,
  Message_wf m -> Message_wf (fst (Attach_loop file m h)).
Proof.
  induction file as [|f file IH]; intros m h Hwf; [exact Hwf|].
  cbn [Attach_loop heap_new]. apply IH. exact Hwf.
Qed.

Lemma execute_parts_wf d : forall ps n errs,
  Forall part_wf ps -> Forall part_wf (fst (execute_parts d n ps errs)).
Proof.
  induction ps as [|p ps IH]; intros n errs Hps; [constructor|].
  inversion Hps as [|? ? Hp Hps']; subst. cbn [execute_parts].
  destruct (part_tpl p) as [t|] eqn:E1; [destruct (ttpl_Execute t d) as [out err]|
    destruct (part_htmlTpl p) as [t|] eqn:E2; [destruct (htpl_Execute t d) as [out err]|]];
    match goal with
    | |- context [execute_parts d ?n' ps ?e] =>
        specialize (IH n' e Hps'); destruct (execute_parts d n' ps e)
    end; cbn [fst] in *; constructor; try assumption; exact Hp.
Qed.

Lemma render_templates_wf d m : Message_wf m -> Message_wf (render_templates d m).
Proof.
  intros (W1 & W2 & W3 & W4). unfold render_templates.
  set (m1 := match m_subjectTpl m with Some _ => _ | None => m end).
  assert (E1 : m_subjectTplSrc m1 = m_subjectTplSrc m /\ m_subjectTpl m1 = m_subjectTpl m
               /\ m_parts m1 = m_parts m /\ m_text m1 = m_text m /\ m_html m1 = m_html m).
  { subst m1. destruct (m_subjectTpl m) as [t|] eqn:Es; [|repeat split; auto].
    destruct (ttpl_Execute t d) as [out [e|]]; cbn; rewrite ?Es; repeat split. }
  destruct E1 as (E1 & E2 & E3 & E4 & E5).
  pose proof (execute_parts_length d (m_parts m1) 0 (m_errors m1)) as Hl.
  pose proof (execute_parts_wf d (m_parts m1) 0 (m_errors m1)) as Hw.
  destruct (execute_parts d 0 (m_parts m1) (m_errors m1)) as [ps errs]. cbn [fst] in *.
  rewrite E3 in Hl, Hw. specialize (Hw W2).
  assert (Message_wf (set_errors errs (set_parts ps m1))) as Hwf.
  { unfold Message_wf. cbn. rewrite E1, E2, E4, E5, Hl. auto. }
  cbn [m_parts set_errors set_parts]. destruct (len ps =? 0); exact Hwf.
Qed.

(** Every message the package builds satisfies the invariant: the empty
    message does, and each setter, [prepare] and [Compose] keep it. *)
Theorem Message_wf_kept (m : Message) (h : heap) :
  Message_wf m ->
  Message_wf (NewMessage None)
  /\ (forall v, Message_wf (Message_Domain v m))
  /\ (forall v, Message_wf (Message_Subject v m))
  /\ (forall v, Message_wf (Message_SubjectTemplate v m))
  /\ (forall v, Message_wf (Message_From v m))
  /\ (forall v, Message_wf (Message_ReplyTo v m))
  /\ (forall v, Message_wf (Message_To v m))
  /\ (forall v, Message_wf (Message_Cc v m))
  /\ (forall v, Message_wf (Message_Bcc v m))
  /\ (forall ctype cte b related, Message_wf (Message_Part ctype cte b related m))
  /\ (forall v, Message_wf (Message_Text v m))
  /\ (forall v, Message_wf (Message_TextTemplate v m))
  /\ (forall v related, Message_wf (Message_Html v related m))
  /\ (forall v related, Message_wf (Message_HtmlTemplate v related m))
  /\ (forall file, Message_wf (fst (Message_Attach file m h)))
  /\ (forall name ctype file, Message_wf (fst (Message_AttachFile name ctype file m h)))
  /\ (forall name ctype data, Message_wf (fst (Message_AttachObject name ctype data m h)))
  /\ (forall force, Message_wf (fst (Message_prepare force m h)))
  /\ (forall dflt ts d out m' h',
        Message_Compose dflt ts d m h = Some (out, m', h') -> Message_wf m').
Proof.
  intros Hwf.
  assert (Hprep : forall force m0 h0, Message_wf m0 ->
                                      Message_wf (fst (Message_prepare force m0 h0))).
  { intros force m0 h0 Hm0. unfold Message_prepare.
    destruct (m_prepared m0 && negb force); [exact Hm0|].
    destruct (prepare_parts _ _ _ _) as [errs ok].
    destruct (prepare_attachments _ _ _ _ _) as [[h1 errs'] ok']. exact Hm0. }
  assert (Hcomp : forall dflt ts d out m' h',
             Message_Compose dflt ts d m h = Some (out, m', h') -> Message_wf m').
  { intros dflt ts d out m' h' Hc. unfold Message_Compose in Hc.
    destruct (resolve_from dflt m) as [from|].
    - pose proof (Hprep false (render_templates d m) h (render_templates_wf d m Hwf)) as Hp.
      destruct (Message_prepare false (render_templates d m) h) as [m2 h2]. cbn [fst] in Hp.
      destruct (negb (len (m_errors m2) =? 0)).
      + inversion Hc; subst. exact Hp.
      + destruct (compose_message ts from m2 h2); inversion Hc; subst. exact Hp.
    - inversion Hc; subst. exact Hwf. }
  assert (Hatt : forall file, Message_wf (fst (Message_Attach file m h))).
  { intros file. unfold Message_Attach.
    pose proof (Attach_loop_wf file m h Hwf) as Ha.
    destruct (Attach_loop file m h) as [m1 h1]. exact Ha. }
  assert (Hprep' : forall force, Message_wf (fst (Message_prepare force m h)))
    by (intros force; apply Hprep, Hwf).
  clear Hprep.
  destruct m as [dm sj sts st sd fr rt to cc bc ps tx hx ats er pr].
  pose proof Hwf as (W1 & W2 & W3 & W4). cbn in W1, W2, W3, W4.
  repeat match goal with |- _ /\ _ => split end;
    try assumption; try (intros; exact Hwf).
  - repeat split; constructor.
  - intros v. unfold Message_SubjectTemplate. rewrite len_eqb_nil.
    destruct (bool_decide (v = [])) eqn:E; cbn [negb].
    + apply bool_decide_eq_true in E. subst v. split; [reflexivity|auto].
    + apply bool_decide_eq_false in E. destruct (ttpl_Parse v) as [t|err] eqn:Hp.
      * split; [split; assumption|auto].
      * exact Hwf.
  - intros ctype cte b related. unfold Message_Part, Message_wf. cbn.
    rewrite length_app. split; [exact W1|]. split.
    + apply Forall_app. split; [exact W2|]. constructor; [apply plain_part_wf|constructor].
    + split; eapply role_in_range_le; try eassumption; lia.
  - intros v. unfold Message_Text, Message_wf.
    destruct (slot_wf ps tx _ W2 W3
                (plain_part_wf (B "text/plain; charset=utf-8") QuotedPrintable v []))
      as (S1 & S2 & S3 & S4).
    destruct tx as [i|]; cbn in *.
    + rewrite length_insert. auto.
    + rewrite S2. split; [exact W1|]. split; [exact S1|]. split; [exact S4|].
      eapply role_in_range_le; [|exact W4]. lia.
  - intros v. unfold Message_TextTemplate. rewrite len_eqb_nil.
    assert (Hslot : forall t, parsed_from ttpl_Parse v t ->
              Message_wf
                (let m0 := match tx with
                           | None => Build_Message dm sj sts st sd fr rt to cc bc
                                       (ps ++ [zero_part]) (Some (length ps)) hx ats er pr
                           | Some _ => Build_Message dm sj sts st sd fr rt to cc bc ps tx hx
                                         ats er pr
                           end in
                 set_parts (<[default 0%nat (m_text m0) :=
                   {| part_ctype := B "text/plain; charset=utf-8"; part_cte := QuotedPrintable;
                      part_bytes := []; part_tplSrc := v; part_tpl := t;
                      part_htmlTplSrc := []; part_htmlTpl := None;
                      part_related := [] |}]> (m_parts m0)) m0)).
    { intros t Ht.
      destruct (slot_wf ps tx
                  {| part_ctype := B "text/plain; charset=utf-8"; part_cte := QuotedPrintable;
                     part_bytes := []; part_tplSrc := v; part_tpl := t;
                     part_htmlTplSrc := []; part_htmlTpl := None; part_related := [] |}
                  W2 W3 (conj Ht eq_refl)) as (S1 & S2 & S3 & S4).
      unfold Message_wf. destruct tx as [i|]; cbn in *.
      - rewrite length_insert. split; [exact W1|]. split; [exact S1|]. auto.
      - rewrite S2. split; [exact W1|]. split; [exact S1|]. split; [exact S4|].
        eapply role_in_range_le; [|exact W4]. lia. }
    destruct (bool_decide (v = [])) eqn:E; cbn [negb].
    + apply bool_decide_eq_true in E. subst v. apply Hslot. reflexivity.
    + apply bool_decide_eq_false in E. destruct (ttpl_Parse v) as [t|err] eqn:Hp.
      * apply Hslot. split; assumption.
      * exact Hwf.
  - intros v related. unfold Message_Html, Message_wf.
    destruct (slot_wf ps hx _ W2 W4
                (plain_part_wf (B "text/html; charset=utf-8") QuotedPrintable v related))
      as (S1 & S2 & S3 & S4).
    destruct hx as [i|]; cbn in *.
    + rewrite length_insert. auto.
    + rewrite S2. split; [exact W1|]. split; [exact S1|]. split; [|exact S4].
      eapply role_in_range_le; [|exact W3]. lia.
  - intros v related. unfold Message_HtmlTemplate. rewrite len_eqb_nil.
    assert (Hslot : forall t, parsed_from htpl_Parse v t ->
              Message_wf
                (let m0 := match hx with
                           | None => Build_Message dm sj sts st sd fr rt to cc bc
                                       (ps ++ [zero_part]) tx (Some (length ps)) ats er pr
                           | Some _ => Build_Message dm sj sts st sd fr rt to cc bc ps tx hx
                                         ats er pr
                           end in
                 set_prepared false
                   (set_parts (<[default 0%nat (m_html m0) :=
                     {| part_ctype := B "text/html; charset=utf-8"; part_cte := QuotedPrintable;
                        part_bytes := []; part_tplSrc := []; part_tpl := None;
                        part_htmlTplSrc := v; part_htmlTpl := t;
                        part_related := related |}]> (m_parts m0)) m0))).
    { intros t Ht.
      destruct (slot_wf ps hx
                  {| part_ctype := B "text/html; charset=utf-8"; part_cte := QuotedPrintable;
                     part_bytes := []; part_tplSrc := []; part_tpl := None;
                     part_htmlTplSrc := v; part_htmlTpl := t; part_related := related |}
                  W2 W4 (conj eq_refl Ht)) as (S1 & S2 & S3 & S4).
      unfold Message_wf. destruct hx as [i|]; cbn in *.
      - rewrite length_insert. split; [exact W1|]. split; [exact S1|]. auto.
      - rewrite S2. split; [exact W1|]. split; [exact S1|]. split; [|exact S4].
        eapply role_in_range_le; [|exact W3]. lia. }
    destruct (bool_decide (v = [])) eqn:E; cbn [negb].
    + apply bool_decide_eq_true in E. subst v. apply Hslot. reflexivity.
    + apply bool_decide_eq_false in E. destruct (htpl_Parse v) as [t|err] eqn:Hp.
      * apply Hslot. split; assumption.
      * exact Hwf.
Qed.

(** * NewMessage *)
Lemma reparse_ttpl src tpl :
  parsed_from ttpl_Parse src tpl ->
  (if negb (len src =? 0)
   then match ttpl_Parse src with inl t => Some t | inr _ => None end
   else None) = tpl.
Proof.
  rewrite len_eqb_nil. destruct tpl as [t|]; cbn.
  - intros [Hne ->]. rewrite bool_decide_eq_false_2 by exact Hne. reflexivity.
  - intros ->. reflexivity.
Qed.

Lemma reparse_htpl src tpl :
  parsed_from htpl_Parse src tpl ->
  (if negb (len src =? 0)
   then match htpl_Parse src with inl t => Some t | inr _ => None end
   else None) = tpl.
Proof.
  rewrite len_eqb_nil. destruct tpl as [t|]; cbn.
  - intros [Hne ->]. rewrite bool_decide_eq_false_2 by exact Hne. reflexivity.
  - intros ->. reflexivity.
Qed.

Lemma keep_nonempty {A} (l : list A) : (if len l >? 0 then l else []) = l.
Proof. destruct l; reflexivity. Qed.

Lemma clone_part_wf p : part_wf p -> clone_part p = p.
Proof.
  intros [W1 W2]. unfold clone_part.
  rewrite (reparse_ttpl _ _ W1), (reparse_htpl _ _ W2), !keep_nonempty.
  destruct p; reflexivity.
Qed.

Lemma addrList_Clone_eq al : addrList_Clone al = al.
Proof.
  unfold addrList_Clone. destruct al as [|a al]; [reflexivity|].
  change (len (a :: al) =? 0) with false. cbv iota.
  induction (a :: al) as [|[n x] l IH]; [reflexivity|]. cbn. rewrite IH. reflexivity.
Qed.

Lemma Address_Clone_eq a : Address_Clone a = a.
Proof. destruct a as [[n x]|]; reflexivity. Qed.

Lemma clone_role_in_range n r : role_in_range n r -> clone_role n r = r.
Proof.
  destruct r as [i|]; [|reflexivity]. unfold clone_role, role_in_range. intros Hi.
  apply Nat.ltb_lt in Hi. rewrite Hi. reflexivity.
Qed.

(** [NewMessage] makes a copy equal to its argument, with the error list
    emptied: the re-parsing of the template sources cannot fail and gives
    the templates of the original.  A copy of a message without errors
    therefore composes to the same bytes. *)
Theorem NewMessage_copies (m : Message) :
  Message_wf m ->
  NewMessage (Some m) = set_errors [] m
  /\ (m_errors m = [] ->
      forall dflt ts d h,
        Message_Compose dflt ts d (NewMessage (Some m)) h = Message_Compose dflt ts d m h).
Proof.
  intros (W1 & W2 & W3 & W4).
  assert (E : NewMessage (Some m) = set_errors [] m).
  { unfold NewMessage. rewrite (reparse_ttpl _ _ W1), !Address_Clone_eq, !addrList_Clone_eq,
      (clone_role_in_range _ _ W3), (clone_role_in_range _ _ W4).
    replace (map clone_part (m_parts m)) with (m_parts m); [reflexivity|].
    clear W3 W4. induction W2 as [|p ps Hp _ IH]; [reflexivity|].
    cbn. rewrite clone_part_wf, <- IH by exact Hp. reflexivity. }
  split; [exact E|]. intros He dflt ts d h. rewrite E.
  destruct m; cbn in He; subst; reflexivity.
Qed.

End clone_properties.

Section send_properties.

Context `{Collaborators}.

(** * Templates that do not parse *)
(** A template that does not parse is not installed: the setter adds one
    error and changes nothing else, so subject, parts and roles stay as they
    were; and a message with such an error composes to nothing. *)
Theorem bad_template_blocks_Compose (tpl err : bytes) (related : list Related)
    (m : Message) dflt ts d h :
  tpl <> [] ->
  (ttpl_Parse tpl = inr err ->
   (exists e, Message_SubjectTemplate tpl m = add_error e m)
   /\ (exists e, Message_TextTemplate tpl m = add_error e m))
  /\ (htpl_Parse tpl = inr err ->
      exists e, Message_HtmlTemplate tpl related m = add_error e m)
  /\ (forall e, exists m' h', Message_Compose dflt ts d (add_error e m) h = Some ([], m', h')).
Proof.
  intros Hne. split; [|split].
  - intros Hp. unfold Message_SubjectTemplate, Message_TextTemplate.
    rewrite len_eqb_nil, bool_decide_eq_false_2, Hp by exact Hne. cbn [negb].
    split; eexists; reflexivity.
  - intros Hp. unfold Message_HtmlTemplate.
    rewrite len_eqb_nil, bool_decide_eq_false_2, Hp by exact Hne. cbn [negb].
    eexists. reflexivity.
  - intros e.
    destruct (Compose_outcome dflt ts d (add_error e m) h)
      as (out & m' & h' & extra & Hc & He & H1 & _).
    exists m', h'. rewrite Hc, H1; [reflexivity|]. rewrite He. cbn.
    destruct (m_errors m); discriminate.
Qed.

(** * Send *)
(** [Sender.Send] composes the message with the sender installed and hands
    it to SMTP exactly when it returns no error.  The call then carries a
    non-empty body, the server address [host:port], the credentials of the
    sender, the From address of the message, and duplicate-free recipients
    that include every To, Cc and Bcc address; the message is left without
    errors.  Otherwise nothing is sent and the message holds the errors. *)
Theorem Sender_Send_outcome dflt ts (s : Sender) (msg : Message) d h :
  exists err m' h' call,
    Sender_Send dflt ts s (Some msg) d h = Some (err, Some (m', h'), call)
    /\ ((err = None /\ m_errors m' = []
         /\ exists c from,
              call = Some c
              /\ smtp_body c <> []
              /\ smtp_addr c = host s ++ B ":" ++ Itoa (port s)
              /\ smtp_username c = username s /\ smtp_password c = password s
              /\ smtp_host c = host s
              /\ resolve_from dflt (Message_setSender (Some s) msg) = Some from
              /\ smtp_from c = Addr from
              /\ NoDup (smtp_to c)
              /\ forall a, a ∈ m_to msg ++ m_cc msg ++ m_bcc msg -> Addr a ∈ smtp_to c)
        \/ (err = Some (B "Sender.Send: failed to compose message")
            /\ m_errors m' <> [] /\ call = None)).
Proof.
  unfold Sender_Send.
  destruct (Compose_outcome dflt ts d (Message_setSender (Some s) msg) h)
    as (out & m' & h' & extra & Hc & He & H1 & H2 & H3 & _ & Henv).
  rewrite Hc. cbn [mbind option_bind].
  unfold Message_HasErrors. rewrite Z.gtb_ltb.
  destruct (m_errors m') as [|e errs] eqn:Em.
  - change (0 <? len []) with false. cbv iota. do 4 eexists. split; [reflexivity|].
    left. split; [reflexivity|]. split; [exact Em|].
    destruct (resolve_from dflt (Message_setSender (Some s) msg)) as [from|] eqn:Hf.
    + eexists. exists from. split; [reflexivity|]. cbn.
      split; [apply H2; reflexivity|]. do 5 (split; [reflexivity|]).
      assert (Hr : resolve_from dflt m' = Some from).
      { rewrite <- Hf. unfold resolve_from.
        destruct Henv as (_ & -> & -> & _). reflexivity. }
      split; [unfold Message_FromAddr; rewrite Hr; reflexivity|].
      split; [apply RecipientAddrs_exact|].
      intros a Ha. apply RecipientAddrs_exact. right. exists a. split; [|reflexivity].
      destruct Henv as (_ & _ & _ & _ & -> & -> & -> & _). exact Ha.
    + exfalso. specialize (H3 eq_refl). subst extra.
      destruct (m_errors (Message_setSender (Some s) msg)); discriminate He.
  - assert (Hpos : (0 <? len (e :: errs)) = true).
    { apply Z.ltb_lt. rewrite len_cons. pose proof (len_nonneg errs). lia. }
    rewrite Hpos. do 4 eexists. split; [reflexivity|]. right. split; [reflexivity|].
    split; [rewrite Em; discriminate|reflexivity].
Qed.

End send_properties.

(** * NewSender *)
Lemma parse_port_digits : forall ds acc,
  forallb is_digit ds = true ->
  0 <= acc ->
  fold_left (fun acc d => acc * 10 + (Z.of_N (bval d) - 48)) ds acc < 2 ^ 63 ->
  parse_port ds acc
  = Some (fold_left (fun acc d => acc * 10 + (Z.of_N (bval d) - 48)) ds acc).
Proof.
  assert (Hmono : forall ds acc, forallb is_digit ds = true -> 0 <= acc ->
            acc <= fold_left (fun acc d => acc * 10 + (Z.of_N (bval d) - 48)) ds acc).
  { induction ds as [|c ds IH]; intros acc Hall Hacc; [cbn; lia|].
    cbn in Hall. apply andb_prop in Hall as [Hc Hall]. cbn [fold_left].
    assert (0 <= Z.of_N (bval c) - 48 <= 9)
      by (destruct c; try discriminate Hc; vm_compute; split; discriminate).
    etransitivity; [|apply IH; [exact Hall|lia]]. lia. }
  induction ds as [|c ds IH]; intros acc Hall Hacc Hlt; [reflexivity|].
  pose proof (Hmono (c :: ds) acc Hall Hacc) as Hm0.
  cbn in Hall. apply andb_prop in Hall as [Hc Hall]. cbn [fold_left parse_port] in *.
  assert (Hd : 0 <= Z.of_N (bval c) - 48 <= 9)
    by (destruct c; try discriminate Hc; vm_compute; split; discriminate).
  pose proof (Hmono ds (acc * 10 + (Z.of_N (bval c) - 48)) Hall ltac:(lia)) as Hm.
  unfold is_digit in Hc. apply andb_prop in Hc as [-> ->]. cbn [negb orb].
  assert (E : int_add (int_mul acc 10) (Z.of_N (bval c) - 48)
              = acc * 10 + (Z.of_N (bval c) - 48)).
  { unfold int_add, int_mul, wrap64.
    rewrite (Z.mod_small (acc * 10 + 2 ^ 63)) by lia.
    replace (acc * 10 + 2 ^ 63 - 2 ^ 63) with (acc * 10) by lia.
    rewrite Z.mod_small by lia. lia. }
  rewrite E. apply IH; [exact Hall|lia|exact Hlt].
Qed.

Lemma split_host_port_plain : forall hname,
  no_colon hname = true -> split_host_port hname = Some (hname, 0).
Proof.
  induction hname as [|c hname IH]; [reflexivity|]. cbn. intros Hall.
  apply andb_prop in Hall as [Hc Hall]. apply negb_true_iff in Hc.
  rewrite Hc, (IH Hall). reflexivity.
Qed.

Lemma split_host_port_colon : forall hname rest,
  no_colon hname = true ->
  split_host_port (hname ++ ":"%byte :: rest)
  = match parse_port rest 0 with Some p => Some (hname, p) | None => None end.
Proof.
  induction hname as [|c hname IH]; intros rest Hall.
  - cbn. destruct (parse_port rest 0); reflexivity.
  - cbn in Hall. apply andb_prop in Hall as [Hc Hall]. apply negb_true_iff in Hc.
    cbn [app split_host_port]. rewrite Hc, (IH rest Hall).
    destruct (parse_port rest 0); reflexivity.
Qed.

(** The port of [NewSender]: a host without a colon gets port 25, as do an
    empty port and port 0; decimal digits after the first colon give that
    port; anything else after it is refused. *)
Theorem NewSender_port (hostname digits user pass : bytes) (addr : list bytes) :
  no_colon hostname = true ->
  (NewSender hostname user pass addr = NewSender (hostname ++ B ":25") user pass addr
   /\ NewSender (hostname ++ B ":") user pass addr = NewSender hostname user pass addr)
  /\ (forallb is_digit digits = true -> decimal_value digits < 2 ^ 63 ->
      forall s, NewSender (hostname ++ B ":" ++ digits) user pass addr = inl s ->
        host s = hostname
        /\ port s = if decimal_value digits =? 0 then 25 else decimal_value digits)
  /\ (forallb is_digit digits = false ->
      NewSender (hostname ++ B ":" ++ digits) user pass addr
      = inr (B "NewSender: invalid port number: " ++ hostname ++ B ":" ++ digits)).
Proof.
  intros Hh. split; [|split].
  - unfold NewSender.
    change (hostname ++ B ":25") with (hostname ++ ":"%byte :: B "25").
    change (hostname ++ B ":") with (hostname ++ ":"%byte :: []).
    rewrite (split_host_port_colon hostname (B "25") Hh),
      (split_host_port_colon hostname [] Hh), (split_host_port_plain hostname Hh).
    split; reflexivity.
  - intros Hd Hlt s. unfold NewSender.
    change (hostname ++ B ":" ++ digits) with (hostname ++ ":"%byte :: digits).
    rewrite (split_host_port_colon hostname digits Hh).
    rewrite (parse_port_digits digits 0 Hd) by (fold (decimal_value digits); lia).
    fold (decimal_value digits).
    destruct (len user =? 0); [discriminate|]. destruct (len pass =? 0); [discriminate|].
    match goal with |- context [match ?r with inl _ => _ | inr _ => _ end] =>
      destruct r as [a|e] end; [|discriminate].
    intros E. inversion E; subst. split; reflexivity.
  - intros Hd. unfold NewSender.
    change (hostname ++ B ":" ++ digits) with (hostname ++ ":"%byte :: digits).
    rewrite (split_host_port_colon hostname digits Hh).
    assert (parse_port digits 0 = None) as ->; [|reflexivity].
    generalize 0. induction digits as [|c ds IH]; intros acc; [discriminate|].
    cbn in Hd. cbn [parse_port]. apply andb_false_iff in Hd as [Hc|Hd].
    + unfold is_digit in Hc. apply andb_false_iff in Hc as [-> | ->]; cbn;
        rewrite ?orb_true_r; reflexivity.
    + destruct (negb (byte_le "0" c) || negb (byte_le c "9")); [reflexivity|].
      apply IH, Hd.
Qed.

(** A [Sender] made by [NewSender] has a user name, a password, a port that
    is not 0 and, if it has an address, one that [SeemsValidAddr] accepts;
    its host has no colon left. *)
Theorem NewSender_result (hostname user pass : bytes) (addr : list bytes) (s : Sender) :
  NewSender hostname user pass addr = inl s ->
  username s = user /\ user <> []
  /\ password s = pass /\ pass <> []
  /\ port s <> 0
  /\ no_colon (host s) = true
  /\ match address s with
     | Some a => SeemsValidAddr (Addr a) = true
     | None => True
     end.
Proof.
  unfold NewSender.
  destruct (split_host_port hostname) as [[h0 p0]|] eqn:Hs; [|discriminate].
  rewrite !len_eqb_nil.
  destruct (bool_decide (user = [])) eqn:Eu; [discriminate|].
  destruct (bool_decide (pass = [])) eqn:Ep; [discriminate|].
  apply bool_decide_eq_false in Eu, Ep.
  assert (Hcolon : no_colon h0 = true).
  { clear - Hs. revert h0 p0 Hs. induction hostname as [|c hn IH]; intros h0 p0 Hs.
    - inversion Hs; subst. reflexivity.
    - cbn in Hs. destruct (Byte.eqb c ":") eqn:Ec.
      + destruct (parse_port hn 0); inversion Hs; subst. reflexivity.
      + destruct (split_host_port hn) as [[h1 p1]|]; [|discriminate].
        inversion Hs; subst. cbn. rewrite Ec. cbn. eapply IH. reflexivity. }
  assert (Hnew : forall n a x, NewAddress n a = inl x -> SeemsValidAddr (Addr x) = true).
  { intros n a x. unfold NewAddress. destruct (SeemsValidAddr a) eqn:E; [|discriminate].
    intros E'. inversion E'; subst. exact E. }
  match goal with |- context [match ?r with inl _ => _ | inr _ => _ end = _] =>
    destruct r as [a|e] eqn:Ea end; [|discriminate].
  intros E. inversion E; subst. cbn.
  split; [reflexivity|]. split; [exact Eu|]. split; [reflexivity|]. split; [exact Ep|].
  split; [destruct (p0 =? 0) eqn:E0; [discriminate|apply Z.eqb_neq, E0]|].
  split; [exact Hcolon|].
  destruct a as [a|]; [|exact I].
  destruct addr as [|a0 [|a1 [|a2 rest]]]; try discriminate Ea.
  - destruct (NewAddress [] a0) eqn:En; inversion Ea; subst. eapply Hnew, En.
  - destruct (NewAddress a0 a1) eqn:En; inversion Ea; subst. eapply Hnew, En.
Qed.

(** * Lines *)
Lemma int_add_small a b :
  - 2 ^ 63 <= a + b < 2 ^ 63 -> int_add a b = a + b.
Proof.
  intros Hr. unfold int_add, wrap64. rewrite Z.mod_small by lia. lia.
Qed.

Lemma lines_from_no_cr cur s : no_cr s = true -> lines_from cur s = [cur ++ s].
Proof.
  intros Hs. rewrite <- (app_nil_r s) at 1. rewrite lines_from_plain by exact Hs. reflexivity.
Qed.

Lemma lines_from_unlines : forall ls l0 cur,
  Forall (fun l => no_cr l = true) ls -> no_cr l0 = true -> no_cr cur = true ->
  lines_from l0 (unlines ls cur)
  = match ls with
    | [] => [l0 ++ cur]
    | l :: ls' => (l0 ++ l) :: ls' ++ [cur]
    end.
Proof.
  induction ls as [|l ls IH]; intros l0 cur Hls Hl0 Hcur.
  - apply lines_from_no_cr, Hcur.
  - inversion Hls as [|? ? Hl Hls']; subst. unfold unlines. cbn [map concat].
    rewrite <- !app_assoc. rewrite lines_from_plain by exact Hl.
    cbn [CRLF app]. rewrite lines_from_crlf. f_equal.
    fold (unlines ls cur). rewrite (IH [] cur Hls' eq_refl Hcur).
    destruct ls; reflexivity.
Qed.

Lemma lines_unlines ls cur :
  Forall (fun l => no_cr l = true) ls -> no_cr cur = true ->
  lines (unlines ls cur) = ls ++ [cur].
Proof.
  intros Hls Hcur. unfold lines. rewrite lines_from_unlines by auto.
  destruct ls; reflexivity.
Qed.

Lemma unlines_app ls cur x : unlines ls cur ++ x = unlines ls (cur ++ x).
Proof. unfold unlines. rewrite <- app_assoc. reflexivity. Qed.

Lemma unlines_break ls cur x : unlines ls cur ++ CRLF ++ x = unlines (ls ++ [cur]) x.
Proof.
  unfold unlines. rewrite map_app, concat_app. cbn [map concat].
  rewrite app_nil_r, <- !app_assoc. reflexivity.
Qed.

(** * The units of the two text encoders *)
Lemma hex3_text c :
  forallb q_text_byte (hex3 c) = true /\ forallb qp_text_byte (hex3 c) = true
  /\ len (hex3 c) = 3.
Proof. destruct c; repeat split. Qed.

Lemma q_text_qp_text c : q_text_byte c = true -> qp_text_byte c = true.
Proof. destruct c; try discriminate; reflexivity. Qed.

Lemma qp_text_printable_or_tab c : qp_text_byte c = true -> Byte.eqb c CR = false.
Proof. destruct c; try discriminate; reflexivity. Qed.

Lemma qp_text_no_cr s : forallb qp_text_byte s = true -> no_cr s = true.
Proof.
  induction s as [|c s IH]; [reflexivity|]. cbn. intros Hs.
  apply andb_prop in Hs as [Hc Hs]. rewrite (qp_text_printable_or_tab c Hc). apply IH, Hs.
Qed.

Lemma short_runes_app : forall a b, short_runes (a ++ b) = true -> short_runes b = true.
Proof.
  induction a as [|c a IH]; intros b Hs; [exact Hs|].
  cbn in Hs. apply andb_prop in Hs as [_ Hs]. apply IH, Hs.
Qed.

Lemma rune_tail_facts (P : byte -> bool) :
  (forall c, forallb P (hex3 c) = true) ->
  forall src enc,
    forallb P enc = true ->
    forallb P (fst (rune_tail enc src)) = true
    /\ len (fst (rune_tail enc src)) = len enc + 3 * Z.of_nat (cont_run src)
    /\ exists conts, src = conts ++ snd (rune_tail enc src).
Proof.
  intros HP. induction src as [|c src IH]; intros enc Henc.
  - cbn. split; [exact Henc|]. split; [lia|]. exists []. reflexivity.
  - cbn [rune_tail cont_run]. destruct (is_cont c); cbn [negb].
    + destruct (IH (enc ++ hex3 c)) as (I1 & I2 & conts & I3).
      { rewrite forallb_app, Henc, HP. reflexivity. }
      split; [exact I1|]. split.
      * rewrite I2, len_app. destruct (hex3_text c) as (_ & _ & ->). lia.
      * exists (c :: conts). cbn. rewrite <- I3. reflexivity.
    + cbn. split; [exact Henc|]. split; [lia|]. exists []. reflexivity.
Qed.

(** One unit of [QuotedPrintableEncode]. *)
Lemma qp_unit_facts c rest :
  short_runes (c :: rest) = true ->
  forallb qp_text_byte (qp_unit c rest).1.1 = true
  /\ 1 <= len (qp_unit c rest).1.1 <= 12
  /\ (length (qp_unit c rest).2 <= length rest)%nat
  /\ short_runes (qp_unit c rest).2 = true.
Proof.
  intros Hs. cbn in Hs. apply andb_prop in Hs as [Hc Hs]. unfold qp_unit.
  destruct (Byte.eqb c TAB || Byte.eqb c " ") eqn:E1.
  { cbn [fst snd]. change (len [c]) with 1.
    split; [|split; [lia|auto]]. destruct c; try discriminate E1; reflexivity. }
  destruct (byte_le "!" c && byte_le c "~" && negb (Byte.eqb c "=")) eqn:E2.
  { cbn [fst snd]. change (len [c]) with 1.
    split; [|split; [lia|auto]]. destruct c; try discriminate E2; reflexivity. }
  destruct (hex3_text c) as (T1 & T2 & T3).
  destruct (is_lead c) eqn:E3.
  - cbn in Hc. apply Nat.leb_le in Hc.
    destruct (rune_tail_facts qp_text_byte (fun c => proj1 (proj2 (hex3_text c))) rest (hex3 c) T2)
      as (F1 & F2 & conts & F3).
    destruct (rune_tail (hex3 c) rest) as [enc rest']. cbn [fst snd] in *.
    split; [exact F1|]. split; [lia|]. split.
    + rewrite F3, length_app. lia.
    + rewrite F3 in Hs. apply (short_runes_app conts), Hs.
  - cbn [fst snd]. split; [exact T2|]. split; [lia|auto].
Qed.

(** One unit of [QEncode]. *)
Lemma q_unit_facts c rest :
  short_runes (c :: rest) = true ->
  forallb q_text_byte (q_unit c rest).1 = true
  /\ 1 <= len (q_unit c rest).1 <= 12
  /\ (length (q_unit c rest).2 <= length rest)%nat
  /\ short_runes (q_unit c rest).2 = true.
Proof.
  intros Hs. cbn in Hs. apply andb_prop in Hs as [Hc Hs]. unfold q_unit.
  destruct (Byte.eqb c " ") eqn:E1.
  { cbn [fst snd]. change (len ["_"%byte]) with 1. split; [reflexivity|]. split; [lia|auto]. }
  destruct (byte_le "!" c && byte_le c "~" && negb (Byte.eqb c "=")
            && negb (Byte.eqb c "?") && negb (Byte.eqb c "_")) eqn:E2.
  { cbn [fst snd]. change (len [c]) with 1.
    split; [|split; [lia|auto]]. destruct c; try discriminate E2; reflexivity. }
  destruct (hex3_text c) as (T1 & T2 & T3).
  destruct (is_lead c) eqn:E3.
  - cbn in Hc. apply Nat.leb_le in Hc.
    destruct (rune_tail_facts q_text_byte (fun c => proj1 (hex3_text c)) rest (hex3 c) T1)
      as (F1 & F2 & conts & F3).
    destruct (rune_tail (hex3 c) rest) as [enc rest']. cbn [fst snd] in *.
    split; [exact F1|]. split; [lia|]. split.
    + rewrite F3, length_app. lia.
    + rewrite F3 in Hs. apply (short_runes_app conts), Hs.
  - cbn [fst snd]. split; [exact T1|]. split; [lia|auto].
Qed.

Lemma qp_loop_lines : forall fuel src pos dst eis ls cur,
  (length src <= fuel)%nat -> short_runes src = true ->
  dst = unlines ls cur -> Forall qp_line ls ->
  forallb qp_text_byte cur = true -> len cur = pos -> pos <= 75 ->
  exists ls' cur',
    fst (qp_loop fuel src pos dst eis) = unlines ls' cur'
    /\ Forall qp_line ls' /\ forallb qp_text_byte cur' = true /\ len cur' <= 75.
Proof.
  induction fuel as [|fuel IH]; intros src pos dst eis ls cur Hf Hs Hd Hls Hcur Hlen Hpos.
  { destruct src; [|cbn in Hf; lia]. exists ls, cur. cbn. split; [exact Hd|]. auto with lia. }
  destruct src as [|c rest].
  { exists ls, cur. cbn. split; [exact Hd|]. auto with lia. }
  cbn [qp_loop]. destruct (qp_unit_facts c rest Hs) as (U1 & U2 & U3 & U4).
  destruct (qp_unit c rest) as [[enc eis'] rest']. cbn [fst snd] in *.
  pose proof (len_nonneg cur) as Hc0. cbn [length] in Hf.
  rewrite int_add_small by lia.
  destruct (Z.gtb_spec (pos + len enc) 75).
  - apply (IH rest' (len enc) _ eis' (ls ++ [cur ++ B "="]) enc); try assumption; try lia.
    + subst dst. rewrite <- unlines_break, <- unlines_app, <- !app_assoc. reflexivity.
    + apply Forall_app. split; [exact Hls|]. constructor; [|constructor]. split.
      * rewrite forallb_app, Hcur. reflexivity.
      * rewrite len_app. change (len (B "=")) with 1. lia.
  - apply (IH rest' (pos + len enc) _ eis' ls (cur ++ enc)); try assumption; try lia.
    + subst dst. apply unlines_app.
    + rewrite forallb_app, Hcur, U1. reflexivity.
    + rewrite len_app. lia.
Qed.

(** For a text in which no lead byte is followed by more than three
    continuation bytes (every UTF-8 text is one), each line of the output of
    [QuotedPrintableEncode] has at most 76 characters, and all of them are
    printable ASCII, spaces or tabs. *)
Theorem QuotedPrintableEncode_line_lengths (src : bytes) :
  short_runes src = true ->
  Forall (fun l => forallb qp_text_byte l = true /\ len l <= 76)
         (lines (QuotedPrintableEncode src)).
Proof.
  intros Hs. unfold QuotedPrintableEncode.
  destruct (len src =? 0).
  { constructor; [split; [reflexivity|change (0 <= 76); lia]|constructor]. }
  destruct (qp_loop_lines (length src) src 0 [] false [] [] (le_n _) Hs eq_refl
              ltac:(constructor) eq_refl eq_refl ltac:(lia)) as (ls & cur & E & Hls & Hcur & Hlen).
  destruct (qp_loop (length src) src 0 [] false) as [dst eis]. cbn [fst] in E. subst dst.
  assert (Hno : Forall (fun l => no_cr l = true) ls).
  { eapply Forall_impl; [exact Hls|]. intros l [Hl _]. apply qp_text_no_cr, Hl. }
  destruct eis.
  - rewrite unlines_app, lines_unlines.
    + apply Forall_app. split; [exact Hls|]. constructor; [|constructor]. split.
      * rewrite forallb_app, Hcur. reflexivity.
      * rewrite len_app. change (len ["="%byte]) with 1. lia.
    + exact Hno.
    + apply qp_text_no_cr. rewrite forallb_app, Hcur. reflexivity.
  - rewrite lines_unlines; [|exact Hno|apply qp_text_no_cr, Hcur].
    apply Forall_app. split; [exact Hls|]. constructor; [|constructor]. split; [exact Hcur|lia].
Qed.

Lemma QuotedPrintableEncode_line_lengths_witness :
  Forall (fun l => forallb qp_text_byte l = true /\ len l <= 76)
         (lines (QuotedPrintableEncode
                   (B "A text of two lines, with a tab" ++ [TAB] ++ B "and an equals sign = in it,"
                    ++ [CR; LF] ++ B "long enough to need a soft line break somewhere."))).
Proof. apply QuotedPrintableEncode_line_lengths. reflexivity. Defined.

Lemma q_text_printable s : forallb q_text_byte s = true -> forallb printable s = true.
Proof.
  induction s as [|c s IH]; [reflexivity|]. cbn [forallb]. intros Hs.
  apply andb_prop in Hs as [Hc Hs]. rewrite (IH Hs), andb_true_r.
  destruct c; try discriminate Hc; reflexivity.
Qed.

Lemma printable_no_cr s : forallb printable s = true -> no_cr s = true.
Proof.
  unfold no_cr. induction s as [|c s IH]; [reflexivity|]. cbn [forallb]. intros Hs.
  apply andb_prop in Hs as [Hc Hs]. rewrite (IH Hs), andb_true_r.
  destruct c; try discriminate Hc; reflexivity.
Qed.

Lemma q_lines_no_cr ls : Forall q_line ls -> Forall (fun l => no_cr l = true) ls.
Proof.
  intros Hls. eapply Forall_impl; [exact Hls|]. intros l [Hl _]. apply printable_no_cr, Hl.
Qed.

Lemma q_loop_lines (prefix : bytes) : forall fuel src pos dst ls cur,
  (length src <= fuel)%nat -> short_runes src = true -> dst <> [] ->
  prefix ++ dst = unlines ls cur -> Forall q_line ls ->
  forallb printable cur = true -> len cur = pos -> pos <= 74 ->
  exists ls' cur',
    prefix ++ fst (q_loop fuel src pos dst) = unlines ls' cur'
    /\ Forall q_line ls' /\ forallb printable cur' = true
    /\ len cur' = snd (q_loop fuel src pos dst) /\ len cur' <= 74.
Proof.
  induction fuel as [|fuel IH]; intros src pos dst ls cur Hf Hs Hne Hd Hls Hcur Hlen Hpos.
  { destruct src; [|cbn in Hf; lia]. exists ls, cur. cbn. auto with lia. }
  destruct src as [|c rest].
  { exists ls, cur. cbn. auto with lia. }
  cbn [q_loop]. destruct (q_unit_facts c rest Hs) as (U1 & U2 & U3 & U4).
  destruct (q_unit c rest) as [enc rest']. cbn [fst snd] in *.
  pose proof (len_nonneg cur) as Hc0. cbn [length] in Hf.
  destruct (len_pos_nonempty dst Hne) as [-> ->].
  rewrite !int_add_small by lia.
  destruct (Z.gtb_spec (pos + len enc) 74).
  - apply (IH rest' (len enc + 11) _ (ls ++ [cur ++ B "?="]) (B " =?utf-8?q?" ++ enc));
      try assumption; try lia.
    + apply app_nonempty_l, app_nonempty_l, Hne.
    + rewrite <- unlines_break, <- unlines_app, <- Hd. unfold q_fold.
      rewrite <- !app_assoc. reflexivity.
    + apply Forall_app. split; [exact Hls|]. constructor; [|constructor]. split.
      * rewrite forallb_app, Hcur. reflexivity.
      * rewrite len_app. change (len (B "?=")) with 2. lia.
    + rewrite forallb_app, (q_text_printable enc U1). reflexivity.
    + rewrite len_app. change (len (B " =?utf-8?q?")) with 11. lia.
  - apply (IH rest' (pos + len enc) _ ls (cur ++ enc)); try assumption; try lia.
    + apply app_nonempty_l, Hne.
    + rewrite app_assoc, Hd. apply unlines_app.
    + rewrite forallb_app, Hcur, (q_text_printable enc U1). reflexivity.
    + rewrite len_app. lia.
Qed.

(** The output of [QEncode] after a line of [offset] characters. *)
Lemma QEncode_unlines (src prefix : bytes) (offset : Z) :
  src <> [] -> short_runes src = true ->
  forallb printable prefix = true ->
  len prefix = Z.max 1 offset -> offset <= 76 ->
  exists ls cur,
    prefix ++ fst (QEncode src offset) = unlines ls cur
    /\ Forall q_line (ls ++ [cur])
    /\ snd (QEncode src offset) = len cur.
Proof.
  intros Hne Hs Hp Hlen Hoff. unfold QEncode.
  destruct (len_pos_nonempty src Hne) as [_ ->].
  assert (Eoff : (if offset <? 1 then 1 else offset) = len prefix).
  { rewrite Hlen. destruct (Z.ltb_spec offset 1); lia. }
  rewrite Eoff. clear Eoff.
  assert (Hfin : forall fuel src' pos dst ls cur,
            (length src' <= fuel)%nat -> short_runes src' = true -> dst <> [] ->
            prefix ++ dst = unlines ls cur -> Forall q_line ls ->
            forallb printable cur = true -> len cur = pos -> pos <= 74 ->
            exists ls' cur',
              prefix ++ fst (let '(dst, pos) := q_loop fuel src' pos dst in
                             (dst ++ ["?"%byte; "="%byte], int_add pos 2))
              = unlines ls' cur'
              /\ Forall q_line (ls' ++ [cur'])
              /\ snd (let '(dst, pos) := q_loop fuel src' pos dst in
                      (dst ++ ["?"%byte; "="%byte], int_add pos 2)) = len cur').
  { intros fuel src' pos dst ls cur H1 H2 H3 H4 H5 H6 H7 H8.
    destruct (q_loop_lines prefix fuel src' pos dst ls cur H1 H2 H3 H4 H5 H6 H7 H8)
      as (ls' & cur' & E & L1 & L2 & L3 & L4).
    destruct (q_loop fuel src' pos dst) as [dst' pos']. cbn [fst snd] in *.
    pose proof (len_nonneg cur').
    exists ls', (cur' ++ B "?="). rewrite app_assoc, E, unlines_app.
    assert (Hq : q_line (cur' ++ B "?=")).
    { split; [rewrite forallb_app, L2; reflexivity|].
      rewrite len_app. change (len (B "?=")) with 2. lia. }
    split; [reflexivity|].
    split; [apply Forall_app; split; [exact L1|constructor; [exact Hq|constructor]]|].
    rewrite int_add_small by lia. rewrite len_app. change (len (B "?=")) with 2. lia. }
  destruct src as [|c rest]; [congruence|].
  cbn [length q_loop]. destruct (q_unit_facts c rest Hs) as (U1 & U2 & U3 & U4).
  destruct (q_unit c rest) as [enc rest']. cbn [fst snd] in *.
  change (len (@nil byte) >? 0) with false. change (len (@nil byte) =? 0) with true.
  cbv iota. cbn [app]. pose proof (len_nonneg prefix) as Hp0.
  assert (Hpl : len prefix <= 76) by lia.
  rewrite (int_add_small 10 (len prefix)) by lia.
  rewrite (int_add_small (10 + len prefix) (len enc)) by lia.
  rewrite (int_add_small (len enc) 11) by lia.
  destruct (Z.gtb_spec (10 + len prefix + len enc) 74).
  - apply (Hfin _ _ _ _ [prefix] (B " =?utf-8?q?" ++ enc)); try assumption; try lia.
    + apply app_nonempty_l. discriminate.
    + unfold unlines, q_fold_first. cbn [map concat]. rewrite <- !app_assoc. reflexivity.
    + constructor; [split; assumption|constructor].
    + rewrite forallb_app, (q_text_printable enc U1). reflexivity.
    + rewrite len_app. change (len (B " =?utf-8?q?")) with 11. lia.
  - apply (Hfin _ _ _ _ [] (prefix ++ q_open ++ enc)); try assumption; try lia.
    + apply app_nonempty_l. discriminate.
    + unfold unlines. cbn [map concat app]. reflexivity.
    + constructor.
    + rewrite !forallb_app, Hp, (q_text_printable enc U1). reflexivity.
    + rewrite !len_app. change (len q_open) with 10. lia.
Qed.

(** [QEncode] keeps the header line within 76 characters.  Let the header
    have [offset] characters before the encoded text (an empty line counts
    as one character) and no lead byte of the text be followed by more than
    three continuation bytes.  Then every line of the header, the part
    before the encoded text included, has at most 76 characters, all
    printable ASCII, and the position returned is the length of the last
    line. *)
Theorem QEncode_line_lengths (src prefix : bytes) (offset : Z) :
  src <> [] -> short_runes src = true ->
  forallb printable prefix = true ->
  len prefix = Z.max 1 offset -> offset <= 76 ->
  exists ls cur,
    lines (prefix ++ fst (QEncode src offset)) = ls ++ [cur]
    /\ Forall (fun l => forallb printable l = true /\ len l <= 76) (ls ++ [cur])
    /\ snd (QEncode src offset) = len cur.
Proof.
  intros Hne Hs Hp Hlen Hoff.
  destruct (QEncode_unlines src prefix offset Hne Hs Hp Hlen Hoff) as (ls & cur & E & Hl & Hpos).
  exists ls, cur. split; [|split; assumption]. rewrite E.
  apply Forall_app in Hl as [Hls Hcur]. inversion Hcur as [|? ? [Hc _] _]; subst.
  apply lines_unlines; [apply q_lines_no_cr, Hls|apply printable_no_cr, Hc].
Qed.

Lemma QEncode_line_lengths_witness :
  exists ls cur,
    lines (B "Subject: " ++ fst (QEncode (B "Caf" ++ [xc3; xa9] ++ B " au lait") 9))
    = ls ++ [cur]
    /\ Forall (fun l => forallb printable l = true /\ len l <= 76) (ls ++ [cur])
    /\ snd (QEncode (B "Caf" ++ [xc3; xa9] ++ B " au lait") 9) = len cur.
Proof.
  apply (QEncode_line_lengths (B "Caf" ++ [xc3; xa9] ++ B " au lait") (B "Subject: ") 9);
    first [discriminate | reflexivity | lia].
Defined.

(** * The position that Address.encode returns *)
Lemma valid_addr_text addr :
  SeemsValidAddr addr = true -> forallb q_text_byte addr = true.
Proof.
  intros Hv. destruct (forallb q_text_byte addr) eqn:E; [reflexivity|]. exfalso.
  assert (Hsplit : exists a c b, addr = a ++ c :: b /\ q_text_byte c = false).
  { clear Hv. induction addr as [|c addr IH]; [discriminate|]. cbn in E.
    destruct (q_text_byte c) eqn:Ec.
    - destruct (IH E) as (a & c' & b & -> & Hc). exists (c :: a), c', b. auto.
    - exists [], c, addr. auto. }
  destruct Hsplit as (a & c & b & -> & Hc).
  unfold SeemsValidAddr in Hv. rewrite sva_outside_range in Hv; [discriminate|].
  unfold q_text_byte in Hc. apply andb_false_iff in Hc as [-> | ->];
    rewrite ?orb_true_r; reflexivity.
Qed.

Lemma name_scan_count : forall name nq0 nq,
  name_scan name nq0 = (nq, true) -> 0 <= nq0 -> nq0 + len name < 2 ^ 62 ->
  len (quote_name [] name) = len name + (nq - nq0)
  /\ forallb printable (quote_name [] name) = true.
Proof.
  induction name as [|c name IH]; intros nq0 nq Hs H0 Hb.
  - cbn in Hs. inversion Hs; subst. cbn. split; [lia|reflexivity].
  - rewrite len_cons in Hb. pose proof (len_nonneg name) as Hn.
    cbn [name_scan] in Hs. cbv zeta in Hs.
    destruct (printable c) eqn:Hp; [|discriminate].
    rewrite quote_name_cons, len_app, len_cons, forallb_app.
    destruct (Byte.eqb c BSLASH || Byte.eqb c DQUOTE) eqn:E.
    + rewrite int_add_small in Hs by lia.
      destruct (IH (nq0 + 1) nq Hs ltac:(lia) ltac:(lia)) as [-> ->].
      change (len [BSLASH; c]) with 2. cbn. rewrite Hp. split; [lia|reflexivity].
    + destruct (IH nq0 nq Hs ltac:(lia) ltac:(lia)) as [-> ->].
      change (len [c]) with 1. cbn. rewrite Hp. split; [lia|reflexivity].
Qed.

(** The tail that every branch of [encode] shares. *)
Lemma address_tail (ls : list bytes) (cur addr : bytes) (fold : bool) :
  Forall (fun l => no_cr l = true) ls -> forallb printable cur = true ->
  forallb q_text_byte addr = true ->
  let sep := if fold then CRLF ++ B " " else B " " in
  exists ls' cur',
    lines (unlines ls cur ++ sep ++ B "<" ++ addr ++ B ">") = ls' ++ [cur']
    /\ len cur' = (if fold then 1 else len cur + 1) + (len addr + 2)
    /\ exists before, cur' = before ++ B "<" ++ addr ++ B ">".
Proof.
  intros Hls Hcur Haddr. cbv zeta.
  assert (Ha : forallb printable (B "<" ++ addr ++ B ">") = true).
  { rewrite !forallb_app, (q_text_printable addr Haddr). reflexivity. }
  assert (Hl : len (B "<" ++ addr ++ B ">") = len addr + 2).
  { rewrite !len_app. change (len (B "<")) with 1. change (len (B ">")) with 1. lia. }
  destruct fold.
  - exists (ls ++ [cur]), (B " " ++ B "<" ++ addr ++ B ">").
    rewrite <- app_assoc, unlines_break. split; [|split].
    + apply lines_unlines.
      * apply Forall_app. split; [exact Hls|].
        constructor; [apply printable_no_cr, Hcur|constructor].
      * apply printable_no_cr. rewrite forallb_app, Ha. reflexivity.
    + rewrite len_app, Hl. reflexivity.
    + exists (B " "). reflexivity.
  - exists ls, (cur ++ B " " ++ B "<" ++ addr ++ B ">").
    rewrite unlines_app. split; [|split].
    + apply lines_unlines; [exact Hls|].
      apply printable_no_cr.
      rewrite !forallb_app, Hcur, (q_text_printable addr Haddr). reflexivity.
    + rewrite len_app, len_app, Hl. change (len (B " ")) with 1. lia.
    + exists (cur ++ B " "). rewrite <- !app_assoc. reflexivity.
Qed.

Lemma quote_name_len_le : forall name, len (quote_name [] name) <= 2 * len name.
Proof.
  induction name as [|c name IH]; [change (0 <= 2 * 0); lia|].
  rewrite quote_name_cons, len_app, len_cons.
  destruct (Byte.eqb c BSLASH || Byte.eqb c DQUOTE);
    [change (len [BSLASH; c]) with 2|change (len [c]) with 1]; lia.
Qed.

(** [encode] reports where it stopped.  For an address that
    [SeemsValidAddr] accepts, written after a header line of [offset]
    characters, the text ends in [<addr>] and the position returned is the
    length of the last line, whichever of the three forms the display name
    takes and whether or not the line was folded. *)
Theorem Address_encode_position (a : Address) (prefix : bytes) (offset : Z) :
  SeemsValidAddr (Addr a) = true -> short_runes (Name a) = true ->
  len (Name a) + len (Addr a) < 2 ^ 60 ->
  forallb printable prefix = true -> len prefix = offset -> 1 <= offset <= 76 ->
  exists ls cur,
    lines (prefix ++ fst (Address_encode a offset)) = ls ++ [cur]
    /\ snd (Address_encode a offset) = len cur
    /\ exists before, cur = before ++ B "<" ++ Addr a ++ B ">".
Proof.
  intros Hv Hs Hb Hp Hlen Hoff. pose proof (valid_addr_text _ Hv) as Ht.
  pose proof (len_nonneg (Name a)) as Hn0. pose proof (len_nonneg (Addr a)) as Ha0.
  unfold Address_encode. cbv zeta.
  destruct (Z.gtb_spec (len (Name a)) 0) as [Hn|Hn].
  - destruct (name_scan (Name a) 0) as [nq safe] eqn:Hscan. destruct safe.
    + destruct (name_scan_count (Name a) 0 nq Hscan ltac:(lia) ltac:(lia)) as [Hq Hqp].
      pose proof (quote_name_len_le (Name a)) as Hle.
      pose proof (len_nonneg (quote_name [] (Name a))) as Hq0.
      rewrite quote_name_acc.
      rewrite (int_add_small (len (Name a)) nq) by lia.
      rewrite (int_add_small (len (Name a) + nq) 3) by lia.
      rewrite (int_add_small offset) by lia.
      set (cur := prefix ++ [DQUOTE] ++ quote_name [] (Name a) ++ [DQUOTE]).
      assert (Hcur : forallb printable cur = true).
      { subst cur. rewrite !forallb_app, Hp, Hqp. reflexivity. }
      assert (Hcl : len cur + 1 = offset + (len (Name a) + nq + 3)).
      { subst cur. rewrite !len_app. change (len [DQUOTE]) with 1. lia. }
      rewrite (int_add_small _ (len (Addr a))) by lia.
      destruct (offset + (len (Name a) + nq + 3) + len (Addr a) <=? 74).
      * destruct (address_tail [] cur (Addr a) false ltac:(constructor) Hcur Ht)
          as (ls' & cur' & E & L & Hb').
        exists ls', cur'. cbn [fst snd]. split; [|split; [|exact Hb']].
        -- rewrite <- E. f_equal. subst cur. unfold unlines. cbn [map concat].
           rewrite <- !app_assoc. reflexivity.
        -- rewrite L, Hcl. rewrite (int_add_small (len (Addr a)) 2) by lia.
           apply int_add_small. lia.
      * destruct (address_tail [] cur (Addr a) true ltac:(constructor) Hcur Ht)
          as (ls' & cur' & E & L & Hb').
        exists ls', cur'. cbn [fst snd]. split; [|split; [|exact Hb']].
        -- rewrite <- E. f_equal. subst cur. unfold unlines. cbn [map concat].
           rewrite <- !app_assoc. reflexivity.
        -- rewrite L. rewrite (int_add_small (len (Addr a)) 2) by lia.
           apply int_add_small. lia.
    + assert (Hne : Name a <> []).
      { intros E. rewrite E in Hn. revert Hn. change (len (@nil byte)) with 0. lia. }
      destruct (QEncode_unlines (Name a) prefix offset Hne Hs Hp ltac:(lia) ltac:(lia))
        as (ls & cur & E & Hl & Hpos).
      destruct (QEncode (Name a) offset) as [buf off1]. cbn [fst snd] in *. subst off1.
      apply Forall_app in Hl as [Hls Hcur]. inversion Hcur as [|? ? [Hc Hc76] _]; subst.
      pose proof (len_nonneg cur) as Hc0.
      rewrite (int_add_small (len cur) 1) by lia.
      rewrite (int_add_small (len cur + 1) (len (Addr a))) by lia.
      destruct (len cur + 1 + len (Addr a) <=? 74).
      * destruct (address_tail ls cur (Addr a) false (q_lines_no_cr ls Hls) Hc Ht)
          as (ls' & cur' & E' & L & Hb').
        exists ls', cur'. cbn [fst snd]. split; [|split; [|exact Hb']].
        -- rewrite <- E', <- E. rewrite <- !app_assoc. reflexivity.
        -- rewrite L. rewrite (int_add_small (len (Addr a)) 2) by lia.
           apply int_add_small. lia.
      * destruct (address_tail ls cur (Addr a) true (q_lines_no_cr ls Hls) Hc Ht)
          as (ls' & cur' & E' & L & Hb').
        exists ls', cur'. cbn [fst snd]. split; [|split; [|exact Hb']].
        -- rewrite <- E', <- E. rewrite <- !app_assoc. reflexivity.
        -- rewrite L. rewrite (int_add_small (len (Addr a)) 2) by lia.
           apply int_add_small. lia.
  - rewrite (int_add_small offset (len (Addr a))) by lia.
    rewrite (int_add_small (len (Addr a)) 2) by lia.
    assert (Ha : forallb printable (B "<" ++ Addr a ++ B ">") = true).
    { rewrite !forallb_app, (q_text_printable _ Ht). reflexivity. }
    assert (Hl : len (B "<" ++ Addr a ++ B ">") = len (Addr a) + 2).
    { rewrite !len_app. change (len (B "<")) with 1. change (len (B ">")) with 1. lia. }
    destruct (offset + len (Addr a) <=? 74).
    + exists [], (prefix ++ B "<" ++ Addr a ++ B ">"). cbn [fst snd]. split; [|split].
      * apply (lines_unlines [] (prefix ++ B "<" ++ Addr a ++ B ">") ltac:(constructor)).
        apply printable_no_cr. rewrite forallb_app, Hp, Ha. reflexivity.
      * rewrite len_app, Hl, Hlen. apply int_add_small. lia.
      * exists prefix. reflexivity.
    + destruct (address_tail [] prefix (Addr a) true ltac:(constructor) Hp Ht)
        as (ls' & cur' & E' & L & Hb').
      exists ls', cur'. cbn [fst snd]. split; [|split; [|exact Hb']].
      * rewrite <- E'. f_equal.
      * rewrite L. apply int_add_small. lia.
Qed.

Lemma Address_encode_position_witness :
  exists ls cur,
    lines (B "To: " ++ fst (Address_encode {| Name := B "Jay Doe";
                                              Addr := B "jay@example.com" |} 4))
    = ls ++ [cur]
    /\ snd (Address_encode {| Name := B "Jay Doe"; Addr := B "jay@example.com" |} 4) = len cur
    /\ exists before, cur = before ++ B "<" ++ B "jay@example.com" ++ B ">".
Proof.
  apply (Address_encode_position {| Name := B "Jay Doe"; Addr := B "jay@example.com" |}
           (B "To: ") 4); first [reflexivity | lia].
Defined.

Lemma SeemsValidAddr_printable_only_witness :
  SeemsValidAddr (B "jay doe" ++ " "%byte :: B "@example.com") = false.
Proof. apply (SeemsValidAddr_printable_only (B "jay doe") " "%byte (B "@example.com")). reflexivity. Defined.

Lemma Compose_keeps_errors_witness :
  exists m' h' extra,
    Message_Compose (H := example_world) None example_ts tt example_rejected (snd example_message)
    = Some ([], m', h')
    /\ m_errors m' = m_errors example_rejected ++ extra.
Proof.
  apply (Compose_keeps_errors (H := example_world) None example_ts tt example_rejected
           (snd example_message)).
  discriminate.
Defined.

Lemma Compose_needs_a_part_witness :
  exists m' h',
    Message_Compose (H := example_world) None example_ts tt example_empty empty_heap
    = Some ([], m', h')
    /\ B "message has no parts" ∈ m_errors m'.
Proof.
  apply (Compose_needs_a_part (H := example_world) None example_ts tt example_empty empty_heap
           example_from); reflexivity.
Defined.

Lemma Message_prepare_flag_witness :
  exists extra,
    m_errors (fst (Message_prepare (H := example_world) false (fst example_original)
                     (snd example_original)))
    = m_errors (fst example_original) ++ extra
    /\ m_prepared (fst (Message_prepare (H := example_world) false (fst example_original)
                          (snd example_original)))
       = bool_decide (extra = []).
Proof.
  apply (Message_prepare_flag (H := example_world) false (fst example_original)
           (snd example_original)).
  reflexivity.
Defined.

Lemma Message_prepare_reads_files_witness :
  ReadFile (Collaborators := example_world)
    (att_fileName (cells (snd example_original) 0%nat))
  = inl (att_data
           (cells (snd (Message_prepare (H := example_world) false (fst example_original)
                          (snd example_original))) 0%nat)).
Proof.
  apply (Message_prepare_reads_files (H := example_world) false (fst example_original)
           (snd example_original) 0%nat).
  - reflexivity.
  - reflexivity.
  - change (0%nat ∈ [0%nat]). apply elem_of_cons. left. reflexivity.
  - discriminate.
  - right. reflexivity.
Defined.

Lemma example_message_wf : Message_wf (H := example_world) (fst example_message).
Proof.
  split; [reflexivity|]. split.
  - repeat constructor.
  - split; cbn; lia.
Defined.

Lemma Message_wf_kept_witness :
  Message_wf (H := example_world)
    (Message_TextTemplate (H := example_world) (B "Dear customer") (fst example_message)).
Proof.
  destruct (Message_wf_kept (H := example_world) (fst example_message) (snd example_message)
              example_message_wf)
    as (_ & _ & _ & _ & _ & _ & _ & _ & _ & _ & _ & Hk & _).
  exact (Hk (B "Dear customer")).
Defined.

Lemma NewMessage_copies_witness :
  NewMessage (H := example_world) (Some (fst example_message))
  = set_errors [] (fst example_message).
Proof.
  apply (NewMessage_copies (H := example_world) (fst example_message) example_message_wf).
Defined.

Lemma bad_template_blocks_Compose_witness :
  (exists e, Message_TextTemplate (H := strict_world) (B "{{.Name") zero_Message
             = add_error e zero_Message)
  /\ exists m' h',
       Message_Compose (H := strict_world) None example_ts tt
         (add_error (B "invalid text template") zero_Message) empty_heap
       = Some ([], m', h').
Proof.
  destruct (bad_template_blocks_Compose (H := strict_world) (B "{{.Name") (B "unexpected EOF")
              [] zero_Message None example_ts tt empty_heap) as (H1 & _ & H3); [discriminate|].
  split; [apply H1; reflexivity|apply H3].
Defined.

Lemma NewSender_port_witness :
  NewSender (B "mail.example.com") (B "user") (B "secret") []
  = NewSender (B "mail.example.com" ++ B ":25") (B "user") (B "secret") []
  /\ NewSender (B "mail.example.com" ++ B ":") (B "user") (B "secret") []
     = NewSender (B "mail.example.com") (B "user") (B "secret") [].
Proof.
  apply (NewSender_port (B "mail.example.com") (B "587") (B "user") (B "secret") []).
  reflexivity.
Defined.

Lemma NewSender_result_witness :
  username {| host := B "mail.example.com"; port := 587; username := B "user";
              password := B "secret";
              address := Some {| Name := []; Addr := B "user@example.com" |} |} = B "user"
  /\ B "user" <> []
  /\ password {| host := B "mail.example.com"; port := 587; username := B "user";
                 password := B "secret";
                 address := Some {| Name := []; Addr := B "user@example.com" |} |} = B "secret"
  /\ B "secret" <> []
  /\ port {| host := B "mail.example.com"; port := 587; username := B "user";
             password := B "secret";
             address := Some {| Name := []; Addr := B "user@example.com" |} |} <> 0
  /\ no_colon (host {| host := B "mail.example.com"; port := 587; username := B "user";
                       password := B "secret";
                       address := Some {| Name := []; Addr := B "user@example.com" |} |})
     = true
  /\ match address {| host := B "mail.example.com"; port := 587; username := B "user";
                      password := B "secret";
                      address := Some {| Name := []; Addr := B "user@example.com" |} |} with
     | Some a => SeemsValidAddr (Addr a) = true
     | None => True
     end.
Proof.
  apply (NewSender_result (B "mail.example.com:587") (B "user") (B "secret")
           [B "user@example.com"]).
  reflexivity.
Defined.

(** * The table lookups *)
Lemma hex_index_in_range c :
  (byte_shr c 4 < N.of_nat (length hextable))%N
  /\ (byte_and c 0x0f < N.of_nat (length hextable))%N.
Proof. destruct c; split; reflexivity. Qed.

Lemma b64_index_in_range s0 s1 s2 :
  (byte_shr s0 2 < N.of_nat (length base64table))%N
  /\ (N.land (byte_shl s0 4) 0x3F < N.of_nat (length base64table))%N
  /\ (N.land (byte_shl s1 2) 0x3F < N.of_nat (length base64table))%N
  /\ (N.lor (byte_shr s1 4) (N.land (byte_shl s0 4) 0x3F) < N.of_nat (length base64table))%N
  /\ (N.lor (byte_shr s2 6) (N.land (byte_shl s1 2) 0x3F) < N.of_nat (length base64table))%N
  /\ (byte_and s2 0x3F < N.of_nat (length base64table))%N.
Proof.
  change (N.of_nat (length base64table)) with 64%N.
  rewrite sextet1, sextet2, sextet0, sextet1_pad, sextet2_pad, sextet3.
  destruct (sextet_bounds s0 x00) as (A1 & A2 & _).
  destruct (sextet_bounds s1 x00) as (_ & _ & B3 & _).
  destruct (sextet_bounds s0 s1) as (_ & C2 & _).
  destruct (sextet_bounds s1 s2) as (_ & _ & D3 & _).
  destruct (sextet_bounds s2 s2) as (_ & _ & _ & E4).
  repeat split; assumption.
Qed.

(** Every index with which the encoders read [hextable] and [base64table]
    lies inside the table, whatever the input bytes: the lookups cannot
    fail. *)
Theorem table_lookups_in_range (c s0 s1 s2 : byte) :
  Forall (fun i => (i < N.of_nat (length hextable))%N) [byte_shr c 4; byte_and c 0x0f]
  /\ Forall (fun i => (i < N.of_nat (length base64table))%N)
       [byte_shr s0 2; N.land (byte_shl s0 4) 0x3F; N.land (byte_shl s1 2) 0x3F;
        N.lor (byte_shr s1 4) (N.land (byte_shl s0 4) 0x3F);
        N.lor (byte_shr s2 6) (N.land (byte_shl s1 2) 0x3F); byte_and s2 0x3F].
Proof.
  destruct (hex_index_in_range c) as (H1 & H2).
  destruct (b64_index_in_range s0 s1 s2) as (B1 & B2 & B3 & B4 & B5 & B6).
  split; repeat constructor; assumption.
Qed.
